(** * Moxfield card pricer: a shallow embedding of [content.js]

    The content script annotates the card gallery of a deck page with the
    cheapest market price of each card.  This development embeds the script
    function by function and states the behaviour of the price resolver
    ([getCardPrice]), the name extractor ([getCardName]), the annotator
    ([addPriceToCard]) and the debounced scan ([processCards] behind the
    [MutationObserver]).

    Conventions of the embedding.
    - A JS string is a [string] of bytes (its UTF-8 encoding).  [toLowerCase]
      maps the ASCII letters only and [trim] strips the ASCII white space
      only; the built-ins also map the other letters and strip the other
      white space of Unicode.
    - A JS number is kept abstract behind the interface [JSNumber]
      ([parseFloat], [isNaN], [<], [=== 0], [toFixed(2)]); the instance
      [decimal] computes with exact decimals and is used for the examples.
    - The DOM is a store of nodes addressed by identifiers; an element handle
      is a node identifier.
    - [null] and [undefined] are both [None].
    - Time is counted in milliseconds.  The observer is notified of the
      insertions of the script itself as it is of the changes of the host
      page. *)

From Stdlib Require Import Ascii String QArith Qabs Qround.
From stdpp Require Import gmap strings list fin_maps pretty.

Local Open Scope string_scope.
Local Open Scope char_scope.

(** ** Strings *)

Module Str.

Definition code (c : ascii) : nat := nat_of_ascii c.

Definition in_range (lo hi c : ascii) : bool :=
  (code lo <=? code c)%nat && (code c <=? code hi)%nat.

Definition is_lower (c : ascii) : bool := in_range "a" "z" c.
Definition is_upper (c : ascii) : bool := in_range "A" "Z" c.
Definition is_digit (c : ascii) : bool := in_range "0" "9" c.

(** The character class [[a-z0-9]] of the slug's regular expression. *)
Definition is_az09 (c : ascii) : bool := is_lower c || is_digit c.

Definition is_hyphen (c : ascii) : bool := Ascii.eqb c "-".

Definition lower_char (c : ascii) : ascii :=
  if is_upper c then ascii_of_nat (code c + 32) else c.

(** [String.prototype.toLowerCase], on the ASCII letters. *)
Fixpoint toLowerCase (s : string) : string :=
  match s with
  | EmptyString => EmptyString
  | String c r => String (lower_char c) (toLowerCase r)
  end.

(** White space as [String.prototype.trim] and [parseFloat] strip it (the
    one-byte members of the class): TAB, LF, VT, FF, CR and SPACE. *)
Definition is_space (c : ascii) : bool :=
  ((9 <=? code c)%nat && (code c <=? 13)%nat) || (code c =? 32)%nat.

Fixpoint trimStart (s : string) : string :=
  match s with
  | EmptyString => EmptyString
  | String c r => if is_space c then trimStart r else s
  end.

Fixpoint trimEnd (s : string) : string :=
  match s with
  | EmptyString => EmptyString
  | String c r =>
      match trimEnd r with
      | EmptyString => if is_space c then EmptyString else String c EmptyString
      | r' => String c r'
      end
  end.

(** [String.prototype.trim]. *)
Definition trim (s : string) : string := trimEnd (trimStart s).

Fixpoint startsWith (p s : string) : bool :=
  match p, s with
  | EmptyString, _ => true
  | String a p', String b s' => Ascii.eqb a b && startsWith p' s'
  | String _ _, EmptyString => false
  end.

(** [s.includes(p)]: [p] occurs in [s] as a substring. *)
Fixpoint includes (p s : string) : bool :=
  startsWith p s ||
  match s with
  | EmptyString => false
  | String _ r => includes p r
  end.

(** ASCII white space as HTML splits attribute values on it: TAB, LF, FF, CR
    and SPACE. *)
Definition is_html_space (c : ascii) : bool :=
  existsb (Nat.eqb (code c)) [9; 10; 12; 13; 32]%nat.

(** The white-space separated tokens of an attribute value (a [classList]). *)
Fixpoint tokens_go (cur : string) (s : string) : list string :=
  match s with
  | EmptyString => if String.eqb cur EmptyString then [] else [cur]
  | String c r =>
      if is_html_space c
      then (if String.eqb cur EmptyString then tokens_go EmptyString r
            else cur :: tokens_go EmptyString r)
      else tokens_go (cur +:+ String c EmptyString) r
  end.

Definition tokens (s : string) : list string := tokens_go EmptyString s.

(** JS truthiness of a string: every string but the empty one. *)
Definition truthy (s : string) : bool := negb (String.eqb s EmptyString).

(** JS truthiness of a value that is a string, [null] or [undefined]. *)
Definition truthy_opt (v : option string) : bool :=
  match v with
  | Some s => truthy s
  | None => false
  end.

(** [a || b] on such values. *)
Definition or_else (a b : option string) : option string :=
  if truthy_opt a then a else b.

End Str.

(** ** The companion-site slug (content.js, line 53) *)

Module Slug.
Import Str.

(** [.replace(/[^a-z0-9]+/g, '-')]: a left-to-right scan; [in_run] holds
    while the scan is inside a match of [[^a-z0-9]+], which is greedy, so the
    whole run is consumed by the match that emitted the hyphen. *)
Fixpoint replace_runs (in_run : bool) (s : string) : string :=
  match s with
  | EmptyString => EmptyString
  | String c r =>
      if is_az09 c then String c (replace_runs false r)
      else if in_run then replace_runs true r
      else String "-" (replace_runs true r)
  end.

(** [.replace(/^-|-$/g, '')]: [^-] matches a hyphen at index 0 only, [-$] a
    hyphen that is the last character; every match is deleted. *)
Fixpoint replace_edges (at_start : bool) (s : string) : string :=
  match s with
  | EmptyString => EmptyString
  | String c r =>
      if (at_start && is_hyphen c) || (is_hyphen c && String.eqb r EmptyString)
      then replace_edges false r
      else String c (replace_edges false r)
  end.

(** The path segment of the EDHREC link:
    [cardName.toLowerCase().replace(/[^a-z0-9]+/g, '-').replace(/^-|-$/g, '')]. *)
Definition slug (cardName : string) : string :=
  replace_edges true (replace_runs false (toLowerCase cardName)).

Definition edhrecUrl (cardName : string) : string :=
  ("https://edhrec.com/cards/" +:+ slug cardName)%string.

(** *** The slug as the specification words it

    Lowercase the name, replace every run of non-alphanumeric characters with
    a single hyphen, trim the leading and trailing hyphens. *)

Definition is_alnum (c : ascii) : bool := is_lower c || is_upper c || is_digit c.

(** Right to left: a non-alphanumeric character becomes a hyphen unless the
    run it belongs to has produced its hyphen already. *)
Fixpoint spec_collapse (s : string) : string :=
  match s with
  | EmptyString => EmptyString
  | String c r =>
      if is_alnum c then String c (spec_collapse r)
      else match spec_collapse r with
           | String "-" t => String "-" t
           | out => String "-" out
           end
  end.

Fixpoint spec_trim_left (s : string) : string :=
  match s with
  | EmptyString => EmptyString
  | String c r => if is_hyphen c then spec_trim_left r else s
  end.

Fixpoint spec_trim_right (s : string) : string :=
  match s with
  | EmptyString => EmptyString
  | String c r =>
      match spec_trim_right r with
      | EmptyString => if is_hyphen c then EmptyString else String c EmptyString
      | r' => String c r'
      end
  end.

Definition spec_slug (name : string) : string :=
  spec_trim_right (spec_trim_left (spec_collapse (toLowerCase name))).

End Slug.

(** ** Numbers

    The operations of the JS number type that the script uses.  A price is a
    double in the browser; the script only parses it, tests it for [NaN],
    compares it with [<], tests its truthiness and prints it, and the
    theorems below hold for every implementation of these operations. *)

Class JSNumber (number : Type) := {
  (** [parseFloat(s)] *)
  parseFloat : string -> number;
  (** [isNaN(x)] *)
  isNaN : number -> bool;
  (** [x < y] *)
  num_lt : number -> number -> bool;
  (** [x === 0] (true of both zeros) *)
  num_is_zero : number -> bool;
  (** [x.toFixed(2)] *)
  toFixed2 : number -> string
}.

(** [ToBoolean] on a number: false for the zeros and for [NaN]. *)
Definition num_truthy {number : Type} `{!JSNumber number} (x : number) : bool :=
  negb (num_is_zero x || isNaN x).

(** *** Exact decimals

    An executable instance: a number is [NaN], an infinity or an exact
    rational, so a decimal string denotes the rational it writes (a double
    would round it) and there is one zero.  [toFixed2] prints magnitudes
    below 10^21, as [Number.prototype.toFixed] does in fixed notation. *)

Module Decimal.
Import Str.

Inductive t :=
| NaN
| Infinity (negative : bool)
| Finite (q : Q).

(** The longest prefix of decimal digits: its value after [acc], how many
    digits it has, and the rest of the string. *)
Fixpoint digits (acc : N) (count : nat) (s : string) : N * nat * string :=
  match s with
  | String c r =>
      if is_digit c
      then digits (10 * acc + N.of_nat (code c - code "0")) (S count) r
      else (acc, count, s)
  | EmptyString => (acc, count, s)
  end.

(** An exponent part [e], [e+] or [e-] followed by digits, when there is
    one; otherwise the exponent is 0. *)
Definition exponent (s : string) : Z :=
  match s with
  | String c r =>
      if Ascii.eqb c "e" || Ascii.eqb c "E" then
        let '(neg, r1) :=
          match r with
          | String "-" r' => (true, r')
          | String "+" r' => (false, r')
          | _ => (false, r)
          end in
        let '(e, n, _) := digits 0 0 r1 in
        if (n =? 0)%nat then 0%Z
        else if neg then (- Z.of_N e)%Z else Z.of_N e
      else 0%Z
  | EmptyString => 0%Z
  end.

Definition scale (q : Q) (e : Z) : Q :=
  match e with
  | Z0 => q
  | Zpos p => Qmult q (inject_Z (Z.pow 10 (Zpos p)))
  | Zneg p => Qdiv q (inject_Z (Z.pow 10 (Zpos p)))
  end.

(** [parseFloat]: skip leading white space, read a sign, then [Infinity] or
    the longest prefix that is a decimal literal; [NaN] when there is none. *)
Definition parse (s : string) : t :=
  let s0 := trimStart s in
  let '(neg, s1) :=
    match s0 with
    | String "-" r => (true, r)
    | String "+" r => (false, r)
    | _ => (false, s0)
    end in
  if startsWith "Infinity" s1 then Infinity neg
  else
    let '(i, ni, r1) := digits 0 0 s1 in
    let '(f, nf, r2) :=
      match r1 with
      | String "." r => digits 0 0 r
      | _ => (0%N, 0%nat, r1)
      end in
    if ((ni =? 0) && (nf =? 0))%nat then NaN
    else
      let den := Z.pow 10 (Z.of_nat nf) in
      let mag := Qmake (Z.of_N i * den + Z.of_N f) (Z.to_pos den) in
      let q := scale mag (exponent r2) in
      Finite (Qred (if neg then Qopp q else q)).

Definition is_nan (x : t) : bool :=
  match x with NaN => true | _ => false end.

Definition lt (x y : t) : bool :=
  match x, y with
  | NaN, _ | _, NaN => false
  | Infinity a, Infinity b => a && negb b
  | Infinity a, Finite _ => a
  | Finite _, Infinity b => negb b
  | Finite p, Finite q => match Qcompare p q with Lt => true | _ => false end
  end.

Definition is_zero (x : t) : bool :=
  match x with
  | Finite q => (Qnum q =? 0)%Z
  | _ => false
  end.

Definition pad2 (n : Z) : string :=
  (if (n <? 10)%Z then "0" +:+ pretty n else pretty n)%string.

(** [toFixed(2)]: the sign, then the integer [n] nearest to [100 * |x|]
    (the larger one on a tie) printed with two decimals. *)
Definition to_fixed2 (x : t) : string :=
  match x with
  | NaN => "NaN"
  | Infinity neg => if neg then "-Infinity" else "Infinity"
  | Finite q =>
      let a := Qabs q in
      let n := Qfloor (Qplus (Qmult a (inject_Z 100)) (Qmake 1 2)) in
      ((if match Qcompare q 0 with Lt => true | _ => false end then "-" else "")
         +:+ pretty (n / 100)%Z +:+ "." +:+ pad2 (n mod 100)%Z)%string
  end.

End Decimal.

#[export] Instance decimal_number : JSNumber Decimal.t := {|
  parseFloat := Decimal.parse;
  isNaN := Decimal.is_nan;
  num_lt := Decimal.lt;
  num_is_zero := Decimal.is_zero;
  toFixed2 := Decimal.to_fixed2
|}.

(** ** The remote catalog (the Scryfall search response)

    The fields the script reads.  [prices], [purchase_uris] and the top-level
    [data] are read through [?.] and may be missing; a price and the vendor
    link are strings or [null]; [scryfall_uri] is read directly and is a
    string on every card object. *)

Record Prices := {
  usd : option string;
  usd_foil : option string;
  usd_etched : option string
}.

Record PurchaseUris := { tcgplayer : option string }.

Record Card := {
  prices : option Prices;
  purchase_uris : option PurchaseUris;
  scryfall_uri : string
}.

Inductive JsError :=
| Error (message : string)
| TypeError (message : string)
| SyntaxError (message : string).

(** What [response.json()] settles to: a rejection, or the parsed object
    with its [data] member. *)
Inductive Body :=
| InvalidJson (e : JsError)
| Parsed (data : option (list Card)).

(** What [fetch(searchUrl)] settles to. *)
Inductive FetchOutcome :=
| FetchRejected (e : JsError)
| FetchResponse (ok : bool) (status : nat) (body : Body).

(** ** The resolver: [getCardPrice] (content.js, lines 1-67) *)

Module PriceResult.
Record t {number : Type} := {
  price : option number;
  purchaseUrl : option string;
  scryfallUrl : option string;
  edhrecUrl : string
}.
Arguments t : clear implicits.
End PriceResult.

Record LogEntry := { log_message : string; log_error : JsError }.

Definition dquote : string := String (ascii_of_nat 34) EmptyString.

Module Uri.
Import Str.

Definition hex_digit (n : nat) : ascii :=
  if (n <? 10)%nat then ascii_of_nat (code "0" + n)
  else ascii_of_nat (code "A" + (n - 10)).

(** The characters [encodeURIComponent] leaves as they are. *)
Definition unreserved (c : ascii) : bool :=
  is_lower c || is_upper c || is_digit c ||
  existsb (Ascii.eqb c) ["-"; "_"; "."; "!"; "~"; "*"; "'"; "("; ")"].

(** [encodeURIComponent]: every other byte of the UTF-8 encoding is written
    [%XX]. *)
Fixpoint encodeURIComponent (s : string) : string :=
  match s with
  | EmptyString => EmptyString
  | String c r =>
      if unreserved c then String c (encodeURIComponent r)
      else String "%" (String (hex_digit (code c / 16))
             (String (hex_digit (code c mod 16)) (encodeURIComponent r)))
  end.

End Uri.

Definition searchUrl (cardName : string) : string :=
  ("https://api.scryfall.com/cards/search?unique=prints&q=!" +:+ dquote
     +:+ Uri.encodeURIComponent cardName +:+ dquote)%string.

(** [const priceCache = {}] is an ordinary object, so [priceCache[name]]
    also finds the members every object inherits from [Object.prototype]. *)
Definition Object_prototype_keys : list string :=
  ["constructor"; "__proto__"; "hasOwnProperty"; "isPrototypeOf";
   "propertyIsEnumerable"; "toLocaleString"; "toString"; "valueOf";
   "__defineGetter__"; "__defineSetter__"; "__lookupGetter__";
   "__lookupSetter__"]%string.

Section Resolver.
Context {number : Type} `{!JSNumber number}.

Abbreviation PriceResult := (PriceResult.t number).
Abbreviation Cache := (gmap string PriceResult).

(** What [getCardPrice] resolves to: [null], a result object, or (for a name
    that is a member of [Object.prototype]) that inherited member. *)
Inductive Resolved :=
| RNull
| RResult (r : PriceResult)
| RInherited (key : string).

(** [priceCache[cardName]]: [None] is [undefined]; every other value is
    truthy. *)
Definition cache_get (cache : Cache) (cardName : string) : option Resolved :=
  match cache !! cardName with
  | Some r => Some (RResult r)
  | None =>
      if bool_decide (cardName ∈ Object_prototype_keys)
      then Some (RInherited cardName)
      else None
  end.

(** The outcome of lines 6-12: a value returned from the cache, or a request
    in flight. *)
Inductive Lookup :=
| Hit (v : Resolved)
| Miss (url : string).

Definition getCardPrice_lookup (cache : Cache) (cardName : string) : Lookup :=
  match cache_get cache cardName with
  | Some v => Hit v
  | None => Miss (searchUrl cardName)
  end.

(** *** The body of [try]

    A computation reads and writes the cache and either returns or throws;
    what it wrote before a [throw] stays written. *)

Definition Try (A : Type) : Type := Cache -> (JsError + A) * Cache.

Definition ret {A} (a : A) : Try A := fun c => (inr a, c).
Definition throw {A} (e : JsError) : Try A := fun c => (inl e, c).
Definition bind {A B} (m : Try A) (k : A -> Try B) : Try B :=
  fun c =>
    match m c with
    | (inr a, c') => k a c'
    | (inl e, c') => (inl e, c')
    end.
Definition cache_set (cardName : string) (r : PriceResult) : Try unit :=
  fun c => (inr tt, <[cardName := r]> c).

#[local] Instance Try_ret : MRet Try := @ret.
#[local] Instance Try_bind : MBind Try := fun A B k m => bind m k.

(** [await fetch(searchUrl)], once the request has settled. *)
Definition await_fetch (o : FetchOutcome) : Try (bool * nat * Body) :=
  match o with
  | FetchRejected e => throw e
  | FetchResponse ok status body => ret (ok, status, body)
  end.

(** [await response.json()]. *)
Definition await_json (b : Body) : Try (option (list Card)) :=
  match b with
  | InvalidJson e => throw e
  | Parsed data => ret data
  end.

(** The variables of the scan over the printings (lines 25-27). *)
Record Locals := {
  cheapestPrice : option number;
  cheapestUrl : option string;
  scryfallUrl : option string
}.

(** The array [prices] of one printing (lines 35-39): the three facets in
    the fixed order, each with [purchase_uris?.tcgplayer || scryfall_uri]. *)
Definition card_prices (card : Card) : list (option string * option string) :=
  let url :=
    Str.or_else (pu ← purchase_uris card; tcgplayer pu) (Some (scryfall_uri card)) in
  [ (p ← prices card; usd p, url);
    (p ← prices card; usd_foil p, url);
    (p ← prices card; usd_etched p, url) ].

(** One turn of the inner loop (lines 41-49). *)
Definition consider (st : Locals) (entry : option string * option string) : Locals :=
  let '(value, url) := entry in
  match value with
  | Some v =>
      if Str.truthy v then
        let price := parseFloat v in
        if negb (isNaN price) &&
           match cheapestPrice st with
           | None => true
           | Some cheapest => num_lt price cheapest
           end
        then {| cheapestPrice := Some price; cheapestUrl := url;
                scryfallUrl := scryfallUrl st |}
        else st
      else st
  | None => st
  end.

(** One turn of the outer loop (lines 29-50). *)
Definition visit (st : Locals) (card : Card) : Locals :=
  let st1 :=
    if negb (Str.truthy_opt (scryfallUrl st))
    then {| cheapestPrice := cheapestPrice st; cheapestUrl := cheapestUrl st;
            scryfallUrl := Some (scryfall_uri card) |}
    else st in
  fold_left consider (card_prices card) st1.

Definition scan_printings (cards : list Card) : Locals :=
  fold_left visit cards
    {| cheapestPrice := None; cheapestUrl := None; scryfallUrl := None |}.

(** Lines 12-62, from the point where the request has settled. *)
Definition getCardPrice_try (cardName : string) (o : FetchOutcome)
  : Try (option PriceResult) :=
  '(ok, status, body) ← await_fetch o;
  if negb ok then throw (Error ("API returned status " +:+ pretty status))
  else
    data ← await_json body;
    match data with
    | None | Some [] => ret None
    | Some cards =>
        let st := scan_printings cards in
        let result := {|
          PriceResult.price := cheapestPrice st;
          PriceResult.purchaseUrl := cheapestUrl st;
          PriceResult.scryfallUrl := scryfallUrl st;
          PriceResult.edhrecUrl := Slug.edhrecUrl cardName
        |} in
        cache_set cardName result;;
        ret (Some result)
    end.

Definition error_message (cardName : string) : string :=
  ("Moxfield Pricer - Error fetching price for " +:+ dquote +:+ cardName
     +:+ dquote +:+ ":")%string.

(** The process-wide state of the resolver: the cache, the diagnostic
    channel ([console.error]) and the requests sent so far. *)
Record Resolver := {
  priceCache : Cache;
  console : list LogEntry;
  requests : list string
}.

(** [try { ... } catch (error) { console.error(...); return null; }], from
    the point where the request has settled. *)
Definition getCardPrice_settle (cardName : string) (o : FetchOutcome)
    (st : Resolver) : Resolved * Resolver :=
  match getCardPrice_try cardName o (priceCache st) with
  | (inr (Some r), cache) =>
      (RResult r, {| priceCache := cache; console := console st;
                     requests := requests st |})
  | (inr None, cache) =>
      (RNull, {| priceCache := cache; console := console st;
                 requests := requests st |})
  | (inl e, cache) =>
      (RNull,
       {| priceCache := cache;
          console := console st ++
            [{| log_message := error_message cardName; log_error := e |}];
          requests := requests st |})
  end.

(** [getCardPrice] run to completion against a transport that settles the
    request for [url] with [transport url]. *)
Definition getCardPrice (transport : string -> FetchOutcome)
    (cardName : string) (st : Resolver) : Resolved * Resolver :=
  match getCardPrice_lookup (priceCache st) cardName with
  | Hit v => (v, st)
  | Miss url =>
      getCardPrice_settle cardName (transport url)
        {| priceCache := priceCache st; console := console st;
           requests := requests st ++ [url] |}
  end.

End Resolver.

Arguments Resolved : clear implicits.
Arguments Lookup : clear implicits.
Arguments Locals : clear implicits.
Arguments Resolver : clear implicits.

(** ** The page: the DOM as a store of nodes

    A node handle (a JS reference) is an identifier; the store maps it to the
    node, which knows its parent and its children in order.  An element keeps
    its tag name as [tagName] reports it (upper case), its attributes, and
    the [value] property of a form control. *)

Inductive Content :=
| DocumentNode
| ElementNode (tagName : string) (attributes : gmap string string) (value : option string)
| TextNode (data : string).

Record Node := {
  content : Content;
  parentNode : option nat;
  childNodes : list nat
}.

Record DomStore := {
  nodes : gmap nat Node;
  (** the document node *)
  document : nat;
  (** the identifier the next created node gets *)
  nextId : nat
}.

Module DOM.
Import Str.

Definition node (d : DomStore) (n : nat) : option Node := nodes d !! n.

Definition is_element (nd : Node) : bool :=
  match content nd with ElementNode _ _ _ => true | _ => false end.

Definition tagName (d : DomStore) (n : nat) : option string :=
  nd ← node d n;
  match content nd with ElementNode t _ _ => Some t | _ => None end.

Definition node_attribute (nd : Node) (k : string) : option string :=
  match content nd with ElementNode _ a _ => a !! k | _ => None end.

Definition getAttribute (d : DomStore) (n : nat) (k : string) : option string :=
  nd ← node d n; node_attribute nd k.

(** A reflecting string property such as [alt] or [title]: the attribute,
    or the empty string. *)
Definition reflected (d : DomStore) (n : nat) (k : string) : string :=
  default EmptyString (getAttribute d n k).

Definition value (d : DomStore) (n : nat) : option string :=
  nd ← node d n;
  match content nd with ElementNode _ _ v => v | _ => None end.

(** [n.parentElement]: the parent when it is an element. *)
Definition parentElement (d : DomStore) (n : nat) : option nat :=
  nd ← node d n;
  p ← parentNode nd;
  pn ← node d p;
  if is_element pn then Some p else None.

Fixpoint after (n : nat) (l : list nat) : option nat :=
  match l with
  | [] => None
  | x :: r => if (x =? n)%nat then head r else after n r
  end.

(** [n.nextSibling]. *)
Definition nextSibling (d : DomStore) (n : nat) : option nat :=
  nd ← node d n;
  p ← parentNode nd;
  pn ← node d p;
  after n (childNodes pn).

(** The proper descendants of [n] in document order; [fuel] bounds the
    depth that is explored. *)
Fixpoint descendants_upto (fuel : nat) (d : DomStore) (n : nat) : list nat :=
  match fuel with
  | O => []
  | S k =>
      match node d n with
      | None => []
      | Some nd =>
          flat_map (fun c => c :: descendants_upto k d c) (childNodes nd)
      end
  end.

(** No branch of a tree is longer than the number of its nodes. *)
Definition descendants (d : DomStore) (n : nat) : list nat :=
  descendants_upto (size (nodes d)) d n.

Fixpoint textContent_upto (fuel : nat) (d : DomStore) (n : nat) : string :=
  match fuel with
  | O => EmptyString
  | S k =>
      match node d n with
      | None => EmptyString
      | Some nd =>
          match content nd with
          | TextNode s => s
          | _ => String.concat EmptyString (map (textContent_upto k d) (childNodes nd))
          end
      end
  end.

(** [n.textContent]. *)
Definition textContent (d : DomStore) (n : nat) : string :=
  textContent_upto (S (size (nodes d))) d n.

(** [n.querySelectorAll(sel)] and [n.querySelector(sel)], for a selector
    given as a test on one element. *)
Definition querySelectorAll (sel : Node -> bool) (d : DomStore) (n : nat) : list nat :=
  List.filter (fun x => match node d x with
                        | Some nd => is_element nd && sel nd
                        | None => false
                        end) (descendants d n).

Definition querySelector (sel : Node -> bool) (d : DomStore) (n : nat) : option nat :=
  head (querySelectorAll sel d n).

(** Simple selectors. *)
Definition sel_tag (t : string) (nd : Node) : bool :=
  match content nd with ElementNode t' _ _ => String.eqb t t' | _ => false end.

(** [[k*="v"]] *)
Definition sel_attr_contains (k v : string) (nd : Node) : bool :=
  match node_attribute nd k with Some a => includes v a | None => false end.

(** [[k]] *)
Definition sel_has_attr (k : string) (nd : Node) : bool :=
  bool_decide (is_Some (node_attribute nd k)).

(** [.c] *)
Definition sel_class (c : string) (nd : Node) : bool :=
  match node_attribute nd "class" with
  | Some a => bool_decide (c ∈ tokens a)
  | None => false
  end.

(** [#i], as [getElementById] uses it *)
Definition sel_id (i : string) (nd : Node) : bool :=
  bool_decide (node_attribute nd "id" = Some i).

Definition getElementById (d : DomStore) (i : string) : option nat :=
  querySelector (sel_id i) d (document d).

(** [document.body]: the BODY element of the document, [null] when there is
    none. *)
Definition body (d : DomStore) : option nat :=
  querySelector (sel_tag "BODY") d (document d).

(** *** Mutation *)

Definition set_node (d : DomStore) (n : nat) (nd : Node) : DomStore :=
  {| nodes := <[n := nd]> (nodes d); document := document d; nextId := nextId d |}.

(** [n.setAttribute(k, v)], also behind [n.dataset.x = v], [n.className = v]
    and the reflecting properties of a link. *)
Definition setAttribute (d : DomStore) (n : nat) (k v : string) : DomStore :=
  match node d n with
  | Some nd =>
      match content nd with
      | ElementNode t a val =>
          set_node d n {| content := ElementNode t (<[k := v]> a) val;
                          parentNode := parentNode nd;
                          childNodes := childNodes nd |}
      | _ => d
      end
  | None => d
  end.

Definition fresh_node (c : Content) (d : DomStore) : nat * DomStore :=
  (nextId d,
   {| nodes := <[nextId d := {| content := c; parentNode := None; childNodes := [] |}]> (nodes d);
      document := document d;
      nextId := S (nextId d) |}).

(** [document.createElement(tag)] *)
Definition createElement (tag : string) (d : DomStore) : nat * DomStore :=
  fresh_node (ElementNode tag ∅ None) d.

Definition set_parent (d : DomStore) (n : nat) (p : option nat) : DomStore :=
  match node d n with
  | Some nd => set_node d n {| content := content nd; parentNode := p;
                               childNodes := childNodes nd |}
  | None => d
  end.

Definition set_children (d : DomStore) (n : nat) (l : list nat) : DomStore :=
  match node d n with
  | Some nd => set_node d n {| content := content nd; parentNode := parentNode nd;
                               childNodes := l |}
  | None => d
  end.

(** Take [n] out of the child list of its parent, if it has one. *)
Definition detach (d : DomStore) (n : nat) : DomStore :=
  match nd ← node d n; parentNode nd with
  | Some p =>
      match node d p with
      | Some pn =>
          set_parent
            (set_children d p (List.filter (fun x => negb (x =? n)%nat) (childNodes pn)))
            n None
      | None => set_parent d n None
      end
  | None => d
  end.

(** [parent.appendChild(child)] *)
Definition appendChild (d : DomStore) (parent child : nat) : DomStore :=
  let d1 := detach d child in
  match node d1 parent with
  | Some pn => set_parent (set_children d1 parent (childNodes pn ++ [child])) child (Some parent)
  | None => d1
  end.

Fixpoint insert_before (new ref : nat) (l : list nat) : option (list nat) :=
  match l with
  | [] => None
  | x :: r => if (x =? ref)%nat then Some (new :: l)
              else cons x <$> insert_before new ref r
  end.

(** [parent.insertBefore(new, ref)]: appends when [ref] is [null]; throws
    (and changes nothing) when [ref] is not a child of [parent]. *)
Definition insertBefore (d : DomStore) (parent new : nat) (ref : option nat) : DomStore :=
  match ref with
  | None => appendChild d parent new
  | Some r =>
      match node d parent with
      | Some pn0 =>
          if bool_decide (r ∈ childNodes pn0) then
            let d1 := detach d new in
            match node d1 parent with
            | Some pn =>
                match insert_before new r (childNodes pn) with
                | Some l => set_parent (set_children d1 parent l) new (Some parent)
                | None => d
                end
            | None => d
            end
          else d
      | None => d
      end
  end.

(** [n.textContent = s], for a non-empty [s]: the children of [n] are
    replaced by one text node. *)
Definition set_textContent (d : DomStore) (n : nat) (s : string) : DomStore :=
  match node d n with
  | Some nd =>
      let d1 := fold_left (fun acc c => set_parent acc c None) (childNodes nd) d in
      let '(t, d2) := fresh_node (TextNode s) (set_children d1 n []) in
      appendChild d2 n t
  | None => d
  end.

End DOM.

(** ** The script on the page (content.js, lines 69-180) *)

Section Script.
Context {number : Type} `{!JSNumber number}.
Import Str.

Abbreviation PriceResult := (PriceResult.t number).

(** [img.alt || img.title || img.dataset.name] *)
Definition image_name (d : DomStore) (img : nat) : option string :=
  or_else (Some (DOM.reflected d img "alt"))
    (or_else (Some (DOM.reflected d img "title"))
       (DOM.getAttribute d img "data-name")).

Definition invalidNames : list string := ["front"; "back"; "transform"]%string.

(** The selector [[class*="name"], [class*="card-name"]]. *)
Definition sel_name (nd : Node) : bool :=
  DOM.sel_attr_contains "class" "name" nd || DOM.sel_attr_contains "class" "card-name" nd.

(** [getCardName] (lines 70-100).  The result is a string, or [None] for
    [null] and [undefined]. *)
Definition getCardName (d : DomStore) (element : nat) : option string :=
  let cardName0 : option string :=
    if bool_decide (DOM.tagName d element = Some "IMG"%string)
    then image_name d element else None in
  let cardName1 :=
    if negb (truthy_opt cardName0) then
      match DOM.querySelector (DOM.sel_tag "IMG") d element with
      | Some img => image_name d img
      | None => cardName0
      end
    else cardName0 in
  let cardName2 :=
    if negb (truthy_opt cardName1) then
      let nameElement :=
        match DOM.querySelector sel_name d element with
        | Some n => Some n
        | None =>
            p ← DOM.parentElement d element;
            DOM.querySelector (DOM.sel_attr_contains "class" "name") d p
        end in
      n ← nameElement; Some (trim (DOM.textContent d n))
    else cardName1 in
  match cardName2 with
  | Some name =>
      if truthy name && bool_decide (toLowerCase name ∈ invalidNames)
      then None else cardName2
  | None => cardName2
  end.

(** What a suspended call of [addPriceToCard] waits for at line 111: a
    value [getCardPrice] has returned already (the continuation is a queued
    microtask), or the request [getCardPrice] has sent. *)
Inductive Awaiting :=
| AwaitValue (v : Resolved number)
| AwaitFetch (cardName : string).

Record Task := {
  task_element : nat;
  task_awaiting : Awaiting
}.

Record Page := {
  page_dom : DomStore;
  resolver : Resolver number;
  tasks : list Task
}.

(** [cardElement.dataset.priceAdded] *)
Definition priceAdded (d : DomStore) (cardElement : nat) : option string :=
  DOM.getAttribute d cardElement "data-price-added".

(** [addPriceToCard] up to its suspension at line 111 (lines 104-111, with
    lines 6-12 of [getCardPrice]). *)
Definition addPriceToCard_begin (cardElement : nat) (pg : Page) : Page :=
  if truthy_opt (priceAdded (page_dom pg) cardElement) then pg
  else
    let d := DOM.setAttribute (page_dom pg) cardElement "data-price-added" "true" in
    match getCardName d cardElement with
    | Some cardName =>
        if truthy cardName then
          match getCardPrice_lookup (priceCache (resolver pg)) cardName with
          | Hit v =>
              {| page_dom := d; resolver := resolver pg;
                 tasks := tasks pg ++
                   [{| task_element := cardElement; task_awaiting := AwaitValue v |}] |}
          | Miss url =>
              {| page_dom := d;
                 resolver :=
                   {| priceCache := priceCache (resolver pg);
                      console := console (resolver pg);
                      requests := requests (resolver pg) ++ [url] |};
                 tasks := tasks pg ++
                   [{| task_element := cardElement;
                       task_awaiting := AwaitFetch cardName |}] |}
          end
        else {| page_dom := d; resolver := resolver pg; tasks := tasks pg |}
    | None => {| page_dom := d; resolver := resolver pg; tasks := tasks pg |}
    end.

(** One link of the cluster (lines 119-125, 129-135 and 140-146, which
    differ in the target, the class and the label only): an anchor is
    created, set up and appended to the container. *)
Definition append_link (container : nat) (href cls text : string) (d : DomStore) : DomStore :=
  let '(a, d) := DOM.createElement "A" d in
  let d := DOM.setAttribute d a "href" href in
  let d := DOM.setAttribute d a "target" "_blank" in
  let d := DOM.setAttribute d a "rel" "noopener noreferrer" in
  let d := DOM.setAttribute d a "class" cls in
  let d := DOM.set_textContent d a text in
  DOM.appendChild d container a.

(** The label of the price link: [`$${result.price.toFixed(2)}`]. *)
Definition price_label (p : number) : string := ("$" +:+ toFixed2 p)%string.

(** Lines 115-153: build the cluster and put it in the page.  The result is
    the identifier of the container and the new DOM. *)
Definition insert_links (cardElement : nat) (r : PriceResult) (p : number)
    (d : DomStore) : nat * DomStore :=
  let '(linksContainer, d) := DOM.createElement "DIV" d in
  let d := DOM.setAttribute d linksContainer "class" "moxfield-card-links" in
  let d := append_link linksContainer
             (default "null"%string (PriceResult.purchaseUrl r))
             "moxfield-card-price" (price_label p) d in
  let d :=
    match PriceResult.scryfallUrl r with
    | Some u => if truthy u
                then append_link linksContainer u "moxfield-card-link" "Scryfall" d
                else d
    | None => d
    end in
  let d :=
    if truthy (PriceResult.edhrecUrl r)
    then append_link linksContainer (PriceResult.edhrecUrl r)
           "moxfield-card-link" "EDHREC" d
    else d in
  match DOM.parentElement d cardElement with
  | Some parent =>
      (linksContainer,
       DOM.insertBefore d parent linksContainer (DOM.nextSibling d cardElement))
  | None => (linksContainer, DOM.appendChild d cardElement linksContainer)
  end.

(** [result?.price] *)
Definition result_price (result : Resolved number) : option number :=
  match result with
  | RResult r => PriceResult.price r
  | _ => None
  end.

(** [addPriceToCard] from line 113 on, with the value of [result]. *)
Definition addPriceToCard_finish (cardElement : nat) (result : Resolved number)
    (d : DomStore) : DomStore :=
  match result with
  | RResult r =>
      match PriceResult.price r with
      | Some p => if num_truthy p then snd (insert_links cardElement r p d) else d
      | None => d
      end
  | _ => d
  end.

(** [isSpoilerViewMode] (lines 158-169) *)
Definition isSpoilerViewMode (d : DomStore) : bool :=
  match DOM.getElementById d "viewMode" with
  | None => false
  | Some viewModeElement =>
      bool_decide (DOM.value d viewModeElement = Some "spoiler"%string)
  end.

(** The selector [.img-card:not([data-price-added])]. *)
Definition sel_card (nd : Node) : bool :=
  DOM.sel_class "img-card" nd && negb (DOM.sel_has_attr "data-price-added" nd).

(** [processCards] (lines 172-180): every selected element runs
    [addPriceToCard] up to its suspension. *)
Definition processCards (pg : Page) : Page :=
  if negb (isSpoilerViewMode (page_dom pg)) then pg
  else
    let cardElements := DOM.querySelectorAll sel_card (page_dom pg) (document (page_dom pg)) in
    fold_left (fun acc el => addPriceToCard_begin el acc) cardElements pg.

(** The microtasks that follow: every call that waits for a value already
    returned runs to its end, in the order of the calls. *)
Definition run_microtasks (pg : Page) : Page :=
  fold_left
    (fun acc t =>
       match task_awaiting t with
       | AwaitValue v =>
           {| page_dom := addPriceToCard_finish (task_element t) v (page_dom acc);
              resolver := resolver acc; tasks := tasks acc |}
       | AwaitFetch _ =>
           {| page_dom := page_dom acc; resolver := resolver acc; tasks := tasks acc ++ [t] |}
       end)
    (tasks pg)
    {| page_dom := page_dom pg; resolver := resolver pg; tasks := [] |}.

(** One scan, as a timer runs it. *)
Definition scan (pg : Page) : Page := run_microtasks (processCards pg).

(** The request of the [k]-th suspended call settles with [o]: the call of
    [getCardPrice] runs to its end, then [addPriceToCard] does. *)
Definition deliver (k : nat) (o : FetchOutcome) (pg : Page) : Page :=
  match tasks pg !! k with
  | Some {| task_element := el; task_awaiting := AwaitFetch cardName |} =>
      let '(result, rs) := getCardPrice_settle cardName o (resolver pg) in
      {| page_dom := addPriceToCard_finish el result (page_dom pg);
         resolver := rs;
         tasks := delete k (tasks pg) |}
  | _ => pg
  end.

End Script.

Arguments Awaiting : clear implicits.
Arguments Task : clear implicits.
Arguments Page : clear implicits.

(** ** The coordinator: timers and the mutation observer (lines 183-205)

    Time is counted in milliseconds.  A timer set with delay [n] at time [t]
    runs at time [t + n] unless it is cleared before. *)

(** The two functions handed to [setTimeout]. *)
Inductive Callback :=
| CbProcessCards      (** [processCards], line 185 *)
| CbInit.             (** the arrow function of [init], lines 191-197 *)

Record Timer := {
  timer_id : nat;
  timer_due : nat;
  timer_callback : Callback
}.

Section Coordinator.
Context {number : Type} `{!JSNumber number}.

Record Window := {
  now : nat;
  timers : list Timer;
  nextTimer : nat;
  (** [observer.timeout] *)
  observer_timeout : option nat;
  (** whether [observer.observe] has been called *)
  observing : bool;
  page : Page number;
  (** the times at which [processCards] has run *)
  scans : list nat
}.

Definition with_timers (w : Window) (l : list Timer) (next : nat) : Window :=
  {| now := now w; timers := l; nextTimer := next;
     observer_timeout := observer_timeout w; observing := observing w;
     page := page w; scans := scans w |}.

(** [setTimeout(cb, delay)] *)
Definition setTimeout (cb : Callback) (delay : nat) (w : Window) : nat * Window :=
  (nextTimer w,
   with_timers w
     (timers w ++ [{| timer_id := nextTimer w; timer_due := now w + delay;
                      timer_callback := cb |}])
     (S (nextTimer w))).

(** [clearTimeout(id)]; nothing happens for [undefined] or a timer that has
    run. *)
Definition clearTimeout (id : option nat) (w : Window) : Window :=
  match id with
  | Some i =>
      with_timers w
        (List.filter (fun tm => negb (timer_id tm =? i)%nat) (timers w))
        (nextTimer w)
  | None => w
  end.

(** The callback of the [MutationObserver] (lines 183-186). *)
Definition observer_callback (w : Window) : Window :=
  let w := clearTimeout (observer_timeout w) w in
  let '(id, w) := setTimeout CbProcessCards 300 w in
  {| now := now w; timers := timers w; nextTimer := nextTimer w;
     observer_timeout := Some id; observing := observing w;
     page := page w; scans := scans w |}.

(** [init] (lines 189-198) *)
Definition init (w : Window) : Window := snd (setTimeout CbInit 2000 w).

Definition with_page (w : Window) (pg : Page number) : Window :=
  {| now := now w; timers := timers w; nextTimer := nextTimer w;
     observer_timeout := observer_timeout w; observing := observing w;
     page := pg; scans := scans w |}.

(** The nodes the observer watches once it is attached to [document.body]
    with [childList] and [subtree] (lines 193-196): the body and its
    descendants. *)
Definition observed (d : DomStore) : list nat :=
  match DOM.body d with
  | Some b => b :: DOM.descendants d b
  | None => []
  end.

(** Whether a mutation record is queued while the DOM goes from [before] to
    [after]: the child list of a watched node has changed.  The script
    changes child lists by inserting only (lines 121-152); the marker it
    sets (line 106) is an attribute, which the observer does not watch. *)
Definition childList_changed (before after : DomStore) : bool :=
  existsb
    (fun x => negb (bool_decide ((childNodes <$> DOM.node after x)
                                 = (childNodes <$> DOM.node before x))))
    (observed before).

(** The end of a task during which the DOM has gone from [before] to the
    present one: the records queued are delivered, that is, the callback of
    the observer runs, if it is attached and there is a record. *)
Definition notify (before : DomStore) (w : Window) : Window :=
  if observing w && childList_changed before (page_dom (page w))
  then observer_callback w else w.

(** The microtasks at the end of a task of the script, which insert the
    links of the cards whose result is there already; the observer is
    notified of what they insert. *)
Definition finish_task (w : Window) : Window :=
  notify (page_dom (page w)) (with_page w (run_microtasks (page w))).

(** A timer runs [processCards] (line 185): every selected card is started,
    then the microtasks run. *)
Definition run_processCards (w : Window) : Window :=
  finish_task
    {| now := now w; timers := timers w; nextTimer := nextTimer w;
       observer_timeout := observer_timeout w; observing := observing w;
       page := processCards (page w); scans := scans w ++ [now w] |}.

(** [observer.observe(document.body, ...)] (lines 193-196); without a body
    the call throws and the observer is not attached. *)
Definition observe (w : Window) : Window :=
  {| now := now w; timers := timers w; nextTimer := nextTimer w;
     observer_timeout := observer_timeout w;
     observing := observing w || bool_decide (is_Some (DOM.body (page_dom (page w))));
     page := page w; scans := scans w |}.

Definition run_callback (cb : Callback) (w : Window) : Window :=
  match cb with
  | CbProcessCards => run_processCards w
  | CbInit =>
      (** lines 192-196: [processCards()], then [observe]; the microtasks run
          when the function has returned, the observer attached *)
      finish_task
        (observe
           {| now := now w; timers := timers w; nextTimer := nextTimer w;
              observer_timeout := observer_timeout w; observing := observing w;
              page := processCards (page w); scans := scans w ++ [now w] |})
  end.

(** The timer that runs next: the earliest due, the first set among equals. *)
Fixpoint earliest (l : list Timer) : option Timer :=
  match l with
  | [] => None
  | tm :: r =>
      match earliest r with
      | Some tm' => if (timer_due tm' <? timer_due tm)%nat then Some tm' else Some tm
      | None => Some tm
      end
  end.

(** Run the timers due at [t] or before, in order.  A scan that notifies the
    observer sets a timer again, 300 later, which runs too when it is due by
    [t]. *)
Fixpoint run_due (fuel : nat) (t : nat) (w : Window) : Window :=
  match fuel with
  | O => w
  | S k =>
      match earliest (timers w) with
      | Some tm =>
          if (timer_due tm <=? t)%nat then
            let w1 :=
              {| now := Nat.max (now w) (timer_due tm);
                 timers := List.filter
                             (fun x => negb (timer_id x =? timer_id tm)%nat) (timers w);
                 nextTimer := nextTimer w;
                 observer_timeout := observer_timeout w; observing := observing w;
                 page := page w; scans := scans w |} in
            run_due k t (run_callback (timer_callback tm) w1)
          else w
      | None => w
      end
  end.

(** The timers that can run until [t]: a timer due at [d] runs, and so may
    one timer set when it runs, due at [d + 300] or later, and so on. *)
Definition runs_until (t : nat) (l : list Timer) : nat :=
  list_sum (List.map (fun tm => if (timer_due tm <=? t)%nat
                                then S ((t - timer_due tm) / 300) else 0%nat) l).

(** Let the time pass until [t]. *)
Definition advance (t : nat) (w : Window) : Window :=
  let w := run_due (runs_until t (timers w)) t w in
  {| now := Nat.max (now w) t; timers := timers w; nextTimer := nextTimer w;
     observer_timeout := observer_timeout w; observing := observing w;
     page := page w; scans := scans w |}.

(** What happens to the window. *)
Inductive Event :=
| Mutation (t : nat)                                (** the host page changes the DOM under the body at [t] *)
| Response (t : nat) (k : nat) (o : FetchOutcome)   (** a request settles at [t] *)
| Idle (t : nat).                                   (** nothing until [t] *)

Definition step (w : Window) (e : Event) : Window :=
  match e with
  | Mutation t =>
      let w := advance t w in
      if observing w then observer_callback w else w
  | Response t k o =>
      let w := advance t w in
      notify (page_dom (page w)) (with_page w (deliver k o (page w)))
  | Idle t => advance t w
  end.

Definition run (events : list Event) (w : Window) : Window :=
  fold_left step events w.

(** The window when the script is loaded, at time 0, on a page that is no
    longer loading (lines 201-205; on a page that is still loading the same
    [init] runs when [DOMContentLoaded] fires). *)
Definition load (pg : Page number) : Window :=
  init {| now := 0; timers := []; nextTimer := 1; observer_timeout := None;
          observing := false; page := pg; scans := [] |}.

End Coordinator.

Arguments Window : clear implicits.

(** ** The printings a response offers, as the specification reads them

    A candidate is a price facet that is present and parses to a number,
    with the link it is bought at: the vendor link of its printing, or the
    catalog page of the printing when there is no vendor link. *)

Section Candidates.
Context {number : Type} `{!JSNumber number}.

Definition purchase_link (card : Card) : string :=
  match purchase_uris card with
  | Some {| tcgplayer := Some u |} => if Str.truthy u then u else scryfall_uri card
  | _ => scryfall_uri card
  end.

(** base, foil, etched *)
Definition facets (card : Card) : list (option string) :=
  match prices card with
  | Some p => [usd p; usd_foil p; usd_etched p]
  | None => [None; None; None]
  end.

Definition parseable (v : option string) : option number :=
  match v with
  | Some s =>
      if Str.truthy s && negb (isNaN (parseFloat s)) then Some (parseFloat s) else None
  | None => None
  end.

Definition card_candidates (card : Card) : list (number * string) :=
  omap (fun v => p ← parseable v; Some (p, purchase_link card)) (facets card).

(** All candidates of a response, printing by printing in response order. *)
Definition candidates (cards : list Card) : list (number * string) :=
  flat_map card_candidates cards.

(** [best] is the candidate at index [i], no candidate is below it, and
    every candidate before it is strictly above it. *)
Definition first_minimum (l : list (number * string)) (i : nat)
    (best : number * string) : Prop :=
  l !! i = Some best ∧
  (∀ j c, l !! j = Some c → num_lt (fst c) (fst best) = false) ∧
  (∀ j c, j < i → l !! j = Some c → num_lt (fst best) (fst c) = true).

(** The laws of [<] on numbers that are not [NaN], as doubles have them. *)
Definition lt_asymmetric : Prop :=
  ∀ x y : number, num_lt x y = true → num_lt y x = false.

Definition lt_below : Prop :=
  ∀ x y z : number,
    isNaN z = false → num_lt x y = true → num_lt z y = false → num_lt x z = true.

End Candidates.

(** ** A sample page and sample responses, for the examples *)

Module Sample.
Local Open Scope string_scope.

Definition element (tag : string) (attrs : list (string * string))
    (v : option string) (p : option nat) (ch : list nat) : Node :=
  {| content := ElementNode tag (list_to_map attrs) v;
     parentNode := p; childNodes := ch |}.

(** A gallery in spoiler view with three cards: an image named
    "Lightning Bolt", a card without any name, and the face indicator
    "Front". *)
Definition gallery : DomStore := {|
  nodes := list_to_map [
    (0, {| content := DocumentNode; parentNode := None; childNodes := [1] |});
    (1, element "HTML" [] None (Some 0) [2]);
    (2, element "BODY" [] None (Some 1) [3; 4]);
    (3, element "SELECT" [("id", "viewMode")] (Some "spoiler") (Some 2) []);
    (4, element "DIV" [("class", "gallery")] None (Some 2) [5; 7; 9]);
    (5, element "DIV" [("class", "img-card shadow")] None (Some 4) [6]);
    (6, element "IMG" [("alt", "Lightning Bolt")] None (Some 5) []);
    (7, element "DIV" [("class", "img-card")] None (Some 4) [8]);
    (8, element "SPAN" [] None (Some 7) []);
    (9, element "IMG" [("class", "img-card"); ("alt", "Front")] None (Some 4) [])
  ]%string;
  document := 0;
  nextId := 10
|}.

(** A page with a single card, and a card element that is not in any
    document. *)
Definition single : DomStore := {|
  nodes := list_to_map [
    (0, {| content := DocumentNode; parentNode := None; childNodes := [1] |});
    (1, element "BODY" [] None (Some 0) [2; 3]);
    (2, element "SELECT" [("id", "viewMode")] (Some "spoiler") (Some 1) []);
    (3, element "IMG" [("class", "img-card"); ("alt", "Opt")] None (Some 1) []);
    (4, element "IMG" [("class", "img-card"); ("alt", "Opt")] None None [])
  ]%string;
  document := 0;
  nextId := 5
|}.

Definition fresh : Resolver Decimal.t :=
  {| priceCache := ∅; console := []; requests := [] |}.

Definition page_of (d : DomStore) : Page Decimal.t :=
  {| page_dom := d; resolver := fresh; tasks := [] |}.

Definition printing (base foil etched : option string) (vendor : option string)
    (uri : string) : Card :=
  {| prices := Some {| usd := base; usd_foil := foil; usd_etched := etched |};
     purchase_uris := Some {| tcgplayer := vendor |};
     scryfall_uri := uri |}.

(** The printing of the specification's example: 12.50, 9.99 and no etched
    price. *)
Definition bolt : Card :=
  printing (Some "12.50") (Some "9.99") None (Some "https://tcg/bolt") "https://scryfall/bolt"%string.

(** Two printings with the same base price. *)
Definition five_a : Card :=
  printing (Some "5.00") None None (Some "https://tcg/a") "https://scryfall/a"%string.
Definition five_b : Card :=
  printing (Some "5.00") (Some "n/a") None None "https://scryfall/b"%string.

(** A printing without any price, and one that is free. *)
Definition unpriced : Card :=
  printing None None None None "https://scryfall/u"%string.
Definition free : Card :=
  printing (Some "0.00") (Some "5.00") None (Some "https://tcg/x") "https://scryfall/x"%string.

Definition ok_with (cards : list Card) : FetchOutcome :=
  FetchResponse true 200 (Parsed (Some cards)).

Definition unreachable : FetchOutcome :=
  FetchRejected (TypeError "NetworkError when attempting to fetch resource.").

Definition zero_result : PriceResult.t Decimal.t :=
  {| PriceResult.price := Some (Decimal.Finite 0);
     PriceResult.purchaseUrl := Some "https://tcg/x"%string;
     PriceResult.scryfallUrl := Some "https://scryfall/x"%string;
     PriceResult.edhrecUrl := Slug.edhrecUrl "Opt" |}.

Definition opt_result : PriceResult.t Decimal.t :=
  {| PriceResult.price := Some (Decimal.Finite (1 # 4));
     PriceResult.purchaseUrl := Some "https://tcg/opt"%string;
     PriceResult.scryfallUrl := Some "https://scryfall/opt"%string;
     PriceResult.edhrecUrl := Slug.edhrecUrl "Opt" |}.

End Sample.

(** ** Auxiliary definitions for the statements and their proofs *)

Module SlugAux.
Import Str.

Definition drop_hyphen (s : string) : string :=
  match s with
  | String "-" r => r
  | _ => s
  end.

(** No two hyphens are adjacent. *)
Fixpoint single_hyphens (s : string) : bool :=
  match s with
  | String a (String b _ as t) => negb (is_hyphen a && is_hyphen b) && single_hyphens t
  | _ => true
  end.

End SlugAux.

Section ResolverAux.
Context {number : Type} `{!JSNumber number}.

(** The running minimum after one more candidate. *)
Definition pick (best : option (number * string)) (c : number * string)
  : option (number * string) :=
  match best with
  | None => Some c
  | Some b => if num_lt (fst c) (fst b) then Some c else best
  end.

(** The two variables [cheapestPrice] and [cheapestUrl] hold [best]. *)
Definition holds (st : Locals number) (best : option (number * string)) : Prop :=
  match best with
  | None => cheapestPrice st = None ∧ cheapestUrl st = None
  | Some (p, u) => cheapestPrice st = Some p ∧ cheapestUrl st = Some u
  end.

(** The result object of lines 55-60. *)
Definition assemble (cardName : string) (cards : list Card) : PriceResult.t number :=
  let st := scan_printings cards in
  {| PriceResult.price := cheapestPrice st;
     PriceResult.purchaseUrl := cheapestUrl st;
     PriceResult.scryfallUrl := scryfallUrl st;
     PriceResult.edhrecUrl := Slug.edhrecUrl cardName |}.

Definition with_cache (st : Resolver number) (cache : gmap string (PriceResult.t number))
  : Resolver number :=
  {| priceCache := cache; console := console st; requests := requests st |}.

Definition with_log (st : Resolver number) (e : LogEntry) : Resolver number :=
  {| priceCache := priceCache st; console := console st ++ [e]; requests := requests st |}.

Definition with_request (st : Resolver number) (url : string) : Resolver number :=
  {| priceCache := priceCache st; console := console st; requests := requests st ++ [url] |}.

(** The error a transport failure raises inside [try]: the rejection of
    [fetch], or the error thrown for a status that is not a success. *)
Definition transport_failure (o : FetchOutcome) : option JsError :=
  match o with
  | FetchRejected e => Some e
  | FetchResponse false status _ =>
      Some (Error ("API returned status " +:+ pretty status))
  | FetchResponse true _ _ => None
  end.

End ResolverAux.

Module DomAux.
Import DOM.
Local Open Scope string_scope.
Local Open Scope list_scope.

(** [setAttribute] rewrites the attributes of one element and nothing else. *)
Definition with_attribute (k v : string) (nd : Node) : Node :=
  match content nd with
  | ElementNode t a val =>
      {| content := ElementNode t (<[k := v]> a) val;
         parentNode := parentNode nd; childNodes := childNodes nd |}
  | _ => nd
  end.

(** The attributes of a link of the cluster. *)
Definition link_attributes (href cls : string) : gmap string string :=
  <["class" := cls]> (<["rel" := "noopener noreferrer"]>
    (<["target" := "_blank"]> (<["href" := href]> ∅)))%string.

(** The container of the cluster, under [parent] and with the links
    [kids]. *)
Definition container_node (parent : option nat) (kids : list nat) : Node :=
  {| content := ElementNode "DIV" {[ "class" := "moxfield-card-links" ]}%string None;
     parentNode := parent; childNodes := kids |}.

(** The price link: the first node created after the container, with its
    label as the node after it. *)
Definition price_link_node (container : nat) (href : string) : Node :=
  {| content := ElementNode "A" (link_attributes href "moxfield-card-price") None;
     parentNode := Some container; childNodes := [S (S container)] |}.

Definition label_node (container : nat) (text : string) : Node :=
  {| content := TextNode text; parentNode := Some (S container); childNodes := [] |}.

(** The element is in the store, identifiers at and above [nextId] are
    unused, and the parent of the element lists it among its children, which
    are distinct. *)
Record well_formed_at (d : DomStore) (el : nat) : Prop := {
  wf_fresh : ∀ x, is_Some (node d x) → x < nextId d;
  wf_node : is_Some (node d el);
  wf_parent : ∀ nd q, node d el = Some nd → parentNode nd = Some q →
                ∃ qn, node d q = Some qn ∧ NoDup (childNodes qn) ∧ el ∈ childNodes qn
}.

(** The store while the cluster is built: the nodes of [d0] are as they
    were, the container is a parentless [div] of class [moxfield-card-links]
    with the links [kids], and no other new node has that class. *)
Record building (d0 d : DomStore) (kids : list nat) : Prop := {
  building_old : ∀ x, x < nextId d0 → node d x = node d0 x;
  building_container : node d (nextId d0) = Some (container_node None kids);
  building_next : nextId d0 < nextId d;
  building_new : ∀ x nd, nextId d0 < x → node d x = Some nd →
                         sel_class "moxfield-card-links" nd = false
}.

(** The same once the price link is in. *)
Record priced (d0 d : DomStore) (href text : string) (kids : list nat) : Prop := {
  priced_building : building d0 d (S (nextId d0) :: kids);
  priced_next : S (S (nextId d0)) < nextId d;
  priced_link : node d (S (nextId d0)) = Some (price_link_node (nextId d0) href);
  priced_label : node d (S (S (nextId d0))) = Some (label_node (nextId d0) text)
}.

(** Where the cluster ends up (lines 149-153), as a description of the
    store [d'] that results from the store [d] in which it was built. *)
Definition placed (d0 d d' : DomStore) (el : nat) (kids : list nat) : Prop :=
  match parentElement d0 el with
  | Some parent =>
      ∃ pn l1 l2,
        node d0 parent = Some pn ∧ childNodes pn = (l1 ++ el :: l2) ∧ (el ∉ l1) ∧
        ∀ x, node d' x =
             if decide (nextId d0 = x) then Some (container_node (Some parent) kids)
             else if decide (parent = x)
             then Some {| content := content pn; parentNode := parentNode pn;
                          childNodes := l1 ++ el :: nextId d0 :: l2 |}
             else node d x
  | None =>
      ∃ nd,
        node d0 el = Some nd ∧
        ∀ x, node d' x =
             if decide (nextId d0 = x) then Some (container_node (Some el) kids)
             else if decide (el = x)
             then Some {| content := content nd; parentNode := parentNode nd;
                          childNodes := childNodes nd ++ [nextId d0] |}
             else node d x
  end.

End DomAux.


Section CoordinatorAux.
Context {number : Type} `{!JSNumber number}.

(** One timer is pending: the one the observer set at [t]. *)
Record pending (w : Window number) (t : nat) (log : list nat) (pg : Page number) : Prop := {
  pending_observing : observing w = true;
  pending_now : now w = t;
  pending_timer : ∃ id, timers w = [{| timer_id := id; timer_due := (t + 300)%nat;
                                       timer_callback := CbProcessCards |}] ∧
                        observer_timeout w = Some id;
  pending_scans : scans w = log;
  pending_page : page w = pg
}.

(** Whether a scan of [pg] ends with a record queued for the observer: its
    microtasks change the child list of a watched node. *)
Definition feeds (pg : Page number) : bool :=
  childList_changed (page_dom (processCards pg)) (page_dom (scan pg)).

(** A result the annotator inserts links for (line 113). *)
Definition shown (v : Resolved number) : bool :=
  match result_price v with
  | Some p => num_truthy p
  | None => false
  end.

(** Nothing the page holds would be shown: no cached result has a price to
    show, and no call waits with one. *)
Definition nothing_to_show (pg : Page number) : Prop :=
  (∀ name r, priceCache (resolver pg) !! name = Some r → shown (RResult r) = false) ∧
  (∀ t v, t ∈ tasks pg → task_awaiting t = AwaitValue v → shown v = false).

End CoordinatorAux.

Local Open Scope list_scope.

(** ** Further auxiliary definitions *)

Module TextAux.
Import Str.

(** Every character of [s] passes the test [p]. *)
Fixpoint all_chars (p : ascii → bool) (s : string) : bool :=
  match s with
  | EmptyString => true
  | String c r => p c && all_chars p r
  end.

(** The last character of [s] is a hyphen. *)
Fixpoint ends_with_hyphen (s : string) : bool :=
  match s with
  | EmptyString => false
  | String c EmptyString => is_hyphen c
  | String _ r => ends_with_hyphen r
  end.

End TextAux.

(** Notification times in order, none exactly 300 after the one before. *)
Fixpoint apart (t : nat) (ts : list nat) : Prop :=
  match ts with
  | [] => True
  | t' :: r => (t ≤ t')%nat ∧ t' ≠ (t + 300)%nat ∧ apart t' r
  end.

(** The ends of the bursts of a sequence of notifications, as far as they
    are over at [T]: 300 after every notification that is not followed by
    another one within 300. *)
Fixpoint burst_ends (t : nat) (ts : list nat) (T : nat) : list nat :=
  match ts with
  | [] => if (t + 300 <=? T)%nat then [(t + 300)%nat] else []
  | t' :: r => (if (t + 300 <? t')%nat then [(t + 300)%nat] else []) ++ burst_ends t' r T
  end.

(** A page whose view mode control shows another mode, and a page without
    the control. *)
Module Sample2.
Local Open Scope string_scope.

Definition table_view : DomStore := {|
  nodes := list_to_map [
    (0, {| content := DocumentNode; parentNode := None; childNodes := [1] |});
    (1, Sample.element "BODY" [] None (Some 0) [2; 3]);
    (2, Sample.element "SELECT" [("id", "viewMode")] (Some "table") (Some 1) []);
    (3, Sample.element "IMG" [("class", "img-card"); ("alt", "Opt")] None (Some 1) [])
  ];
  document := 0;
  nextId := 4
|}.

Definition no_control : DomStore := {|
  nodes := list_to_map [
    (0, {| content := DocumentNode; parentNode := None; childNodes := [1] |});
    (1, Sample.element "BODY" [] None (Some 0) [2]);
    (2, Sample.element "IMG" [("class", "img-card"); ("alt", "Opt")] None (Some 1) [])
  ];
  document := 0;
  nextId := 3
|}.

Definition opt_cached : Resolver Decimal.t :=
  {| priceCache := {[ "Opt" := Sample.opt_result ]}; console := []; requests := [] |}.



End Sample2.

(** * Properties *)

(** ** The slug *)

Module SlugFacts.
Import Str Slug SlugAux.

Lemma lower_char_class (c : ascii) :
  is_alnum (lower_char c) = is_az09 (lower_char c).
Proof.
  destruct c as [[] [] [] [] [] [] [] []]; reflexivity.
Qed.

Lemma az09_not_hyphen (c : ascii) : is_az09 c = true → is_hyphen c = false.
Proof.
  destruct c as [[] [] [] [] [] [] [] []]; vm_compute; congruence.
Qed.

Lemma is_hyphen_eq (c : ascii) : is_hyphen c = true → c = "-"%char.
Proof. unfold is_hyphen. apply Ascii.eqb_eq. Qed.

(** The left-to-right scan of the regular expression computes the collapse
    of the specification; inside a run it has emitted the hyphen already. *)
Lemma replace_runs_collapse (s : string) :
  replace_runs false (toLowerCase s) = spec_collapse (toLowerCase s) ∧
  replace_runs true (toLowerCase s) = drop_hyphen (spec_collapse (toLowerCase s)).
Proof.
  induction s as [|c s [IHf IHt]]; [done|].
  cbn [toLowerCase replace_runs spec_collapse].
  rewrite lower_char_class.
  destruct (is_az09 (lower_char c)) eqn:Hc.
  - rewrite IHf. split; [done|].
    apply az09_not_hyphen in Hc.
    unfold drop_hyphen.
    destruct (lower_char c) as [[] [] [] [] [] [] [] []]; try done.
  - rewrite IHt.
    destruct (spec_collapse (toLowerCase s)) as [|a t] eqn:Hs; [done|].
    destruct a as [[] [] [] [] [] [] [] []]; done.
Qed.

Lemma spec_collapse_single (s : string) : single_hyphens (spec_collapse s) = true.
Proof.
  induction s as [|c s IH]; [done|].
  cbn [spec_collapse].
  destruct (is_alnum c) eqn:Hc.
  - cbn [single_hyphens].
    destruct (spec_collapse s) as [|b t]; [done|].
    rewrite IH.
    assert (is_hyphen c = false) as ->; [|done].
    destruct c as [[] [] [] [] [] [] [] []]; try done.
  - destruct (spec_collapse s) as [|b t] eqn:Hs; [done|].
    cbn [single_hyphens] in IH.
    destruct b as [[] [] [] [] [] [] [] []]; done.
Qed.

Lemma single_hyphens_tail (c : ascii) (s : string) :
  single_hyphens (String c s) = true → single_hyphens s = true.
Proof.
  cbn [single_hyphens]. destruct s; [done|].
  intros H. apply andb_true_iff in H. tauto.
Qed.

Lemma spec_trim_right_empty (s : string) :
  single_hyphens s = true → spec_trim_right s = EmptyString →
  s = EmptyString ∨ s = String "-" EmptyString.
Proof.
  destruct s as [|c s]; [by left|].
  intros Hs Ht. right.
  cbn [spec_trim_right] in Ht.
  destruct (spec_trim_right s) eqn:Hr; [|done].
  destruct (is_hyphen c) eqn:Hc; [|done].
  apply is_hyphen_eq in Hc. subst c.
  destruct s as [|b s]; [done|].
  cbn [spec_trim_right] in Hr.
  destruct (spec_trim_right s); [|done].
  destruct (is_hyphen b) eqn:Hb; [|done].
  cbn [single_hyphens] in Hs. rewrite Hb in Hs. done.
Qed.

Lemma replace_edges_trim_right (s : string) :
  single_hyphens s = true → replace_edges false s = spec_trim_right s.
Proof.
  induction s as [|c s IH]; [done|].
  intros Hs.
  specialize (IH (single_hyphens_tail _ _ Hs)).
  cbn [replace_edges spec_trim_right]. rewrite andb_false_l, orb_false_l, IH.
  destruct s as [|b s].
  - cbn. destruct (is_hyphen c); done.
  - replace (String.eqb (String b s) EmptyString) with false by done.
    rewrite andb_false_r.
    destruct (spec_trim_right (String b s)) eqn:Hr; [|done].
    apply spec_trim_right_empty in Hr; [|by eapply single_hyphens_tail].
    destruct Hr as [Hr|Hr]; [done|].
    injection Hr as -> ->.
    cbn [single_hyphens] in Hs.
    destruct (is_hyphen c); done.
Qed.

Lemma replace_edges_trim (s : string) :
  single_hyphens s = true →
  replace_edges true s = spec_trim_right (spec_trim_left s).
Proof.
  destruct s as [|c s]; [done|].
  intros Hs.
  cbn [replace_edges spec_trim_left]. rewrite andb_true_l.
  destruct (is_hyphen c) eqn:Hc.
  - rewrite orb_true_l.
    assert (spec_trim_left s = s) as ->.
    { destruct s as [|b s]; [done|].
      cbn [single_hyphens] in Hs. rewrite Hc in Hs.
      cbn [spec_trim_left]. destruct (is_hyphen b); done. }
    apply replace_edges_trim_right. by eapply single_hyphens_tail.
  - rewrite <- (replace_edges_trim_right (String c s) Hs).
    cbn [replace_edges]. rewrite Hc. done.
Qed.

Lemma slug_spec (name : string) : slug name = spec_slug name.
Proof.
  unfold slug, spec_slug.
  destruct (replace_runs_collapse name) as [-> _].
  apply replace_edges_trim, spec_collapse_single.
Qed.

End SlugFacts.

(** ** The scan over the printings *)

Section ScanFacts.
Context {number : Type} `{!JSNumber number}.

Lemma url_purchase_link (card : Card) :
  Str.or_else (pu ← purchase_uris card; tcgplayer pu) (Some (scryfall_uri card))
  = Some (purchase_link card).
Proof.
  unfold purchase_link, Str.or_else.
  destruct (purchase_uris card) as [[[u|]]|]; cbn; try done.
  destruct (Str.truthy u); done.
Qed.

Lemma consider_holds (st : Locals number) best v (u : string) :
  holds st best →
  holds (consider st (v, Some u))
    (match parseable v with Some p => pick best (p, u) | None => best end).
Proof.
  intros Hb. unfold consider, parseable.
  destruct v as [s|]; [|done].
  destruct (Str.truthy s); [|done]. cbn [andb].
  destruct (isNaN (parseFloat s)); [done|]. cbn [negb andb].
  destruct best as [[p0 u0]|]; cbn in Hb |- *; destruct Hb as [Hp Hu]; rewrite Hp.
  - destruct (num_lt (parseFloat s) p0); cbn; done.
  - done.
Qed.

Lemma consider_scryfallUrl (st : Locals number) e :
  scryfallUrl (consider st e) = scryfallUrl st.
Proof.
  unfold consider. destruct e as [[s|] u]; [|done].
  destruct (Str.truthy s); [|done].
  destruct (negb _ && _); done.
Qed.

Lemma fold_pick_omap best (u : string) (vs : list (option string)) :
  fold_left pick (omap (fun v => p ← parseable v; Some (p, u)) vs) best
  = fold_left (fun b v => match parseable v with Some p => pick b (p, u) | None => b end)
      vs best.
Proof.
  revert best. induction vs as [|v vs IH]; intros best; [done|].
  cbn. destruct (parseable v) as [p|]; cbn; apply IH.
Qed.

Lemma visit_holds (st : Locals number) best (card : Card) :
  holds st best → holds (visit st card) (fold_left pick (card_candidates card) best).
Proof.
  intros Hb. unfold visit, card_candidates, card_prices.
  rewrite url_purchase_link, fold_pick_omap.
  set (st1 := if negb _ then _ else st).
  assert (holds st1 best) as Hb1.
  { subst st1. destruct (negb _); [|done]. destruct best as [[? ?]|]; exact Hb. }
  clearbody st1.
  unfold facets. destruct (prices card) as [p|]; cbn [mbind option_bind fold_left].
  - by do 3 apply consider_holds.
  - by do 3 apply (consider_holds _ _ None).
Qed.

Lemma visit_scryfallUrl_kept (st : Locals number) (card : Card) :
  Str.truthy_opt (scryfallUrl st) = true →
  scryfallUrl (visit st card) = scryfallUrl st.
Proof.
  intros Hs. unfold visit. rewrite Hs. cbn [negb card_prices fold_left].
  by rewrite !consider_scryfallUrl.
Qed.

Lemma fold_visit_holds (cards : list Card) (st : Locals number) best :
  holds st best →
  holds (fold_left visit cards st) (fold_left pick (candidates cards) best).
Proof.
  revert st best. induction cards as [|card cards IH]; intros st best Hb; [done|].
  cbn [fold_left candidates flat_map]. rewrite fold_left_app.
  apply IH, visit_holds, Hb.
Qed.

Lemma scan_printings_holds (cards : list Card) :
  holds (scan_printings cards) (fold_left pick (candidates cards) None).
Proof. apply fold_visit_holds. done. Qed.

Lemma fold_visit_scryfallUrl_kept (cards : list Card) (st : Locals number) :
  Str.truthy_opt (scryfallUrl st) = true →
  scryfallUrl (fold_left visit cards st) = scryfallUrl st.
Proof.
  revert st. induction cards as [|card cards IH]; intros st Hs; [done|].
  cbn [fold_left]. rewrite IH; rewrite visit_scryfallUrl_kept; done.
Qed.

(** The catalog link is the reference URL of the first printing. *)
Lemma scan_printings_scryfallUrl (card : Card) (cards : list Card) :
  Str.truthy (scryfall_uri card) = true →
  scryfallUrl (scan_printings (card :: cards)) = Some (scryfall_uri card).
Proof.
  intros Hu. unfold scan_printings. cbn [fold_left].
  assert (scryfallUrl
            (visit {| cheapestPrice := None; cheapestUrl := None; scryfallUrl := None |} card)
          = Some (scryfall_uri card)) as Hv.
  { unfold visit. cbn [scryfallUrl Str.truthy_opt negb card_prices fold_left].
    by rewrite !consider_scryfallUrl. }
  rewrite fold_visit_scryfallUrl_kept; rewrite Hv; done.
Qed.

Lemma candidates_not_NaN (cards : list Card) (c : number * string) :
  c ∈ candidates cards → isNaN (fst c) = false.
Proof.
  unfold candidates. rewrite list_elem_of_In, in_flat_map.
  intros (card & _ & Hc). apply list_elem_of_In in Hc.
  unfold card_candidates in Hc. apply list_elem_of_omap in Hc as (v & _ & Hv).
  unfold parseable in Hv. destruct v as [s|]; [|done].
  destruct (Str.truthy s); [|done]. cbn in Hv.
  destruct (isNaN (parseFloat s)) eqn:Hn; [done|].
  cbn in Hv. by injection Hv as <-.
Qed.

Section Order.
Hypothesis Hasym : lt_asymmetric (number := number).
Hypothesis Hbelow : lt_below (number := number).

(** Scanning on from a first minimum of the prefix gives a first minimum of
    the whole list. *)
Lemma fold_pick_first_minimum (l pre : list (number * string)) i best :
  (∀ c, c ∈ pre ++ l → isNaN (fst c) = false) →
  first_minimum pre i best →
  ∃ i' best', fold_left pick l (Some best) = Some best' ∧
              first_minimum (pre ++ l) i' best'.
Proof.
  revert pre i best. induction l as [|c l IH]; intros pre i best Hnan Hmin.
  - exists i, best. by rewrite app_nil_r.
  - cbn [fold_left pick].
    replace (pre ++ c :: l) with ((pre ++ [c]) ++ l) in * by by rewrite <- app_assoc.
    destruct Hmin as (Hi & Hlow & Hfirst).
    destruct (num_lt (fst c) (fst best)) eqn:Hlt.
    + apply (IH (pre ++ [c]) (length pre) c); [done|].
      split; [|split].
      * rewrite lookup_app_r, Nat.sub_diag; done.
      * intros j c' Hj.
        destruct (decide (j < length pre)) as [Hjl|Hjl].
        -- rewrite lookup_app_l in Hj by done.
           apply Hasym. apply (Hbelow _ (fst best)); [|done|by eapply Hlow].
           apply Hnan. apply elem_of_app. left. apply elem_of_app. left.
           by eapply list_elem_of_lookup_2.
        -- rewrite lookup_app_r in Hj by lia.
           destruct (j - length pre) as [|k] eqn:Hk; [|by destruct k].
           injection Hj as <-.
           destruct (num_lt (fst c) (fst c)) eqn:Hcc; [|done].
           by rewrite (Hasym _ _ Hcc) in Hcc.
      * intros j c' Hjl Hj. rewrite lookup_app_l in Hj by done.
        apply (Hbelow _ (fst best)); [|done|by eapply Hlow].
        apply Hnan. apply elem_of_app. left. apply elem_of_app. left.
        by eapply list_elem_of_lookup_2.
    + apply (IH (pre ++ [c]) i best); [done|].
      assert (i < length pre) as Hil by by eapply lookup_lt_Some.
      split; [|split].
      * by rewrite lookup_app_l.
      * intros j c' Hj.
        destruct (decide (j < length pre)) as [Hjl|Hjl].
        -- rewrite lookup_app_l in Hj by done. by eapply Hlow.
        -- rewrite lookup_app_r in Hj by lia.
           destruct (j - length pre) as [|k] eqn:Hk; [|by destruct k].
           by injection Hj as <-.
      * intros j c' Hji Hj. rewrite lookup_app_l in Hj by lia. by eapply Hfirst.
Qed.

Lemma fold_pick_nonempty (c : number * string) (l : list (number * string)) :
  (∀ c', c' ∈ c :: l → isNaN (fst c') = false) →
  ∃ i best, fold_left pick (c :: l) None = Some best ∧
            first_minimum (c :: l) i best.
Proof.
  intros Hnan. cbn [fold_left pick].
  apply (fold_pick_first_minimum l [c] 0 c); [done|].
  split; [done|]. split.
  - intros [|[|j]] c' Hj; try done. injection Hj as <-.
    destruct (num_lt (fst c) (fst c)) eqn:Hcc; [|done].
    by rewrite (Hasym _ _ Hcc) in Hcc.
  - intros j c' Hj. lia.
Qed.

End Order.
End ScanFacts.

(** ** The resolver *)

Section ResolverFacts.
Context {number : Type} `{!JSNumber number}.

Lemma with_cache_same (st : Resolver number) : with_cache st (priceCache st) = st.
Proof. by destruct st. Qed.

Lemma settle_printings cardName status card cards (st : Resolver number) :
  getCardPrice_settle cardName
    (FetchResponse true status (Parsed (Some (card :: cards)))) st
  = (RResult (assemble cardName (card :: cards)),
     with_cache st (<[cardName := assemble cardName (card :: cards)]> (priceCache st))).
Proof. reflexivity. Qed.

Lemma settle_empty cardName status data (st : Resolver number) :
  data = None ∨ data = Some [] →
  getCardPrice_settle cardName (FetchResponse true status (Parsed data)) st
  = (RNull, st).
Proof. intros [-> | ->]; unfold getCardPrice_settle; cbn; by destruct st. Qed.

Lemma settle_failure cardName o e (st : Resolver number) :
  transport_failure o = Some e →
  getCardPrice_settle cardName o st
  = (RNull, with_log st {| log_message := error_message cardName; log_error := e |}).
Proof.
  destruct o as [e'|[] status body]; cbn; [|done|]; by intros [= <-].
Qed.

Lemma settle_invalid_json cardName status e (st : Resolver number) :
  getCardPrice_settle cardName (FetchResponse true status (InvalidJson e)) st
  = (RNull, with_log st {| log_message := error_message cardName; log_error := e |}).
Proof. reflexivity. Qed.

(** Whatever the request settles to, a result object comes from a response
    with printings and is the one assembled from them. *)
Lemma settle_result cardName o (st st' : Resolver number) r :
  getCardPrice_settle cardName o st = (RResult r, st') →
  ∃ status card cards,
    o = FetchResponse true status (Parsed (Some (card :: cards))) ∧
    r = assemble cardName (card :: cards) ∧
    st' = with_cache st (<[cardName := r]> (priceCache st)).
Proof.
  destruct o as [e|[] status [e|[[|card cards]|]]]; try done.
  rewrite settle_printings. intros [= <- <-]. by exists status, card, cards.
Qed.

Lemma lookup_miss (cache : gmap string (PriceResult.t number)) cardName :
  cache_get cache cardName = None →
  getCardPrice_lookup cache cardName = Miss (searchUrl cardName).
Proof. unfold getCardPrice_lookup. by intros ->. Qed.

Lemma lookup_hit (cache : gmap string (PriceResult.t number)) cardName r :
  cache !! cardName = Some r →
  getCardPrice_lookup cache cardName = Hit (RResult r).
Proof. unfold getCardPrice_lookup, cache_get. by intros ->. Qed.

Lemma assemble_together cardName cards :
  PriceResult.price (assemble cardName cards) = None ↔
  PriceResult.purchaseUrl (assemble cardName cards) = None.
Proof.
  pose proof (scan_printings_holds cards) as Hh.
  unfold assemble. cbn.
  destruct (fold_left pick (candidates cards) None) as [[p u]|];
    cbn in Hh; destruct Hh as [-> ->]; done.
Qed.

End ResolverFacts.

(** ** The laws of [<] on exact decimals *)

Module DecimalFacts.
Import Decimal.
Local Open Scope Q_scope.

Lemma compare_lt_asym (p q : Q) : (p ?= q) = Lt → (q ?= p) ≠ Lt.
Proof.
  intros Hpq Hqp. apply Qlt_alt in Hpq, Hqp.
  exact (Qlt_irrefl p (Qlt_trans _ _ _ Hpq Hqp)).
Qed.

Ltac split_bools :=
  repeat match goal with b : bool |- _ => destruct b end.

Lemma lt_asym : lt_asymmetric (number := Decimal.t).
Proof.
  intros [|a|p] [|b|q]; cbn -[Qcompare]; split_bools; try done.
  destruct (p ?= q) eqn:Hpq; try done. intros _.
  destruct (q ?= p) eqn:Hqp; try done.
  by apply compare_lt_asym in Hpq.
Qed.

Lemma lt_chain : lt_below (number := Decimal.t).
Proof.
  intros [|a|p] [|b|q] [|c|r]; cbn -[Qcompare]; split_bools; try done.
  intros _. destruct (p ?= q) eqn:Hpq; try done. intros _.
  destruct (r ?= q) eqn:Hrq; try done; intros _.
  - apply Qlt_alt in Hpq. apply Qeq_alt in Hrq.
    destruct (p ?= r) eqn:Hpr; try done.
    + apply Qeq_alt in Hpr. rewrite Hpr, Hrq in Hpq. by apply Qlt_irrefl in Hpq.
    + apply Qgt_alt in Hpr. rewrite Hrq in Hpr.
      exfalso. exact (Qlt_irrefl p (Qlt_trans _ _ _ Hpq Hpr)).
  - apply Qlt_alt in Hpq. apply Qgt_alt in Hrq.
    pose proof (Qlt_trans _ _ _ Hpq Hrq) as Hpr.
    destruct (p ?= r) eqn:Hc; try done; exfalso.
    + apply Qeq_alt in Hc. rewrite Hc in Hpr. by apply Qlt_irrefl in Hpr.
    + apply Qgt_alt in Hc. exact (Qlt_irrefl p (Qlt_trans _ _ _ Hpr Hc)).
Qed.

End DecimalFacts.

(** ** The store of nodes *)

Module DomFacts.
Import DOM DomAux.

Lemma node_set_node d n nd x :
  node (set_node d n nd) x = if decide (n = x) then Some nd else node d x.
Proof. unfold node, set_node. cbn. apply lookup_insert. Qed.

Lemma node_set_parent d n p x :
  node (set_parent d n p) x =
  if decide (n = x)
  then (fun nd => {| content := content nd; parentNode := p;
                     childNodes := childNodes nd |}) <$> node d n
  else node d x.
Proof.
  unfold set_parent. destruct (node d n) as [nd|] eqn:Hn.
  - rewrite node_set_node. by case_decide.
  - case_decide; [by subst|done].
Qed.

Lemma node_set_children d n l x :
  node (set_children d n l) x =
  if decide (n = x)
  then (fun nd => {| content := content nd; parentNode := parentNode nd;
                     childNodes := l |}) <$> node d n
  else node d x.
Proof.
  unfold set_children. destruct (node d n) as [nd|] eqn:Hn.
  - rewrite node_set_node. by case_decide.
  - case_decide; [by subst|done].
Qed.

Lemma node_setAttribute d n k v x :
  node (setAttribute d n k v) x =
  if decide (n = x) then with_attribute k v <$> node d n else node d x.
Proof.
  unfold setAttribute, with_attribute.
  destruct (node d n) as [nd|] eqn:Hn.
  - destruct (content nd) eqn:Hc.
    + case_decide; [subst; rewrite Hn; cbn; by rewrite Hc|done].
    + rewrite node_set_node. case_decide; [|done]. cbn. by rewrite Hc.
    + case_decide; [subst; rewrite Hn; cbn; by rewrite Hc|done].
  - case_decide; [by subst|done].
Qed.

Lemma node_fresh_node c d x :
  node (snd (fresh_node c d)) x =
  if decide (nextId d = x)
  then Some {| content := c; parentNode := None; childNodes := [] |}
  else node d x.
Proof. unfold node, fresh_node. cbn. apply lookup_insert. Qed.

Lemma nextId_set_node d n nd : nextId (set_node d n nd) = nextId d.
Proof. done. Qed.

Lemma nextId_set_parent d n p : nextId (set_parent d n p) = nextId d.
Proof. unfold set_parent. by destruct (node d n). Qed.

Lemma nextId_set_children d n l : nextId (set_children d n l) = nextId d.
Proof. unfold set_children. by destruct (node d n). Qed.

Lemma nextId_setAttribute d n k v : nextId (setAttribute d n k v) = nextId d.
Proof.
  unfold setAttribute. destruct (node d n) as [nd|]; [|done].
  by destruct (content nd).
Qed.

Lemma document_setAttribute d n k v : document (setAttribute d n k v) = document d.
Proof.
  unfold setAttribute. destruct (node d n) as [nd|]; [|done].
  by destruct (content nd).
Qed.

Lemma detach_orphan d n :
  (nd ← node d n; parentNode nd) = None → detach d n = d.
Proof. unfold detach. by intros ->. Qed.

(** Appending a node that has no parent. *)
Lemma node_appendChild_orphan d parent child pn cn x :
  parent ≠ child →
  node d parent = Some pn →
  node d child = Some cn →
  parentNode cn = None →
  node (appendChild d parent child) x =
  if decide (child = x)
  then Some {| content := content cn; parentNode := Some parent;
               childNodes := childNodes cn |}
  else if decide (parent = x)
  then Some {| content := content pn; parentNode := parentNode pn;
               childNodes := childNodes pn ++ [child] |}
  else node d x.
Proof.
  intros Hne Hp Hc Ho. unfold appendChild.
  rewrite detach_orphan by (rewrite Hc; done).
  rewrite Hp, node_set_parent, !node_set_children, Hp, Hc.
  repeat case_decide; subst; done.
Qed.

Lemma nextId_appendChild_orphan d parent child cn :
  node d child = Some cn → parentNode cn = None →
  nextId (appendChild d parent child) = nextId d.
Proof.
  intros Hc Ho. unfold appendChild.
  rewrite detach_orphan by (rewrite Hc; done).
  destruct (node d parent); [|done].
  by rewrite nextId_set_parent, nextId_set_children.
Qed.

(** Inserting before a node that occurs once puts the new node right in
    front of it. *)
Lemma insert_before_app new ref l1 l2 :
  ref ∉ l1 →
  insert_before new ref (l1 ++ ref :: l2) = Some (l1 ++ new :: ref :: l2).
Proof.
  induction l1 as [|x l1 IH]; intros Hn; cbn.
  - by rewrite Nat.eqb_refl.
  - apply not_elem_of_cons in Hn as [Hx Hn].
    destruct (Nat.eqb_spec x ref); [congruence|].
    by rewrite IH.
Qed.

Lemma after_app n l1 l2 : n ∉ l1 → after n (l1 ++ n :: l2) = head l2.
Proof.
  induction l1 as [|x l1 IH]; intros Hn; cbn.
  - by rewrite Nat.eqb_refl.
  - apply not_elem_of_cons in Hn as [Hx Hn].
    destruct (Nat.eqb_spec x n); [congruence|]. by apply IH.
Qed.

(** The attribute read back after it is set. *)
Lemma getAttribute_setAttribute d n k v :
  is_Some (tagName d n) → getAttribute (setAttribute d n k v) n k = Some v.
Proof.
  unfold tagName, getAttribute. rewrite node_setAttribute.
  destruct (decide (n = n)); [|done].
  destruct (node d n) as [nd|]; cbn; [|by intros [? ?]].
  unfold with_attribute, node_attribute.
  destruct (content nd); cbn; try by intros [? ?].
  intros _. apply lookup_insert_eq.
Qed.

(** An element that carries the attribute [data-price-added] is not
    selected by a scan. *)
Lemma marked_not_selected d n el :
  is_Some (getAttribute d el "data-price-added") →
  el ∉ querySelectorAll sel_card d n.
Proof.
  intros Hm Hin. unfold querySelectorAll in Hin.
  apply list_elem_of_In, filter_In in Hin as [_ Hsel].
  unfold getAttribute in Hm.
  destruct (node d el) as [nd|]; [|done]. cbn in Hm.
  unfold sel_card, sel_has_attr in Hsel.
  rewrite bool_decide_true in Hsel by done.
  by rewrite andb_false_r, andb_false_r in Hsel.
Qed.

Lemma document_set_parent d n p : document (set_parent d n p) = document d.
Proof. unfold set_parent. by destruct (node d n). Qed.

Lemma document_set_children d n l : document (set_children d n l) = document d.
Proof. unfold set_children. by destruct (node d n). Qed.

Lemma node_set_textContent d a an text x :
  node d a = Some an → childNodes an = [] → a ≠ nextId d →
  node (set_textContent d a text) x =
  if decide (nextId d = x)
  then Some {| content := TextNode text; parentNode := Some a; childNodes := [] |}
  else if decide (a = x)
  then Some {| content := content an; parentNode := parentNode an;
               childNodes := [nextId d] |}
  else node d x.
Proof.
  intros Ha Hk Hne. unfold set_textContent. rewrite Ha, Hk. cbn [fold_left].
  destruct (fresh_node (TextNode text) (set_children d a [])) as [t d2] eqn:Hf.
  assert (t = nextId d) as ->.
  { apply (f_equal fst) in Hf. cbn in Hf. by rewrite nextId_set_children in Hf. }
  assert (d2 = snd (fresh_node (TextNode text) (set_children d a []))) as -> by by rewrite Hf.
  rewrite (node_appendChild_orphan _ a (nextId d)
             {| content := content an; parentNode := parentNode an; childNodes := [] |}
             {| content := TextNode text; parentNode := None; childNodes := [] |});
    [| done | | | done ].
  - repeat case_decide; try done.
    rewrite node_fresh_node, nextId_set_children. case_decide; [done|].
    rewrite node_set_children. by case_decide.
  - rewrite node_fresh_node, nextId_set_children. case_decide; [done|].
    rewrite node_set_children. case_decide; [|done]. by rewrite Ha.
  - rewrite node_fresh_node, nextId_set_children. by case_decide.
Qed.

Lemma nextId_set_textContent d a an text :
  node d a = Some an → childNodes an = [] →
  nextId (set_textContent d a text) = S (nextId d).
Proof.
  intros Ha Hk. unfold set_textContent. rewrite Ha, Hk. cbn [fold_left].
  unfold fresh_node.
  erewrite nextId_appendChild_orphan; cbn.
  - by rewrite nextId_set_children.
  - unfold node. cbn. apply lookup_insert_eq.
  - done.
Qed.

Section Links.
Context {number : Type} `{!JSNumber number}.

Lemma node_append_link container cn href cls text d x :
  node d container = Some cn → container < nextId d →
  node (append_link container href cls text d) x =
  if decide (nextId d = x)
  then Some {| content := ElementNode "A" (link_attributes href cls) None;
               parentNode := Some container; childNodes := [S (nextId d)] |}
  else if decide (container = x)
  then Some {| content := content cn; parentNode := parentNode cn;
               childNodes := childNodes cn ++ [nextId d] |}
  else if decide (S (nextId d) = x)
  then Some {| content := TextNode text; parentNode := Some (nextId d); childNodes := [] |}
  else node d x.
Proof.
  intros Hc Hlt. unfold append_link, createElement.
  destruct (fresh_node (ElementNode "A" ∅ None) d) as [a d1] eqn:Hf.
  assert (a = nextId d) as -> by (by apply (f_equal fst) in Hf).
  assert (d1 = snd (fresh_node (ElementNode "A" ∅ None) d)) as Hd1 by (by rewrite Hf).
  clear Hf.
  set (d5 := setAttribute _ _ "class" cls).
  assert (∀ y, node d5 y = if decide (nextId d = y)
            then Some {| content := ElementNode "A" (link_attributes href cls) None;
                         parentNode := None; childNodes := [] |}
            else node d y) as H5.
  { intros y. subst d5 d1. rewrite !node_setAttribute, !node_fresh_node.
    unfold link_attributes.
    repeat case_decide; done. }
  assert (nextId d5 = S (nextId d)) as Hn5.
  { subst d5 d1. by rewrite !nextId_setAttribute. }
  clearbody d5.
  assert (node d5 (nextId d) = Some {| content := ElementNode "A" (link_attributes href cls) None;
                         parentNode := None; childNodes := [] |}) as Ha5.
  { rewrite H5. by case_decide. }
  pose proof (λ y, node_set_textContent d5 (nextId d) _ text y Ha5 eq_refl) as H6.
  rewrite Hn5 in H6.
  set (d6 := set_textContent d5 (nextId d) text) in *.
  rewrite (node_appendChild_orphan d6 container (nextId d)
    {| content := content cn; parentNode := parentNode cn; childNodes := childNodes cn |}
    {| content := ElementNode "A" (link_attributes href cls) None;
       parentNode := None; childNodes := [S (nextId d)] |}); [| lia | | | done].
  - cbn. repeat case_decide; try lia; try done.
    + rewrite H6 by lia. repeat case_decide; try lia; done.
    + rewrite H6 by lia. repeat case_decide; try lia. rewrite H5. by case_decide.
  - rewrite H6 by lia. repeat case_decide; try lia. rewrite H5. case_decide; [lia|].
    rewrite Hc. by destruct cn.
  - rewrite H6 by lia. repeat case_decide; try lia. done.
Qed.

Lemma nextId_append_link container cn href cls text d :
  node d container = Some cn → container < nextId d →
  nextId (append_link container href cls text d) = S (S (nextId d)).
Proof.
  intros Hc Hlt. unfold append_link, createElement.
  destruct (fresh_node (ElementNode "A" ∅ None) d) as [a d1] eqn:Hf.
  assert (a = nextId d) as -> by (by apply (f_equal fst) in Hf).
  assert (d1 = snd (fresh_node (ElementNode "A" ∅ None) d)) as Hd1 by (by rewrite Hf).
  clear Hf.
  set (d5 := setAttribute _ _ "class" cls).
  assert (node d5 (nextId d) = Some {| content := ElementNode "A" (link_attributes href cls) None;
                         parentNode := None; childNodes := [] |}) as Ha5.
  { subst d5 d1. rewrite !node_setAttribute, !node_fresh_node.
    unfold link_attributes. repeat case_decide; done. }
  assert (nextId d5 = S (nextId d)) as Hn5.
  { subst d5 d1. by rewrite !nextId_setAttribute. }
  clearbody d5.
  pose proof (node_set_textContent d5 (nextId d) _ text (nextId d) Ha5 eq_refl) as H6.
  rewrite Hn5 in H6. specialize (H6 ltac:(lia)).
  destruct (decide (S (nextId d) = nextId d)); [lia|].
  destruct (decide (nextId d = nextId d)); [|done].
  erewrite nextId_appendChild_orphan; [|exact H6|done].
  erewrite nextId_set_textContent; [|exact Ha5|done]. by rewrite Hn5.
Qed.

Lemma building_append_link d0 d kids href cls text :
  building d0 d kids →
  bool_decide ("moxfield-card-links"%string ∈ Str.tokens cls) = false →
  building d0 (append_link (nextId d0) href cls text d) (kids ++ [nextId d]) ∧
  nextId (append_link (nextId d0) href cls text d) = S (S (nextId d)) ∧
  ∀ x, x ≠ nextId d0 → x < nextId d →
       node (append_link (nextId d0) href cls text d) x = node d x.
Proof.
  intros [Hold Hc Hn Hnew] Hcls.
  pose proof (λ x, node_append_link _ _ href cls text d x Hc Hn) as Hnode.
  split; [split|split].
  - intros x Hx. rewrite Hnode. repeat case_decide; try lia; by apply Hold.
  - rewrite Hnode. repeat case_decide; try lia; done.
  - erewrite nextId_append_link; [lia|done..].
  - intros x nd Hx. rewrite Hnode.
    apply bool_decide_eq_false in Hcls.
    repeat case_decide; try lia; try (by apply Hnew); intros [= <-]; try done.
    all: unfold sel_class, node_attribute; cbn.
    all: unfold link_attributes; rewrite lookup_insert_eq.
    all: by apply bool_decide_eq_false.
  - by eapply nextId_append_link.
  - intros x Hx Hlt. rewrite Hnode. repeat case_decide; try lia; done.
Qed.

Lemma building_start d el :
  well_formed_at d el →
  building d
    (setAttribute (snd (createElement "DIV" d)) (nextId d) "class" "moxfield-card-links") [] ∧
  nextId (setAttribute (snd (createElement "DIV" d)) (nextId d) "class" "moxfield-card-links")
  = S (nextId d).
Proof.
  intros [Hfresh _ _]. unfold createElement.
  split; [split|].
  - intros x Hx. rewrite node_setAttribute, !node_fresh_node.
    repeat case_decide; try lia; done.
  - rewrite node_setAttribute, !node_fresh_node. repeat case_decide; done.
  - rewrite nextId_setAttribute. cbn. lia.
  - intros x nd Hx. rewrite node_setAttribute, !node_fresh_node.
    repeat case_decide; try lia. intros Hn.
    assert (x < nextId d) by (apply Hfresh; by rewrite Hn). lia.
  - by rewrite nextId_setAttribute.
Qed.

Lemma priced_append_link d0 d href text kids href' cls text' :
  priced d0 d href text kids →
  bool_decide ("moxfield-card-links"%string ∈ Str.tokens cls) = false →
  priced d0 (append_link (nextId d0) href' cls text' d) href text (kids ++ [nextId d]).
Proof.
  intros [Hb Hn Hl Ht] Hcls.
  destruct (building_append_link _ _ _ href' cls text' Hb Hcls) as (Hb' & Hn' & Hsame).
  split.
  - exact Hb'.
  - lia.
  - rewrite Hsame by lia. done.
  - rewrite Hsame by lia. done.
Qed.

Lemma place_cluster d0 d kids el :
  building d0 d kids → well_formed_at d0 el →
  placed d0 d
    (match parentElement d el with
     | Some parent => insertBefore d parent (nextId d0) (nextSibling d el)
     | None => appendChild d el (nextId d0)
     end) el kids.
Proof.
  intros [Hold Hc Hn Hnew] [Hfresh [nd Hel] Hpar].
  assert (el < nextId d0) as Hlt by (apply Hfresh; by rewrite Hel).
  assert (node d el = Some nd) as Hel' by (by rewrite Hold).
  specialize (Hpar nd).
  unfold placed, parentElement, nextSibling. rewrite Hel, Hel'. cbn [mbind option_bind].
  destruct (parentNode nd) as [q|] eqn:Hq; cbn [mbind option_bind].
  - destruct (Hpar q Hel eq_refl) as (qn & Hqn & Hnd & Hin).
    assert (q < nextId d0) as Hqlt by (apply Hfresh; by rewrite Hqn).
    assert (node d q = Some qn) as Hqn' by (by rewrite Hold).
    rewrite Hqn, Hqn'. cbn [mbind option_bind].
    destruct (is_element qn).
    + apply list_elem_of_split_l in Hin as (l1 & l2 & Hl & Hl1).
      exists qn, l1, l2. split; [done|]. split; [done|]. split; [done|].
      intros x. rewrite Hl, after_app by done.
      destruct l2 as [|r l2]; cbn [head insertBefore].
      * rewrite (node_appendChild_orphan d q (nextId d0) qn (container_node None kids));
          [|lia|done..].
        rewrite Hl, <- app_assoc. done.
      * rewrite Hqn'. rewrite bool_decide_true.
        2:{ rewrite Hl. apply elem_of_app. right. apply elem_of_cons. right.
            apply elem_of_cons. by left. }
        rewrite detach_orphan by (by rewrite Hc).
        rewrite Hqn', Hl.
        replace (l1 ++ el :: r :: l2) with ((l1 ++ [el]) ++ r :: l2)
          by (by rewrite <- app_assoc).
        rewrite insert_before_app.
        2:{ rewrite Hl in Hnd.
            apply NoDup_app in Hnd as (_ & Hd1 & Hd2).
            apply NoDup_cons in Hd2 as [Hd2 _].
            intros [Hr|Hr]%elem_of_app.
            - apply (Hd1 r Hr). apply elem_of_cons. right. apply elem_of_cons. by left.
            - apply list_elem_of_singleton in Hr. subst r.
              apply Hd2. apply elem_of_cons. by left. }
        rewrite node_set_parent, !node_set_children, Hqn'.
        rewrite <- app_assoc. cbn.
        repeat case_decide; try lia; try done.
        by rewrite Hc.
    + exists nd. split; [done|]. intros x.
      rewrite (node_appendChild_orphan d el (nextId d0) nd (container_node None kids));
        [done|lia|done..].
  - exists nd. split; [done|]. intros x.
    rewrite (node_appendChild_orphan d el (nextId d0) nd (container_node None kids));
      [done|lia|done..].
Qed.

Lemma insert_links_spec el (r : PriceResult.t number) p d :
  well_formed_at d el →
  ∃ kids d5,
    fst (insert_links el r p d) = nextId d ∧
    priced d d5 (default "null"%string (PriceResult.purchaseUrl r)) (price_label p) kids ∧
    placed d d5 (snd (insert_links el r p d)) el (S (nextId d) :: kids).
Proof.
  intros Hwf. unfold insert_links.
  destruct (createElement "DIV" d) as [c d1] eqn:Hf.
  assert (c = nextId d) as -> by (by apply (f_equal fst) in Hf).
  assert (d1 = snd (createElement "DIV" d)) as -> by (by rewrite Hf).
  clear Hf.
  destruct (building_start d el Hwf) as [Hb2 Hn2].
  set (d2 := setAttribute _ _ "class" "moxfield-card-links") in *.
  set (href := default "null"%string (PriceResult.purchaseUrl r)).
  set (d3 := append_link (nextId d) href "moxfield-card-price" (price_label p) d2).
  assert (priced d d3 href (price_label p) []) as H3.
  { destruct (building_append_link d d2 [] href "moxfield-card-price" (price_label p) Hb2)
      as (Hb3 & Hn3 & _); [done|].
    pose proof (λ x, node_append_link _ _ href "moxfield-card-price" (price_label p) d2 x
                       (building_container _ _ _ Hb2) (building_next _ _ _ Hb2)) as Hnode.
    fold d3 in Hb3, Hn3, Hnode.
    rewrite Hn2 in Hb3, Hn3, Hnode.
    split.
    - exact Hb3.
    - lia.
    - rewrite Hnode. by case_decide.
    - rewrite Hnode. repeat case_decide; try lia; done. }
  clearbody d3. clear Hb2 Hn2 d2.
  set (d4 := match PriceResult.scryfallUrl r with Some u => _ | None => d3 end).
  assert (∃ kids, priced d d4 href (price_label p) kids) as [kids4 H4].
  { subst d4. destruct (PriceResult.scryfallUrl r) as [u|]; [|by eexists].
    destruct (Str.truthy u); [|by eexists].
    eexists. by apply priced_append_link. }
  clearbody d4. clear H3 d3.
  set (d5 := if Str.truthy (PriceResult.edhrecUrl r) then _ else d4).
  assert (∃ kids, priced d d5 href (price_label p) kids) as [kids5 H5].
  { subst d5. destruct (Str.truthy _); [|by eexists].
    eexists. by apply priced_append_link. }
  clearbody d5. clear H4 d4.
  exists kids5, d5.
  pose proof (place_cluster d d5 _ el (priced_building _ _ _ _ _ H5) Hwf) as Hplace.
  destruct (parentElement d5 el); done.
Qed.
End Links.

(** *** Setting an attribute that a query does not read *)

Section Unread.
Variables (d : DomStore) (el : nat) (k v : string).

Let d' := setAttribute d el k v.

Lemma unread_node {A} (f : Node → A) x :
  (∀ nd, f (with_attribute k v nd) = f nd) →
  f <$> node d' x = f <$> node d x.
Proof.
  intros Hf. subst d'. rewrite node_setAttribute.
  case_decide; [subst x|done].
  destruct (node d el); cbn; by rewrite ?Hf.
Qed.

Lemma with_attribute_childNodes nd : childNodes (with_attribute k v nd) = childNodes nd.
Proof. unfold with_attribute. by destruct (content nd). Qed.

Lemma with_attribute_parentNode nd : parentNode (with_attribute k v nd) = parentNode nd.
Proof. unfold with_attribute. destruct (content nd); reflexivity. Qed.

Lemma with_attribute_is_element nd : is_element (with_attribute k v nd) = is_element nd.
Proof.
  unfold with_attribute, is_element.
  destruct (content nd) eqn:Hc; cbn; by rewrite ?Hc.
Qed.

Lemma with_attribute_other nd j :
  j ≠ k → node_attribute (with_attribute k v nd) j = node_attribute nd j.
Proof.
  intros Hj. unfold with_attribute, node_attribute.
  destruct (content nd) eqn:Hc; cbn; rewrite ?Hc; try done. by rewrite lookup_insert_ne.
Qed.

Lemma unread_size : size (nodes d') = size (nodes d).
Proof.
  subst d'. unfold setAttribute.
  destruct (node d el) as [nd|] eqn:Hn; [|done].
  destruct (content nd); try done.
  cbn. apply map_size_insert_Some. unfold node in Hn. by rewrite Hn.
Qed.

Lemma unread_document : document d' = document d.
Proof. apply document_setAttribute. Qed.

Lemma unread_descendants_upto fuel n :
  descendants_upto fuel d' n = descendants_upto fuel d n.
Proof.
  revert n. induction fuel as [|fuel IH]; intros n; [done|].
  cbn [descendants_upto].
  pose proof (unread_node childNodes n with_attribute_childNodes) as Hn.
  destruct (node d' n) as [nd'|], (node d n) as [nd|]; cbn in Hn; try done.
  injection Hn as ->.
  apply flat_map_ext. intros c. by rewrite IH.
Qed.

Lemma unread_descendants n : descendants d' n = descendants d n.
Proof. unfold descendants. by rewrite unread_size, unread_descendants_upto. Qed.

Lemma unread_bind {A} (f : Node → option A) x :
  (∀ nd, f (with_attribute k v nd) = f nd) →
  node d' x ≫= f = node d x ≫= f.
Proof.
  intros Hf. subst d'. rewrite node_setAttribute.
  case_decide; [subst x|done].
  destruct (node d el); cbn; by rewrite ?Hf.
Qed.

Lemma unread_tagName n : tagName d' n = tagName d n.
Proof.
  apply unread_bind. intros nd. unfold with_attribute.
  destruct (content nd) eqn:Hc; cbn; by rewrite ?Hc.
Qed.

Lemma unread_getAttribute n j : j ≠ k → getAttribute d' n j = getAttribute d n j.
Proof. intros Hj. apply unread_bind. intros nd. by apply with_attribute_other. Qed.

Lemma unread_reflected n j : j ≠ k → reflected d' n j = reflected d n j.
Proof. intros Hj. unfold reflected. by rewrite unread_getAttribute. Qed.

Lemma unread_is_element n :
  is_element <$> node d' n = is_element <$> node d n.
Proof. apply unread_node, with_attribute_is_element. Qed.

Lemma unread_parentElement n : parentElement d' n = parentElement d n.
Proof.
  unfold parentElement.
  pose proof (unread_node parentNode n with_attribute_parentNode) as Hn.
  destruct (node d' n) as [nd'|], (node d n) as [nd|]; cbn in Hn |- *; try done.
  injection Hn as ->.
  destruct (parentNode nd) as [p|]; cbn; [|done].
  pose proof (unread_is_element p) as Hp.
  destruct (node d' p) as [pn'|], (node d p) as [pn|]; cbn in Hp |- *; try done.
  by injection Hp as ->.
Qed.

Lemma unread_cases n :
  (node d' n = None ∧ node d n = None) ∨
  ∃ nd, node d n = Some nd ∧
        (node d' n = Some nd ∨ node d' n = Some (with_attribute k v nd)).
Proof.
  subst d'. rewrite node_setAttribute.
  case_decide; [subst n|]; destruct (node d _) as [nd|]; cbn; eauto.
Qed.

Lemma unread_textContent_upto fuel n :
  textContent_upto fuel d' n = textContent_upto fuel d n.
Proof.
  revert n. induction fuel as [|fuel IH]; intros n; [done|].
  cbn [textContent_upto].
  assert (∀ l, map (textContent_upto fuel d') l = map (textContent_upto fuel d) l) as Hm.
  { intros l. apply map_ext. intros c. apply IH. }
  destruct (unread_cases n) as [[-> ->]|(nd & -> & [->| ->])]; [done| |].
  - by rewrite Hm.
  - unfold with_attribute. destruct (content nd) eqn:Hc; cbn; rewrite ?Hc, ?Hm; done.
Qed.

Lemma unread_textContent n : textContent d' n = textContent d n.
Proof. unfold textContent. by rewrite unread_size, unread_textContent_upto. Qed.

Lemma unread_querySelectorAll (sel : Node → bool) n :
  (∀ nd, sel (with_attribute k v nd) = sel nd) →
  querySelectorAll sel d' n = querySelectorAll sel d n.
Proof.
  intros Hsel. unfold querySelectorAll. rewrite unread_descendants.
  apply filter_ext. intros x.
  destruct (unread_cases x) as [[-> ->]|(nd & -> & [->| ->])]; [done..|].
  by rewrite with_attribute_is_element, Hsel.
Qed.

Lemma unread_querySelector (sel : Node → bool) n :
  (∀ nd, sel (with_attribute k v nd) = sel nd) →
  querySelector sel d' n = querySelector sel d n.
Proof. intros Hsel. unfold querySelector. by rewrite unread_querySelectorAll. Qed.
End Unread.

Section Unmarked.

Lemma sel_tag_unread k v t nd : sel_tag t (with_attribute k v nd) = sel_tag t nd.
Proof.
  unfold sel_tag, with_attribute. destruct (content nd) eqn:Hc; cbn; by rewrite ?Hc.
Qed.

Lemma sel_attr_contains_unread k v j s nd :
  j ≠ k → sel_attr_contains j s (with_attribute k v nd) = sel_attr_contains j s nd.
Proof. intros Hj. unfold sel_attr_contains. by rewrite with_attribute_other. Qed.

(** The name of a card does not depend on its processed marker. *)
Lemma getCardName_marked d el v x :
  getCardName (setAttribute d el "data-price-added" v) x = getCardName d x.
Proof.
  unfold getCardName, image_name, sel_name.
  rewrite unread_tagName, !unread_reflected, unread_getAttribute by done.
  rewrite !unread_querySelector, unread_parentElement.
  2:{ intros nd. by rewrite !sel_attr_contains_unread. }
  2:{ intros nd. apply sel_tag_unread. }
  destruct (querySelector (sel_tag "IMG") d x) as [img|]; cbv beta iota zeta;
    rewrite ?unread_reflected, ?unread_getAttribute by done;
    (destruct (querySelector _ d x) as [n|]; cbn [mbind option_bind];
     [ by rewrite unread_textContent
     | destruct (parentElement d x) as [p|]; cbn [mbind option_bind]; [|done];
       rewrite unread_querySelector by (intros nd; by apply sel_attr_contains_unread);
       destruct (querySelector _ d p); cbn [mbind option_bind]; [|done];
       by rewrite unread_textContent ]).
Qed.
End Unmarked.

End DomFacts.

(** * The claims *)

(** ** The resolver *)

Section ResolverClaims.
Context {number : Type} `{!JSNumber number}.

(** C5.  For every name already present in the cache, [getCardPrice]
    returns the stored result unchanged and sends no request: whatever the
    transport would answer, the result is the stored one and the state of
    the resolver (cache, diagnostic channel, requests sent) is the one before
    the call, so the entry never expires and is never validated again. *)
Theorem cache_hit_returns_stored (transport : string → FetchOutcome)
    (cardName : string) (st : Resolver number) (r : PriceResult.t number) :
  priceCache st !! cardName = Some r →
  getCardPrice transport cardName st = (RResult r, st).
Proof.
  intros Hr. unfold getCardPrice. by rewrite (lookup_hit _ _ _ Hr).
Qed.

(** C4.  For every successful response with at least one printing the call
    returns a result object (no price string makes it fail) and stores it.
    Its price and purchase link are the first minimum of the candidates: the
    facets that are present and parse to a number, printing by printing in
    response order and base, foil, etched within a printing, each paired
    with the vendor link of its printing or else its catalog page.  No
    candidate is below the chosen one and every earlier candidate is
    strictly above it, so a tie keeps the candidate met first. *)
Theorem cheapest_is_first_minimum
    (Hasym : lt_asymmetric (number := number))
    (Hbelow : lt_below (number := number))
    (cardName : string) (status : nat) (card : Card) (cards : list Card)
    (st : Resolver number) :
  ∃ r,
    getCardPrice_settle cardName
      (FetchResponse true status (Parsed (Some (card :: cards)))) st
    = (RResult r, with_cache st (<[cardName := r]> (priceCache st))) ∧
    match candidates (card :: cards) with
    | [] => PriceResult.price r = None ∧ PriceResult.purchaseUrl r = None
    | l => ∃ i p u, first_minimum l i (p, u) ∧
                    PriceResult.price r = Some p ∧
                    PriceResult.purchaseUrl r = Some u
    end.
Proof.
  exists (assemble cardName (card :: cards)).
  split; [apply settle_printings|].
  pose proof (scan_printings_holds (card :: cards)) as Hh.
  pose proof (candidates_not_NaN (card :: cards)) as Hnan.
  destruct (candidates (card :: cards)) as [|c l] eqn:Hc.
  - exact Hh.
  - destruct (fold_pick_nonempty Hasym Hbelow c l Hnan) as (i & [p u] & Hf & Hmin).
    rewrite Hf in Hh. exists i, p, u. split; [done|]. exact Hh.
Qed.

(** C6.  Every result object that [getCardPrice] constructs is stored in the
    cache under the name, and its price and purchase link are both set or
    both absent.  The catalog link and the companion link do not depend on
    them: the companion link is the one derived from the name, and the
    catalog link is the reference URL of the first printing, whatever the
    prices are (so both are there when the price is absent). *)
Theorem price_and_purchaseUrl_together (cardName : string) (o : FetchOutcome)
    (st st' : Resolver number) (r : PriceResult.t number) :
  getCardPrice_settle cardName o st = (RResult r, st') →
  priceCache st' !! cardName = Some r ∧
  (PriceResult.price r = None ↔ PriceResult.purchaseUrl r = None) ∧
  PriceResult.edhrecUrl r = Slug.edhrecUrl cardName ∧
  ∀ status card cards,
    o = FetchResponse true status (Parsed (Some (card :: cards))) →
    Str.truthy (scryfall_uri card) = true →
    PriceResult.scryfallUrl r = Some (scryfall_uri card).
Proof.
  intros Hs. apply settle_result in Hs as (status & card & cards & -> & -> & ->).
  split; [apply lookup_insert_eq|].
  split; [apply assemble_together|].
  split; [done|].
  intros status' card' cards' [= _ <- <-] Hu.
  by apply scan_printings_scryfallUrl.
Qed.

(** C2, as the code has it.  When the request for a name that the cache
    does not hold is answered successfully with no printings, [getCardPrice]
    returns [null] and leaves the cache and the diagnostic channel as they
    were: no entry is stored for the name, and a second call for the same
    name sends the request again. *)
Theorem empty_result_is_not_cached (transport : string → FetchOutcome)
    (cardName : string) (st : Resolver number) (status : nat)
    (data : option (list Card)) :
  cache_get (priceCache st) cardName = None →
  transport (searchUrl cardName) = FetchResponse true status (Parsed data) →
  data = None ∨ data = Some [] →
  getCardPrice transport cardName st
  = (RNull, with_request st (searchUrl cardName)) ∧
  getCardPrice transport cardName (with_request st (searchUrl cardName))
  = (RNull, with_request (with_request st (searchUrl cardName)) (searchUrl cardName)).
Proof.
  intros Hmiss Ht Hd. unfold getCardPrice. cbn [priceCache with_request].
  rewrite (lookup_miss _ _ Hmiss), Ht.
  split; by apply settle_empty.
Qed.

End ResolverClaims.

(** C8.  The slug of the companion link is the name in lower case with
    every run of characters that are not letters or digits replaced by one
    hyphen and the hyphens at both ends removed; it is a function of the name
    alone, and it is the slug of the link in every result object, whatever
    the response.  The name "Fire // Ice" gives "fire-ice". *)
Theorem slug_is_specified {number : Type} `{!JSNumber number} :
  (∀ name, Slug.slug name = Slug.spec_slug name) ∧
  Slug.slug "Fire // Ice" = "fire-ice"%string ∧
  ∀ (cardName : string) (o : FetchOutcome) (st : Resolver number),
    match fst (getCardPrice_settle cardName o st) with
    | RResult r =>
        PriceResult.edhrecUrl r
        = ("https://edhrec.com/cards/" +:+ Slug.spec_slug cardName)%string
    | _ => True
    end.
Proof.
  split; [apply SlugFacts.slug_spec|]. split; [reflexivity|].
  intros cardName o st.
  destruct (getCardPrice_settle cardName o st) as [[|r|k] st'] eqn:Hs; try done.
  apply settle_result in Hs as (status & card & cards & -> & -> & ->).
  cbn. unfold Slug.edhrecUrl. by rewrite SlugFacts.slug_spec.
Qed.

(** ** The page *)

Section PageClaims.
Context {number : Type} `{!JSNumber number}.
Import DOM DomAux DomFacts.

(** C1, as the code has it.  For every card element without the processed
    marker whose name extraction yields no name ([null], [undefined] or the
    empty string), processing the element does not invoke the resolver (no
    lookup is left pending, no request is sent, and the cache and the
    diagnostic channel are as before), but it does set the processed marker,
    before the name is extracted: the element is selected by no later scan,
    and processing it again does nothing. *)
Theorem unnamed_card_is_marked_not_resolved (pg : Page number) (cardElement : nat) :
  Str.truthy_opt (priceAdded (page_dom pg) cardElement) = false →
  is_Some (tagName (page_dom pg) cardElement) →
  Str.truthy_opt (getCardName (page_dom pg) cardElement) = false →
  let pg' := addPriceToCard_begin cardElement pg in
  resolver pg' = resolver pg ∧
  tasks pg' = tasks pg ∧
  page_dom pg' = setAttribute (page_dom pg) cardElement "data-price-added" "true" ∧
  priceAdded (page_dom pg') cardElement = Some "true"%string ∧
  (∀ n, cardElement ∉ querySelectorAll sel_card (page_dom pg') n) ∧
  addPriceToCard_begin cardElement pg' = pg'.
Proof.
  intros Hunmarked Hel Hname pg'.
  assert (pg' = {| page_dom := setAttribute (page_dom pg) cardElement
                                 "data-price-added" "true";
                   resolver := resolver pg; tasks := tasks pg |}) as Hpg'.
  { subst pg'. unfold addPriceToCard_begin. rewrite Hunmarked.
    rewrite getCardName_marked.
    destruct (getCardName (page_dom pg) cardElement) as [name|]; [|done].
    cbn in Hname. by rewrite Hname. }
  assert (priceAdded (page_dom pg') cardElement = Some "true"%string) as Hmarked.
  { rewrite Hpg'. cbn. unfold priceAdded. by apply getAttribute_setAttribute. }
  split; [by rewrite Hpg'|]. split; [by rewrite Hpg'|]. split; [by rewrite Hpg'|].
  split; [done|]. split.
  - intros n. apply marked_not_selected. unfold priceAdded in Hmarked.
    by rewrite Hmarked.
  - unfold addPriceToCard_begin at 1. by rewrite Hmarked.
Qed.

(** C3, as the code has it.  When the request of a call fails in transport
    (the request is rejected, or answered with a status that is not a
    success), the error is written to the diagnostic channel, the call
    returns [null] and the cache is left as it was, so a later call for the
    same name sends the request again.  On the page, the element whose
    lookup failed gets no links and keeps its processed marker, so no later
    scan selects it: the lookup is sent again only for another element of
    that name that is not yet processed. *)
Theorem transport_failure_is_logged_not_cached (cardName : string) :
  (∀ (transport : string → FetchOutcome) (st : Resolver number) (e : JsError),
     cache_get (priceCache st) cardName = None →
     transport_failure (transport (searchUrl cardName)) = Some e →
     let entry := {| log_message := error_message cardName; log_error := e |} in
     let st1 := with_log (with_request st (searchUrl cardName)) entry in
     getCardPrice transport cardName st = (RNull, st1) ∧
     priceCache st1 = priceCache st ∧
     getCardPrice transport cardName st1
     = (RNull, with_log (with_request st1 (searchUrl cardName)) entry)) ∧
  (∀ (pg : Page number) (k cardElement : nat) (o : FetchOutcome) (e : JsError),
     tasks pg !! k = Some {| task_element := cardElement;
                             task_awaiting := AwaitFetch cardName |} →
     transport_failure o = Some e →
     is_Some (priceAdded (page_dom pg) cardElement) →
     let entry := {| log_message := error_message cardName; log_error := e |} in
     deliver k o pg
     = {| page_dom := page_dom pg; resolver := with_log (resolver pg) entry;
          tasks := delete k (tasks pg) |} ∧
     ∀ n, cardElement ∉ querySelectorAll sel_card (page_dom (deliver k o pg)) n).
Proof.
  split.
  - intros transport st e Hmiss Hfail entry st1.
    unfold getCardPrice. cbn [priceCache with_request with_log st1].
    rewrite (lookup_miss _ _ Hmiss).
    rewrite !(settle_failure _ _ e) by done. done.
  - intros pg k cardElement o e Htask Hfail Hmarked entry.
    assert (deliver k o pg
            = {| page_dom := page_dom pg; resolver := with_log (resolver pg) entry;
                 tasks := delete k (tasks pg) |}) as Hd.
    { unfold deliver. rewrite Htask, (settle_failure _ _ e) by done. done. }
    split; [done|].
    intros n. rewrite Hd. by apply marked_not_selected.
Qed.

(** C10.  A result whose price is exactly zero gets no link cluster: the
    annotator leaves the page as it is, exactly as it does for a result
    without a price.  The zero price is a price the scan selects like any
    other and the result is stored in the cache: when the cheapest price of
    a response is zero, the call that was waiting for the response stores
    the result with that price and inserts nothing. *)
Theorem zero_price_is_not_shown :
  (∀ (cardElement : nat) (r : PriceResult.t number) (p : number) (d : DomStore),
     PriceResult.price r = Some p → num_is_zero p = true →
     addPriceToCard_finish cardElement (RResult r) d = d ∧
     addPriceToCard_finish cardElement (RResult r) d
     = addPriceToCard_finish cardElement
         (RResult {| PriceResult.price := None;
                     PriceResult.purchaseUrl := PriceResult.purchaseUrl r;
                     PriceResult.scryfallUrl := PriceResult.scryfallUrl r;
                     PriceResult.edhrecUrl := PriceResult.edhrecUrl r |}) d) ∧
  (∀ (pg : Page number) (k cardElement : nat) (cardName : string) (status : nat)
     (card : Card) (cards : list Card) (p : number),
     tasks pg !! k = Some {| task_element := cardElement;
                             task_awaiting := AwaitFetch cardName |} →
     cheapestPrice (scan_printings (card :: cards)) = Some p →
     num_is_zero p = true →
     let pg' := deliver k (FetchResponse true status (Parsed (Some (card :: cards)))) pg in
     page_dom pg' = page_dom pg ∧
     ∃ r, priceCache (resolver pg') !! cardName = Some r ∧
          PriceResult.price r = Some p).
Proof.
  split.
  - intros cardElement r p d Hp Hz.
    unfold addPriceToCard_finish. cbn. rewrite Hp.
    unfold num_truthy. by rewrite Hz.
  - intros pg k cardElement cardName status card cards p Htask Hp Hz pg'.
    subst pg'. unfold deliver. rewrite Htask, settle_printings.
    cbn [page_dom resolver priceCache with_cache].
    split.
    + unfold addPriceToCard_finish, assemble. cbn [PriceResult.price].
      rewrite Hp. unfold num_truthy. by rewrite Hz.
    + eexists. split; [apply lookup_insert_eq|done].
Qed.

End PageClaims.

Section AnnotatorClaims.
Context {number : Type} `{!JSNumber number}.
Import DOM DomAux DomFacts.

Lemma parentElement_Some d el parent :
  parentElement d el = Some parent →
  ∃ nd, node d el = Some nd ∧ parentNode nd = Some parent.
Proof.
  unfold parentElement. destruct (node d el) as [nd|]; cbn; [|done].
  destruct (parentNode nd) as [q|] eqn:Hq; cbn; [|done].
  destruct (node d q) as [qn|]; cbn; [|done].
  destruct (is_element qn); [|done]. intros [= <-]. by exists nd.
Qed.

(** C7, as the code has it.  If the result is [null], or has no price, or
    has a price that is zero (or not a number), the annotator inserts nothing
    and leaves the page, with the processed marker of the element, as it is.
    Otherwise, for an element of a well-formed store, exactly one link
    cluster is inserted: a new [div] of class [moxfield-card-links] whose
    first link carries the label "$" followed by the price with two
    decimals and points to the purchase link; no other new node is a
    cluster and every old node keeps its content (so the element keeps its
    marker).  The cluster is the next sibling of the element, among the
    children of its parent, when the element has a parent element;
    otherwise it is appended to the children of the element itself. *)
Theorem annotation_inserts_one_cluster :
  (∀ (cardElement : nat) (result : Resolved number) (d : DomStore),
     match result_price result with
     | Some p => num_truthy p = false
     | None => True
     end →
     addPriceToCard_finish cardElement result d = d) ∧
  (∀ (cardElement : nat) (r : PriceResult.t number) (p : number) (d : DomStore),
     PriceResult.price r = Some p →
     num_truthy p = true →
     well_formed_at d cardElement →
     let c := nextId d in
     let d' := addPriceToCard_finish cardElement (RResult r) d in
     node d c = None ∧
     (∃ kids,
        node d' c = Some (container_node
                            (Some (default cardElement (parentElement d cardElement)))
                            (S c :: kids))) ∧
     node d' (S c)
     = Some (price_link_node c (default "null"%string (PriceResult.purchaseUrl r))) ∧
     node d' (S (S c)) = Some (label_node c (price_label p)) ∧
     (∀ x nd', node d' x = Some nd' →
               sel_class "moxfield-card-links" nd' = true →
               x = c ∨ ∃ nd, node d x = Some nd ∧ content nd = content nd') ∧
     (∀ x nd, node d x = Some nd →
              ∃ nd', node d' x = Some nd' ∧ content nd' = content nd) ∧
     match parentElement d cardElement with
     | Some parent =>
         nextSibling d' cardElement = Some c ∧
         ∃ pn pn' l1 l2,
           node d parent = Some pn ∧ node d' parent = Some pn' ∧
           childNodes pn = (l1 ++ cardElement :: l2) ∧
           childNodes pn' = (l1 ++ cardElement :: c :: l2)
     | None =>
         ∃ nd nd',
           node d cardElement = Some nd ∧ node d' cardElement = Some nd' ∧
           childNodes nd' = (childNodes nd ++ [c])
     end).
Proof.
  split.
  - intros cardElement [|r|key] d; cbn; try done.
    destruct (PriceResult.price r) as [p|]; [|done]. by intros ->.
  - intros cardElement r p d Hp Htruthy Hwf c d'.
    assert (d' = snd (insert_links cardElement r p d)) as Hd'.
    { subst d'. unfold addPriceToCard_finish. by rewrite Hp, Htruthy. }
    destruct (insert_links_spec cardElement r p d Hwf)
      as (kids & d5 & _ & [[Hold Hc Hn Hnew] Hnext Hlink Hlabel] & Hplaced).
    rewrite <- Hd' in Hplaced. fold c in Hold, Hc, Hn, Hnew, Hnext, Hlink, Hlabel.
    destruct Hwf as [Hfresh [nd Hel] Hpar].
    assert (Hcnone : node d c = None).
    { destruct (node d c) eqn:Hdc; [|done].
      assert (c < nextId d) by (apply Hfresh; by rewrite Hdc). subst c. lia. }
    assert (Hellt : cardElement < c) by (apply Hfresh; by rewrite Hel).
    split; [done|].
    unfold placed in Hplaced. fold c in Hplaced.
    destruct (parentElement d cardElement) as [parent|] eqn:Hpe.
    + destruct Hplaced as (pn & l1 & l2 & Hpn & Hl & Hl1 & Hnode).
      assert (Hplt : parent < c) by (apply Hfresh; by rewrite Hpn).
      split.
      { exists kids. rewrite Hnode. by case_decide. }
      split.
      { rewrite Hnode. repeat case_decide; try lia. done. }
      split.
      { rewrite Hnode. repeat case_decide; try lia. done. }
      split.
      { intros x nd'. rewrite Hnode. repeat case_decide.
        - by left.
        - intros [= <-] _. right. subst x. by exists pn.
        - intros Hx Hcls. right.
          destruct (decide (x < c)) as [Hxc|Hxc].
          + rewrite Hold in Hx by done. by exists nd'.
          + rewrite (Hnew x nd') in Hcls; [done|lia|done]. }
      split.
      { intros x ndx Hx.
        assert (x < c) as Hxc by (apply Hfresh; by rewrite Hx).
        rewrite Hnode. repeat case_decide; try lia.
        - subst x. rewrite Hpn in Hx. injection Hx as <-. by eexists.
        - rewrite Hold by done. by exists ndx. }
      split.
      { apply parentElement_Some in Hpe as (nd0 & Hnd0 & Hq).
        assert (∃ nd1, node d' cardElement = Some nd1 ∧ parentNode nd1 = Some parent)
          as (nd1 & Hnd1 & Hq1).
        { rewrite Hnode. destruct (decide (c = cardElement)); [lia|].
          destruct (decide (parent = cardElement)) as [Heq|Hne].
          - eexists. split; [done|]. cbn [parentNode]. subst parent.
            rewrite Hpn in Hnd0. by injection Hnd0 as ->.
          - rewrite Hold by done. by exists nd0. }
        unfold nextSibling. rewrite Hnd1. cbn [mbind option_bind]. rewrite Hq1.
        cbn [mbind option_bind].
        rewrite Hnode. destruct (decide (c = parent)); [lia|].
        destruct (decide (parent = parent)); [|done]. cbn [mbind option_bind childNodes].
        by apply after_app. }
      exists pn. eexists. exists l1, l2. split; [done|]. split.
      { rewrite Hnode. repeat case_decide; try lia. done. }
      done.
    + destruct Hplaced as (nd0 & Hnd0 & Hnode).
      rewrite Hel in Hnd0. injection Hnd0 as <-.
      split.
      { exists kids. rewrite Hnode. by case_decide. }
      split.
      { rewrite Hnode. repeat case_decide; try lia. done. }
      split.
      { rewrite Hnode. repeat case_decide; try lia. done. }
      split.
      { intros x nd'. rewrite Hnode. repeat case_decide.
        - by left.
        - intros [= <-] _. right. subst x. by exists nd.
        - intros Hx Hcls. right.
          destruct (decide (x < c)) as [Hxc|Hxc].
          + rewrite Hold in Hx by done. by exists nd'.
          + rewrite (Hnew x nd') in Hcls; [done|lia|done]. }
      split.
      { intros x ndx Hx.
        assert (x < c) as Hxc by (apply Hfresh; by rewrite Hx).
        rewrite Hnode. repeat case_decide; try lia.
        - subst x. rewrite Hel in Hx. injection Hx as <-. by eexists.
        - rewrite Hold by done. by exists ndx. }
      exists nd. eexists. split; [done|]. split.
      { rewrite Hnode. repeat case_decide; try lia. done. }
      done.
Qed.
End AnnotatorClaims.

(** ** The coordinator *)

Local Open Scope nat_scope.

(** *** The timers that run while time passes *)

Section TimerFacts.
Context {number : Type} `{!JSNumber number}.

Lemma runs_until_cons t tm l :
  runs_until t (tm :: l)
  = (if timer_due tm <=? t then S ((t - timer_due tm) / 300) else 0) + runs_until t l.
Proof. reflexivity. Qed.

Lemma runs_until_app t l1 l2 :
  runs_until t (l1 ++ l2) = runs_until t l1 + runs_until t l2.
Proof.
  induction l1 as [|tm l1 IH]; [reflexivity|].
  cbn [app]. rewrite !runs_until_cons, IH. lia.
Qed.

Lemma runs_until_filter t (f : Timer → bool) l :
  runs_until t (List.filter f l) ≤ runs_until t l.
Proof.
  induction l as [|tm l IH]; [reflexivity|].
  cbn [List.filter]. destruct (f tm); rewrite !runs_until_cons; lia.
Qed.

Lemma runs_until_remove t tm l :
  tm ∈ l →
  (if timer_due tm <=? t then S ((t - timer_due tm) / 300) else 0)
  + runs_until t (List.filter (fun x => negb (timer_id x =? timer_id tm)) l)
  ≤ runs_until t l.
Proof.
  induction l as [|x l IH]; intros Hin; [by apply elem_of_nil in Hin|].
  apply elem_of_cons in Hin as [<-|Hin].
  - cbn [List.filter]. rewrite Nat.eqb_refl. cbn [negb]. rewrite runs_until_cons.
    pose proof (runs_until_filter t (fun x => negb (timer_id x =? timer_id tm)) l). lia.
  - specialize (IH Hin). cbn [List.filter].
    destruct (negb _); rewrite !runs_until_cons; lia.
Qed.

Lemma runs_until_zero t l x : runs_until t l = 0 → x ∈ l → t < timer_due x.
Proof.
  induction l as [|y l IH]; intros Hz Hin; [by apply elem_of_nil in Hin|].
  rewrite runs_until_cons in Hz.
  apply elem_of_cons in Hin as [->|Hin].
  - destruct (Nat.leb_spec (timer_due y) t); [lia|done].
  - apply IH; [lia|done].
Qed.

Lemma earliest_none l : earliest l = None → l = [].
Proof.
  destruct l as [|y l]; [done|]. cbn [earliest].
  destruct (earliest l); [|done]. by destruct (_ <? _).
Qed.

Lemma earliest_first l tm :
  earliest l = Some tm → tm ∈ l ∧ ∀ x, x ∈ l → timer_due tm ≤ timer_due x.
Proof.
  revert tm. induction l as [|y l IH]; intros tm; [done|].
  cbn [earliest]. destruct (earliest l) as [tm'|] eqn:He.
  - destruct (IH tm' eq_refl) as [Hin Hmin].
    destruct (Nat.ltb_spec (timer_due tm') (timer_due y)); intros [= <-].
    + split; [by right|]. intros x [->|Hx]%elem_of_cons; [lia|by apply Hmin].
    + split; [by left|]. intros x [->|Hx]%elem_of_cons; [lia|].
      specialize (Hmin x Hx). lia.
  - intros [= <-]. split; [by left|].
    apply earliest_none in He. subst l.
    intros x [->|Hx]%elem_of_cons; [lia|by apply elem_of_nil in Hx].
Qed.

Lemma observer_callback_runs t (w : Window number) :
  runs_until t (timers (observer_callback w))
  ≤ runs_until t (timers w)
    + (if now w + 300 <=? t then S ((t - (now w + 300)) / 300) else 0).
Proof.
  unfold observer_callback, clearTimeout, setTimeout, with_timers.
  destruct (observer_timeout w);
    cbn [now timers nextTimer observer_timeout observing page scans];
    rewrite runs_until_app, runs_until_cons; cbn [timer_due];
    change (runs_until t []) with 0.
  - pose proof (runs_until_filter t (fun tm => negb (timer_id tm =? n)) (timers w)). lia.
  - lia.
Qed.

Lemma run_callback_runs t cb (w : Window number) :
  runs_until t (timers (run_callback cb w))
  ≤ runs_until t (timers w)
    + (if now w + 300 <=? t then S ((t - (now w + 300)) / 300) else 0).
Proof.
  destruct cb; unfold run_callback, run_processCards, finish_task, notify;
    match goal with |- context [if ?b then _ else _] => destruct b end;
    try (cbn [with_page observe timers]; lia);
    (etrans; [apply observer_callback_runs|]);
    cbn [with_page observe timers now]; lia.
Qed.

Lemma run_due_complete fuel t (w : Window number) x :
  runs_until t (timers w) ≤ fuel →
  x ∈ timers (run_due fuel t w) → t < timer_due x.
Proof.
  revert w. induction fuel as [|k IH]; intros w Hfuel Hin.
  - cbn [run_due] in Hin. apply (runs_until_zero t (timers w)); [lia|done].
  - cbn [run_due] in Hin.
    destruct (earliest (timers w)) as [tm|] eqn:He.
    2:{ apply earliest_none in He. rewrite He in Hin. by apply elem_of_nil in Hin. }
    destruct (earliest_first _ _ He) as [Htm Hmin].
    destruct (Nat.leb_spec (timer_due tm) t) as [Hle|Hlt].
    2:{ specialize (Hmin x Hin). lia. }
    revert Hin. apply IH.
    etrans; [apply run_callback_runs|].
    cbn [timers now].
    pose proof (runs_until_remove t tm (timers w) Htm) as Hrm.
    destruct (Nat.leb_spec (timer_due tm) t) as [_|]; [|lia].
    assert ((if Nat.max (now w) (timer_due tm) + 300 <=? t
             then S ((t - (Nat.max (now w) (timer_due tm) + 300)) / 300) else 0)
            ≤ (t - timer_due tm) / 300) as Hnew.
    { destruct (Nat.leb_spec (Nat.max (now w) (timer_due tm) + 300) t) as [Hd|]; [|lia].
      replace (S ((t - (Nat.max (now w) (timer_due tm) + 300)) / 300))
        with ((t - (Nat.max (now w) (timer_due tm) + 300) + 1 * 300) / 300)
        by (rewrite Nat.div_add by lia; lia).
      apply Nat.Div0.div_le_mono. lia. }
    lia.
Qed.

(** When the time has passed until [t], every timer due by then has run:
    what is pending is due later. *)
Lemma advance_complete t (w : Window number) x :
  x ∈ timers (advance t w) → t < timer_due x.
Proof. unfold advance. cbn [timers]. by apply run_due_complete. Qed.

End TimerFacts.

(** *** The debounce *)

Section CoordinatorClaims.
Context {number : Type} `{!JSNumber number}.

Lemma runs_until_nil t : runs_until t [] = 0.
Proof. reflexivity. Qed.

Lemma runs_until_one t tm :
  runs_until t [tm]
  = if (timer_due tm <=? t)%nat then S ((t - timer_due tm) / 300) else 0.
Proof.
  unfold runs_until. cbn [List.map list_sum fold_right]. apply Nat.add_0_r.
Qed.

Lemma run_due_idle fuel t (w : Window number) : timers w = [] → run_due fuel t w = w.
Proof. intros Htim. destruct fuel; [reflexivity|]. cbn [run_due]. by rewrite Htim. Qed.

Lemma run_due_early fuel t (w : Window number) tm :
  timers w = [tm] → t < timer_due tm → run_due fuel t w = w.
Proof.
  intros Htim Hlt. destruct fuel; [reflexivity|]. cbn [run_due].
  rewrite Htim. cbn [earliest].
  destruct (Nat.leb_spec (timer_due tm) t); [lia|reflexivity].
Qed.

(** What the callback of the observer does when no timer or only its own is
    pending. *)
Lemma observer_callback_alone (w : Window number) :
  timers w = [] ∨
  (∃ tm, timers w = [tm] ∧ observer_timeout w = Some (timer_id tm)) →
  observer_callback w
  = {| now := now w;
       timers := [{| timer_id := nextTimer w; timer_due := now w + 300;
                     timer_callback := CbProcessCards |}];
       nextTimer := S (nextTimer w);
       observer_timeout := Some (nextTimer w);
       observing := observing w; page := page w; scans := scans w |}.
Proof.
  intros [Htim|(tm & Htim & Hto)];
    unfold observer_callback, clearTimeout, setTimeout, with_timers.
  - destruct (observer_timeout w); cbn; rewrite ?Htim; reflexivity.
  - rewrite Hto. cbn. rewrite Htim. cbn. rewrite Nat.eqb_refl. reflexivity.
Qed.

Lemma mutation_when_idle (w : Window number) t :
  observing w = true → timers w = [] → now w ≤ t →
  pending (step w (Mutation t)) t (scans w) (page w).
Proof.
  intros Hobs Htim Hnow.
  unfold step, advance. rewrite Htim, runs_until_nil. cbn [run_due observing].
  rewrite Hobs, observer_callback_alone by (left; exact Htim).
  cbn [now timers nextTimer observer_timeout observing page scans].
  replace (Nat.max (now w) t) with t by lia.
  split; cbn [now timers observer_timeout observing page scans]; try reflexivity.
  eexists; split; reflexivity.
Qed.

Lemma mutation_when_pending (w : Window number) t t' log pg :
  pending w t log pg → t ≤ t' → t' < t + 300 →
  pending (step w (Mutation t')) t' log pg.
Proof.
  intros [Hobs Hnow (id & Htim & Hto) Hscans Hpage] Hle Hlt.
  unfold step, advance.
  rewrite (run_due_early _ t' w _ Htim) by (cbn [timer_due]; lia).
  cbn [observing]. rewrite Hobs, observer_callback_alone.
  - cbn [now timers nextTimer observer_timeout observing page scans].
    replace (Nat.max (now w) t') with t' by lia.
    split; cbn [now timers observer_timeout observing page scans];
      [reflexivity|reflexivity| |exact Hscans|exact Hpage].
    eexists; split; reflexivity.
  - right. eexists. cbn [timers observer_timeout]. split; [exact Htim|exact Hto].
Qed.

Lemma last_nonempty (x d d' : nat) (ts : list nat) :
  List.last (x :: ts) d = List.last (x :: ts) d'.
Proof.
  revert x. induction ts as [|y ts IH]; intros x; [reflexivity|].
  change (List.last (y :: ts) d = List.last (y :: ts) d'). apply IH.
Qed.

Lemma last_cons (t t' : nat) (ts : list nat) :
  List.last (t' :: ts) t = List.last ts t'.
Proof.
  destruct ts as [|x ts]; [reflexivity|].
  change (List.last (x :: ts) t = List.last (x :: ts) t'). apply last_nonempty.
Qed.


(** A callback of the script keeps the page of a scan and logs its time. *)
Lemma notify_kept before (w : Window number) :
  page (notify before w) = page w ∧ scans (notify before w) = scans w ∧
  now (notify before w) = now w ∧ observing (notify before w) = observing w.
Proof.
  unfold notify. destruct (observing w && _); [|done].
  unfold observer_callback, clearTimeout, setTimeout, with_timers.
  by destruct (observer_timeout w).
Qed.

Lemma run_callback_scans cb (w : Window number) :
  scans (run_callback cb w) = scans w ++ [now w].
Proof.
  destruct cb; unfold run_callback, run_processCards, finish_task;
    by rewrite (proj1 (proj2 (notify_kept _ _))).
Qed.

Lemma run_due_scans fuel t (w : Window number) :
  ∃ more, scans (run_due fuel t w) = scans w ++ more.
Proof.
  revert w. induction fuel as [|k IH]; intros w; [exists []; by rewrite app_nil_r|].
  cbn [run_due]. destruct (earliest (timers w)) as [tm|]; [|exists []; by rewrite app_nil_r].
  destruct (timer_due tm <=? t); [|exists []; by rewrite app_nil_r].
  match goal with |- ∃ more, scans (run_due k t ?w') = _ => destruct (IH w') as [more Hmore] end.
  rewrite Hmore, run_callback_scans. cbn [scans now].
  eexists. rewrite <- app_assoc. reflexivity.
Qed.

(** The pending timer runs: the scan, and the timer set again if the scan
    has fed the observer. *)
Lemma pending_timer_runs (w : Window number) t log pg id :
  observing w = true → now w = t →
  timers w = [{| timer_id := id; timer_due := t + 300; timer_callback := CbProcessCards |}] →
  scans w = log → page w = pg →
  run_callback CbProcessCards
    {| now := Nat.max (now w) (t + 300);
       timers := List.filter (fun x => negb (timer_id x =? id)%nat) (timers w);
       nextTimer := nextTimer w;
       observer_timeout := observer_timeout w; observing := observing w;
       page := page w; scans := scans w |}
  = if feeds pg
    then {| now := t + 300;
            timers := [{| timer_id := nextTimer w; timer_due := t + 300 + 300;
                          timer_callback := CbProcessCards |}];
            nextTimer := S (nextTimer w);
            observer_timeout := Some (nextTimer w);
            observing := true; page := scan pg; scans := log ++ [t + 300] |}
    else {| now := t + 300; timers := []; nextTimer := nextTimer w;
            observer_timeout := observer_timeout w;
            observing := true; page := scan pg; scans := log ++ [t + 300] |}.
Proof.
  intros Hobs Hnow Htim Hscans Hpage.
  rewrite Htim. cbn [List.filter timer_id]. rewrite Nat.eqb_refl. cbn [negb].
  replace (Nat.max (now w) (t + 300)) with (t + 300) by lia.
  rewrite Hobs, Hscans, Hpage.
  unfold run_callback, run_processCards, finish_task, notify, with_page.
  cbn [now timers nextTimer observer_timeout observing page scans].
  fold (scan pg). fold (feeds pg). cbn [andb].
  destruct (feeds pg); [|reflexivity].
  rewrite observer_callback_alone by (left; reflexivity). reflexivity.
Qed.

Lemma advance_fires (w : Window number) t log pg T :
  pending w t log pg → t + 300 ≤ T →
  run_due (runs_until T (timers w)) T w
  = run_due ((T - (t + 300)) / 300) T
      (if feeds pg
       then {| now := t + 300;
               timers := [{| timer_id := nextTimer w; timer_due := t + 300 + 300;
                             timer_callback := CbProcessCards |}];
               nextTimer := S (nextTimer w);
               observer_timeout := Some (nextTimer w);
               observing := true; page := scan pg; scans := log ++ [t + 300] |}
       else {| now := t + 300; timers := []; nextTimer := nextTimer w;
               observer_timeout := observer_timeout w;
               observing := true; page := scan pg; scans := log ++ [t + 300] |}).
Proof.
  intros [Hobs Hnow (id & Htim & Hto) Hscans Hpage] Hle.
  replace (runs_until T (timers w)) with (S ((T - (t + 300)) / 300)).
  2:{ rewrite Htim, runs_until_one. cbn [timer_due].
      destruct (Nat.leb_spec (t + 300) T); [reflexivity|lia]. }
  cbn [run_due].
  destruct (earliest (timers w)) as [tm|] eqn:He; rewrite Htim in He; [|discriminate He].
  cbn [earliest] in He. injection He as <-. cbn [timer_due timer_id timer_callback].
  destruct (Nat.leb_spec (t + 300) T) as [_|]; [|lia].
  by rewrite (pending_timer_runs w t log pg id Hobs Hnow Htim Hscans Hpage).
Qed.

Lemma idle_when_pending (w : Window number) t log pg T :
  pending w t log pg →
  let w' := step w (Idle T) in
  (T < t + 300 → scans w' = log) ∧
  (t + 300 ≤ T → feeds pg = false → scans w' = log ++ [t + 300] ∧ timers w' = []) ∧
  (t + 300 ≤ T → T < t + 600 → feeds pg = true →
   scans w' = log ++ [t + 300] ∧ List.map timer_due (timers w') = [t + 600]) ∧
  (t + 600 ≤ T → feeds pg = true →
   (∃ more, scans w' = log ++ [t + 300; t + 600] ++ more) ∧
   (feeds (scan pg) = false →
    scans w' = log ++ [t + 300; t + 600] ∧ timers w' = [])).
Proof.
  intros Hp w'. subst w'.
  unfold step, advance. cbn [scans timers].
  split; [|split; [|split]].
  - intros Hlt. destruct Hp as [Hobs Hnow (id & Htim & Hto) Hscans Hpage].
    rewrite (run_due_early _ T w _ Htim) by (cbn [timer_due]; lia).
    exact Hscans.
  - intros Hle Hquiet. rewrite (advance_fires w t log pg T Hp Hle), Hquiet.
    rewrite run_due_idle by reflexivity. split; reflexivity.
  - intros Hle Hlt Hfed. rewrite (advance_fires w t log pg T Hp Hle), Hfed.
    erewrite run_due_early; [|reflexivity|cbn [timer_due]; lia].
    cbn [scans timers List.map timer_due]. split; [reflexivity|].
    f_equal. lia.
  - intros Hle Hfed.
    rewrite (advance_fires w t log pg T Hp) by lia. rewrite Hfed.
    match goal with |- context [run_due _ T ?w1] => set (W := w1) end.
    assert (pending W (t + 300) (log ++ [t + 300]) (scan pg)) as HW.
    { split; try reflexivity. eexists; split; reflexivity. }
    replace ((T - (t + 300)) / 300) with (runs_until T (timers W)).
    2:{ cbn [W timers]. rewrite runs_until_one. cbn [timer_due].
        destruct (Nat.leb_spec (t + 300 + 300) T); [|lia].
        replace (T - (t + 300)) with (T - (t + 300 + 300) + 1 * 300) by lia.
        rewrite Nat.div_add by lia. lia. }
    rewrite (advance_fires W (t + 300) _ (scan pg) T HW) by lia.
    replace (t + 300 + 300) with (t + 600) by lia.
    split.
    + match goal with |- ∃ more, scans (run_due ?k T ?w') = _ =>
        destruct (run_due_scans k T w') as [more Hmore] end.
      exists more. rewrite Hmore.
      destruct (feeds (scan pg)); cbn [scans]; rewrite <- !app_assoc; reflexivity.
    + intros Hquiet. rewrite Hquiet, run_due_idle by reflexivity.
      cbn [scans timers]. rewrite <- !app_assoc. split; reflexivity.
Qed.

End CoordinatorClaims.

(** * Examples, witnesses and counterexamples *)

Module Cases.
Import Sample DOM DomAux.
Local Open Scope string_scope.
Local Open Scope list_scope.

(** The example of the specification: 12.50, 9.99 and no etched price give
    9.99 and the link of that printing. *)
Example bolt_is_9_99 :
  fst (getCardPrice_settle "Lightning Bolt" (ok_with [bolt]) fresh)
  = RResult {| PriceResult.price := Some (Decimal.Finite (999 # 100));
               PriceResult.purchaseUrl := Some "https://tcg/bolt";
               PriceResult.scryfallUrl := Some "https://scryfall/bolt";
               PriceResult.edhrecUrl := "https://edhrec.com/cards/lightning-bolt" |}.
Proof. vm_compute. reflexivity. Qed.

(** Two printings at 5.00: the link is the one of the first; "n/a" is
    skipped. *)
Example tie_keeps_first :
  fst (getCardPrice_settle "Opt" (ok_with [five_a; five_b]) fresh)
  = RResult {| PriceResult.price := Some (Decimal.Finite 5);
               PriceResult.purchaseUrl := Some "https://tcg/a";
               PriceResult.scryfallUrl := Some "https://scryfall/a";
               PriceResult.edhrecUrl := "https://edhrec.com/cards/opt" |}.
Proof. vm_compute. reflexivity. Qed.

Lemma cache_hit_witness :
  let st : Resolver Decimal.t :=
    {| priceCache := {[ "Opt" := opt_result ]}; console := []; requests := [] |} in
  priceCache st !! "Opt" = Some opt_result ∧
  getCardPrice (λ _, unreachable) "Opt" st = (RResult opt_result, st).
Proof.
  split; [vm_compute; reflexivity|].
  apply cache_hit_returns_stored. vm_compute. reflexivity.
Defined.

Lemma cheapest_witness :
  ∃ r,
    getCardPrice_settle "Opt" (FetchResponse true 200 (Parsed (Some [five_a; five_b]))) fresh
    = (RResult r, with_cache fresh (<["Opt" := r]> (priceCache fresh))) ∧
    match candidates [five_a; five_b] with
    | [] => PriceResult.price r = None ∧ PriceResult.purchaseUrl r = None
    | l => ∃ i p u, first_minimum l i (p, u) ∧
                    PriceResult.price r = Some p ∧
                    PriceResult.purchaseUrl r = Some u
    end.
Proof.
  apply (cheapest_is_first_minimum DecimalFacts.lt_asym DecimalFacts.lt_chain).
Defined.

Lemma together_witness :
  let r := assemble (number := Decimal.t) "Opt" [unpriced] in
  let st' := with_cache fresh (<["Opt" := r]> ∅) in
  getCardPrice_settle "Opt" (ok_with [unpriced]) fresh = (RResult r, st') ∧
  (priceCache st' !! "Opt" = Some r ∧
   (PriceResult.price r = None ↔ PriceResult.purchaseUrl r = None) ∧
   PriceResult.edhrecUrl r = Slug.edhrecUrl "Opt" ∧
   ∀ status card cards,
     ok_with [unpriced] = FetchResponse true status (Parsed (Some (card :: cards))) →
     Str.truthy (scryfall_uri card) = true →
     PriceResult.scryfallUrl r = Some (scryfall_uri card)) ∧
  PriceResult.price r = None ∧
  PriceResult.scryfallUrl r = Some "https://scryfall/u".
Proof.
  intros r st'. split; [reflexivity|]. split.
  - apply (price_and_purchaseUrl_together "Opt" (ok_with [unpriced]) fresh st' r).
    reflexivity.
  - split; reflexivity.
Defined.

(** C2 fails as stated: after a successful response without printings the
    cache has no entry for the name and the second call sends the request
    again. *)
Lemma empty_result_counterexample :
  let transport := λ _ : string, ok_with [] in
  let first := getCardPrice transport "Opt" fresh in
  let second := getCardPrice transport "Opt" (snd first) in
  fst first = RNull ∧
  priceCache (snd first) !! "Opt" = None ∧
  requests (snd first) = [searchUrl "Opt"] ∧
  requests (snd second) = [searchUrl "Opt"; searchUrl "Opt"].
Proof. vm_compute. repeat split; reflexivity. Qed.

Lemma empty_result_witness :
  let transport := λ _ : string, ok_with [] in
  cache_get (priceCache fresh) "Opt" = None ∧
  getCardPrice transport "Opt" fresh = (RNull, with_request fresh (searchUrl "Opt")) ∧
  getCardPrice transport "Opt" (with_request fresh (searchUrl "Opt"))
  = (RNull, with_request (with_request fresh (searchUrl "Opt")) (searchUrl "Opt")).
Proof.
  intros transport. split; [vm_compute; reflexivity|].
  apply (empty_result_is_not_cached transport "Opt" fresh 200 (Some [])).
  - vm_compute; reflexivity.
  - reflexivity.
  - by right.
Defined.

(** C1 fails as stated: the card without a name has no marker before it is
    processed and carries the marker afterwards, so the next selection
    leaves it out. *)
Lemma unnamed_card_counterexample :
  let pg := addPriceToCard_begin 7 (page_of gallery) in
  getCardName gallery 7 = None ∧
  priceAdded gallery 7 = None ∧
  querySelectorAll sel_card gallery 0 = [5; 7; 9] ∧
  priceAdded (page_dom pg) 7 = Some "true" ∧
  querySelectorAll sel_card (page_dom pg) 0 = [5; 9].
Proof. vm_compute. repeat split; reflexivity. Qed.

Lemma unnamed_card_witness :
  let pg := page_of gallery in
  let pg' := addPriceToCard_begin 7 pg in
  Str.truthy_opt (getCardName (page_dom pg) 7) = false ∧
  resolver pg' = resolver pg ∧
  tasks pg' = tasks pg ∧
  page_dom pg' = setAttribute (page_dom pg) 7 "data-price-added" "true" ∧
  priceAdded (page_dom pg') 7 = Some "true" ∧
  (∀ n, 7 ∉ querySelectorAll sel_card (page_dom pg') n) ∧
  addPriceToCard_begin 7 pg' = pg'.
Proof.
  intros pg pg'. split; [vm_compute; reflexivity|].
  apply (unnamed_card_is_marked_not_resolved pg 7).
  - vm_compute; reflexivity.
  - vm_compute. eexists; reflexivity.
  - vm_compute; reflexivity.
Defined.

(** C3 fails as stated: on a page with one card whose request is rejected,
    the cache stays empty, and yet the next scan sends no request: the only
    request ever sent is the first one. *)
Lemma transport_failure_counterexample :
  let pg1 := scan (page_of single) in
  let pg2 := deliver 0 unreachable pg1 in
  let pg3 := scan pg2 in
  tasks pg1 = [{| task_element := 3; task_awaiting := AwaitFetch "Opt" |}] ∧
  requests (resolver pg1) = [searchUrl "Opt"] ∧
  length (console (resolver pg2)) = 1 ∧
  priceCache (resolver pg2) !! "Opt" = None ∧
  querySelectorAll sel_card (page_dom pg2) 0 = [] ∧
  requests (resolver pg3) = [searchUrl "Opt"] ∧
  tasks pg3 = [].
Proof. vm_compute. repeat split; reflexivity. Qed.

Lemma transport_failure_witness :
  let transport := λ _ : string, unreachable in
  let e := TypeError "NetworkError when attempting to fetch resource." in
  let entry := {| log_message := error_message "Opt"; log_error := e |} in
  let st1 := with_log (with_request fresh (searchUrl "Opt")) entry in
  let pg := scan (page_of single) in
  (getCardPrice transport "Opt" fresh = (RNull, st1) ∧
   priceCache st1 = priceCache fresh ∧
   getCardPrice transport "Opt" st1
   = (RNull, with_log (with_request st1 (searchUrl "Opt")) entry)) ∧
  (deliver 0 unreachable pg
   = {| page_dom := page_dom pg; resolver := with_log (resolver pg) entry;
        tasks := delete 0 (tasks pg) |} ∧
   ∀ n, 3 ∉ querySelectorAll sel_card (page_dom (deliver 0 unreachable pg)) n).
Proof.
  intros transport e entry st1 pg.
  destruct (transport_failure_is_logged_not_cached (number := Decimal.t) "Opt")
    as [Hresolver Hpage].
  split.
  - apply (Hresolver transport fresh e); vm_compute; reflexivity.
  - apply (Hpage pg 0 3 unreachable e).
    + vm_compute; reflexivity.
    + reflexivity.
    + vm_compute. eexists; reflexivity.
Defined.

(** C7 fails as stated: the result has a price, the price is zero, and the
    annotator inserts nothing. *)
Lemma zero_price_counterexample :
  PriceResult.price zero_result = Some (Decimal.Finite 0) ∧
  addPriceToCard_finish 3 (RResult zero_result) single = single.
Proof. vm_compute. split; reflexivity. Qed.

Lemma single_ids (x : nat) : is_Some (node single x) → (x < 5)%nat.
Proof.
  intros [nd Hx]. unfold node in Hx.
  apply elem_of_map_to_list in Hx.
  revert Hx. generalize (eq_refl (map_to_list (nodes single))).
  generalize (map_to_list (nodes single)) at 1 3. intros l Hl.
  vm_compute in Hl. subst l.
  rewrite !elem_of_cons. rewrite elem_of_nil.
  intros [Hc|[Hc|[Hc|[Hc|[Hc|[]]]]]]; injection Hc as -> _; lia.
Qed.

Lemma single_well_formed_3 : well_formed_at single 3.
Proof.
  split.
  - apply single_ids.
  - vm_compute. eexists; reflexivity.
  - intros nd q Hnd Hq. vm_compute in Hnd. injection Hnd as <-.
    cbn in Hq. injection Hq as <-.
    eexists. split; [vm_compute; reflexivity|]. cbn [childNodes]. split.
    + apply NoDup_cons. split; [|apply NoDup_singleton].
      rewrite list_elem_of_singleton. lia.
    + apply elem_of_cons. right. apply elem_of_cons. by left.
Qed.

Lemma annotation_witness :
  let d' := addPriceToCard_finish 3 (RResult opt_result) single in
  addPriceToCard_finish 3 (RResult zero_result) single = single ∧
  node single 5 = None ∧
  (∃ kids, node d' 5 = Some (container_node (Some 1) (6 :: kids))) ∧
  node d' 6 = Some (price_link_node 5 "https://tcg/opt") ∧
  node d' 7 = Some (label_node 5 "$0.25") ∧
  nextSibling d' 3 = Some 5.
Proof.
  intros d'.
  destruct (annotation_inserts_one_cluster (number := Decimal.t)) as [Hnone Hone].
  split; [apply Hnone; vm_compute; reflexivity|].
  destruct (Hone 3 opt_result (Decimal.Finite (1 # 4)) single eq_refl eq_refl
              single_well_formed_3)
    as (Hnew & Hcontainer & Hlink & Hlabel & _ & _ & Hplace).
  split; [exact Hnew|]. split; [exact Hcontainer|].
  split; [exact Hlink|]. split; [exact Hlabel|].
  exact (proj1 Hplace).
Defined.

(** The card of the page gets its cluster as next sibling; the card that has
    no parent gets it as its last child. *)
Example cluster_after_card :
  let d' := addPriceToCard_finish 3 (RResult opt_result) single in
  (childNodes <$> node d' 1) = Some [2; 3; 5] ∧
  (childNodes <$> node d' 5) = Some [6; 8; 10] ∧
  textContent d' 5 = "$0.25ScryfallEDHREC" ∧
  priceAdded d' 3 = priceAdded single 3.
Proof. vm_compute. repeat split; reflexivity. Qed.

Example cluster_inside_orphan :
  let d' := addPriceToCard_finish 4 (RResult opt_result) single in
  parentElement single 4 = None ∧
  (childNodes <$> node d' 4) = Some [5] ∧
  (parentNode <$> node d' 5) = Some (Some 4).
Proof. vm_compute. repeat split; reflexivity. Qed.

Lemma zero_price_witness :
  let pg := scan (page_of single) in
  let pg' := deliver 0 (FetchResponse true 200 (Parsed (Some [free]))) pg in
  (addPriceToCard_finish 3 (RResult zero_result) single = single) ∧
  cheapestPrice (scan_printings (number := Decimal.t) [free]) = Some (Decimal.Finite 0) ∧
  page_dom pg' = page_dom pg ∧
  ∃ r, priceCache (resolver pg') !! "Opt" = Some r ∧
       PriceResult.price r = Some (Decimal.Finite 0).
Proof.
  intros pg pg'.
  destruct (zero_price_is_not_shown (number := Decimal.t)) as [Hfinish Hdeliver].
  split; [exact (proj1 (Hfinish 3 zero_result (Decimal.Finite 0) single eq_refl eq_refl))|].
  split; [vm_compute; reflexivity|].
  apply (Hdeliver pg 0 3 "Opt" 200 free [] (Decimal.Finite 0)).
  - vm_compute; reflexivity.
  - vm_compute; reflexivity.
  - reflexivity.
Defined.

Local Open Scope nat_scope.



Example burst_scan_times :
  scans (run (map Mutation [2100; 2150; 2200; 2250; 2300; 2350; 2400; 2450; 2500; 2550]
              ++ [Idle 5000])
           (run [Idle 2000] (load (page_of gallery))))
  = [2000; 2850].
Proof. vm_compute. reflexivity. Qed.
End Cases.

(** * Further properties *)


(** ** Card names *)

Section NameExtras.
Import Str DOM DomAux DomFacts.

Lemma face_filter (c : option string) (name : string) :
  match c with
  | Some n => if truthy n && bool_decide (toLowerCase n ∈ invalidNames) then None else c
  | None => c
  end = Some name →
  c = Some name ∧ toLowerCase name ∉ invalidNames.
Proof.
  destruct c as [n|]; [|done].
  destruct (truthy n) eqn:Hn; cbn [andb].
  - case_bool_decide; [done|]. by intros [= ->].
  - intros [= ->]. split; [done|].
    unfold truthy in Hn. apply negb_false_iff, String.eqb_eq in Hn. subst name.
    vm_compute. intros H. by repeat (apply elem_of_cons in H as [H|H]; [done|]); apply elem_of_nil in H.
Qed.

(** X1. Whatever the element, a name returned by [getCardName] is never one of the
    face indicators (front, back, transform), in any letter case. *)
Theorem getCardName_never_face_indicator (d : DomStore) (element : nat) (name : string) :
  getCardName d element = Some name →
  toLowerCase name ∉ invalidNames.
Proof.
  unfold getCardName. cbv zeta. intros H. by apply face_filter in H as [_ H].
Qed.

Lemma or_else_truthy (a : string) (b : option string) :
  truthy a = true → or_else (Some a) b = Some a.
Proof. intros Ha. unfold or_else. cbn [truthy_opt]. by rewrite Ha. Qed.

(** X2. For an image element with a non-empty [alt], [getCardName] decides on
    the [alt] alone: null when it is a face indicator, the [alt] otherwise.
    The data attributes and the title are not consulted. *)
Theorem getCardName_image_alt (d : DomStore) (element : nat) (alt : string) :
  tagName d element = Some "IMG"%string →
  getAttribute d element "alt" = Some alt →
  truthy alt = true →
  getCardName d element
  = if bool_decide (toLowerCase alt ∈ invalidNames) then None else Some alt.
Proof.
  intros Htag Halt Ht. unfold getCardName, image_name, reflected.
  rewrite Htag, Halt. rewrite bool_decide_true by done.
  cbn [default]. rewrite (or_else_truthy _ _ Ht).
  cbv zeta. repeat (cbn [truthy_opt negb andb]; rewrite ?Ht). done.
Qed.

(** X3. For an element that is not an image, the [alt] of its first descendant
    image, when non-empty, decides in the same way, before any data
    attribute or title of the element. *)
Theorem getCardName_nested_image (d : DomStore) (element img : nat) (alt : string) :
  tagName d element ≠ Some "IMG"%string →
  querySelector (sel_tag "IMG") d element = Some img →
  getAttribute d img "alt" = Some alt →
  truthy alt = true →
  getCardName d element
  = if bool_decide (toLowerCase alt ∈ invalidNames) then None else Some alt.
Proof.
  intros Htag Himg Halt Ht. unfold getCardName.
  rewrite bool_decide_false by done. cbn [truthy_opt negb]. rewrite Himg.
  unfold image_name, reflected. rewrite Halt.
  cbn [default]. rewrite (or_else_truthy _ _ Ht).
  repeat (cbn [truthy_opt negb andb]; rewrite ?Ht). done.
Qed.

(** X4. [getCardName] does not read the processed marker: setting
    [data-price-added] on any node leaves the name of every element
    unchanged. *)
Theorem getCardName_ignores_marker (d : DomStore) (marked : nat) (v : string) (element : nat) :
  getCardName (setAttribute d marked "data-price-added" v) element
  = getCardName d element.
Proof. apply getCardName_marked. Qed.
End NameExtras.

(** ** Search URL and slug *)

Module TextExtras.
Import Str Slug SlugAux SlugFacts Uri TextAux.
Local Open Scope string_scope.

Lemma hex_digit_unreserved (c : ascii) :
  unreserved (hex_digit (code c / 16)) = true ∧
  unreserved (hex_digit (code c mod 16)) = true.
Proof. destruct c as [[] [] [] [] [] [] [] []]; vm_compute; done. Qed.

Lemma hex_digit_inj (n m : nat) :
  (n < 16)%nat → (m < 16)%nat → hex_digit n = hex_digit m → n = m.
Proof.
  intros Hn Hm.
  do 16 (destruct n as [|n];
         [do 16 (destruct m as [|m]; [vm_compute; congruence|]); lia|]).
  lia.
Qed.

Lemma code_bound (c : ascii) : (code c < 256)%nat.
Proof. destruct c as [[] [] [] [] [] [] [] []]; vm_compute; lia. Qed.

Lemma code_inj (c1 c2 : ascii) : code c1 = code c2 → c1 = c2.
Proof.
  intros Hc. rewrite <- (ascii_nat_embedding c1), <- (ascii_nat_embedding c2).
  unfold code in Hc. by rewrite Hc.
Qed.

Lemma percent_reserved : unreserved "%" = false.
Proof. reflexivity. Qed.

Lemma escape_inj (h1 l1 h2 l2 : ascii) (r1 r2 : string) :
  String "%" (String h1 (String l1 r1)) = String "%" (String h2 (String l2 r2)) →
  h1 = h2 ∧ l1 = l2 ∧ r1 = r2.
Proof. by intros [= -> -> ->]. Qed.

Lemma encode_inj (s1 s2 : string) :
  encodeURIComponent s1 = encodeURIComponent s2 → s1 = s2.
Proof.
  revert s2. induction s1 as [|c1 s1 IH]; intros [|c2 s2]; cbn [encodeURIComponent].
  - done.
  - by destruct (unreserved c2).
  - by destruct (unreserved c1).
  - destruct (unreserved c1) eqn:H1, (unreserved c2) eqn:H2.
    + intros [= -> Hs]. by rewrite (IH s2 Hs).
    + intros [= -> _]. by rewrite percent_reserved in H1.
    + intros [= <- _]. by rewrite percent_reserved in H2.
    + intros (Hhi & Hlo & Hs)%escape_inj. rewrite (IH s2 Hs). f_equal.
      pose proof (code_bound c1). pose proof (code_bound c2).
      apply hex_digit_inj in Hhi;
        [|apply Nat.Div0.div_lt_upper_bound; lia|apply Nat.Div0.div_lt_upper_bound; lia].
      apply hex_digit_inj in Hlo; [|apply Nat.mod_upper_bound; lia..].
      apply code_inj.
      rewrite (Nat.div_mod_eq (code c1) 16), (Nat.div_mod_eq (code c2) 16).
      by rewrite Hhi, Hlo.
Qed.

Lemma append_char_inj (x y : string) (q : ascii) :
  x +:+ String q EmptyString = y +:+ String q EmptyString → x = y.
Proof.
  revert y. induction x as [|a x IH]; intros [|b y]; cbn.
  - done.
  - intros [= _ Hy]. by destruct y.
  - intros [= _ Hx]. by destruct x.
  - intros [= -> Hxy]. by rewrite (IH y Hxy).
Qed.

(** X13. The encoded card name consists of unreserved characters and [%] only,
    a name of unreserved characters is encoded as itself, and distinct
    names give distinct search URLs. *)
Theorem encoded_name_is_safe_and_distinct :
  (∀ s, all_chars (fun c => unreserved c || Ascii.eqb c "%") (encodeURIComponent s) = true) ∧
  (∀ s, all_chars unreserved s = true → encodeURIComponent s = s) ∧
  (∀ a b, searchUrl a = searchUrl b → a = b).
Proof.
  split; [|split].
  - induction s as [|c s IH]; [done|]. cbn [encodeURIComponent].
    destruct (unreserved c) eqn:Hc; cbn [all_chars].
    + by rewrite Hc, IH.
    + destruct (hex_digit_unreserved c) as [-> ->]. by rewrite IH.
  - induction s as [|c s IH]; [done|]. cbn [all_chars encodeURIComponent].
    intros [Hc Hs]%andb_true_iff. by rewrite Hc, IH.
  - intros a b Hab. unfold searchUrl in Hab.
    apply String.app_inj in Hab. apply String.app_inj in Hab.
    apply append_char_inj in Hab. by apply encode_inj.
Qed.

(** *** The shape of the slug *)

Lemma all_chars_trim_left p s :
  all_chars p s = true → all_chars p (spec_trim_left s) = true.
Proof.
  induction s as [|c s IH]; [done|]. cbn [all_chars spec_trim_left].
  intros [Hc Hs]%andb_true_iff. destruct (is_hyphen c); [by apply IH|].
  cbn [all_chars]. by rewrite Hc, Hs.
Qed.

Lemma all_chars_trim_right p s :
  all_chars p s = true → all_chars p (spec_trim_right s) = true.
Proof.
  induction s as [|c s IH]; [done|]. cbn [all_chars spec_trim_right].
  intros [Hc Hs]%andb_true_iff. specialize (IH Hs).
  destruct (spec_trim_right s) as [|b r].
  - destruct (is_hyphen c); [done|]. cbn [all_chars]. by rewrite Hc.
  - cbn [all_chars] in *. by rewrite Hc, IH.
Qed.

Lemma all_chars_collapse name :
  all_chars (fun c => is_az09 c || is_hyphen c) (spec_collapse (toLowerCase name)) = true.
Proof.
  induction name as [|c name IH]; [done|]. cbn [toLowerCase spec_collapse].
  rewrite lower_char_class. destruct (is_az09 (lower_char c)) eqn:Hc.
  - cbn [all_chars]. by rewrite Hc, IH.
  - destruct (spec_collapse (toLowerCase name)) as [|b t]; [done|].
    destruct b as [[] [] [] [] [] [] [] []]; try done.
Qed.

Lemma trim_left_no_hyphen s : startsWith "-" (spec_trim_left s) = false.
Proof.
  induction s as [|c s IH]; [done|]. cbn [spec_trim_left].
  destruct (is_hyphen c) eqn:Hc; [done|].
  cbn [startsWith]. unfold is_hyphen in Hc. rewrite Ascii.eqb_sym. by rewrite Hc.
Qed.

Lemma trim_right_head s :
  startsWith "-" s = false → startsWith "-" (spec_trim_right s) = false.
Proof.
  destruct s as [|c s]; [done|]. cbn [spec_trim_right].
  destruct (spec_trim_right s); [|done].
  intros Hc. destruct (is_hyphen c); [done|]. exact Hc.
Qed.

Lemma trim_right_no_hyphen s : ends_with_hyphen (spec_trim_right s) = false.
Proof.
  induction s as [|c s IH]; [done|]. cbn [spec_trim_right].
  destruct (spec_trim_right s) as [|b r].
  - destruct (is_hyphen c) eqn:Hc; [done|]. exact Hc.
  - exact IH.
Qed.

Lemma single_trim_left s :
  single_hyphens s = true → single_hyphens (spec_trim_left s) = true.
Proof.
  induction s as [|c s IH]; [done|]. intros Hs. cbn [spec_trim_left].
  destruct (is_hyphen c); [|done]. apply IH. by eapply single_hyphens_tail.
Qed.

Lemma trim_right_first c s b r :
  spec_trim_right (String c s) = String b r → b = c.
Proof.
  cbn [spec_trim_right]. destruct (spec_trim_right s).
  - destruct (is_hyphen c); [done|]. by intros [= <-].
  - by intros [= <-].
Qed.

Lemma single_trim_right s :
  single_hyphens s = true → single_hyphens (spec_trim_right s) = true.
Proof.
  induction s as [|c s IH]; [done|]. intros Hs.
  specialize (IH (single_hyphens_tail _ _ Hs)).
  cbn [spec_trim_right].
  destruct (spec_trim_right s) as [|b r] eqn:Hr.
  - by destruct (is_hyphen c).
  - destruct s as [|b' s']; [done|].
    apply trim_right_first in Hr as Hb. subst b'.
    change (negb (is_hyphen c && is_hyphen b) && single_hyphens (String b s') = true) in Hs.
    change (negb (is_hyphen c && is_hyphen b) && single_hyphens (String b r) = true).
    apply andb_true_iff in Hs as [Hcb _]. by rewrite Hcb, IH.
Qed.

Lemma single_no_double s : single_hyphens s = true → includes "--" s = false.
Proof.
  induction s as [|a s IH]; [done|]. intros Hs.
  specialize (IH (single_hyphens_tail _ _ Hs)).
  cbn [includes]. rewrite IH, orb_false_r.
  destruct s as [|b s]; cbn [startsWith]; [by rewrite andb_false_r|].
  change (negb (is_hyphen a && is_hyphen b) && single_hyphens (String b s) = true) in Hs.
  apply andb_true_iff in Hs as [Hab _].
  unfold is_hyphen in Hab. rewrite (Ascii.eqb_sym "-" a), (Ascii.eqb_sym "-" b).
  rewrite andb_true_r. by apply negb_true_iff in Hab.
Qed.

(** X14. The EDHREC slug of any name consists of [a-z], [0-9] and [-] only, does
    not begin or end with a hyphen and has no two hyphens in a row. *)
Theorem slug_is_url_safe (name : string) :
  all_chars (fun c => is_az09 c || is_hyphen c) (slug name) = true ∧
  startsWith "-" (slug name) = false ∧
  ends_with_hyphen (slug name) = false ∧
  includes "--" (slug name) = false.
Proof.
  rewrite slug_spec. unfold spec_slug.
  pose proof (spec_collapse_single (toLowerCase name)) as Hs.
  split; [|split; [|split]].
  - apply all_chars_trim_right, all_chars_trim_left, all_chars_collapse.
  - apply trim_right_head, trim_left_no_hyphen.
  - apply trim_right_no_hyphen.
  - apply single_no_double, single_trim_right, single_trim_left, Hs.
Qed.
End TextExtras.

(** ** The resolver *)

Section ResolverExtras.
Context {number : Type} `{!JSNumber number}.
Import Str DOM DomAux DomFacts.

(** X9. Settling a response never sends a request and ends in one of two ways:
    null, with the cache unchanged and at most one entry, carrying the
    card name, added to the diagnostic channel; or a result, stored in the
    cache under the name, with nothing logged. *)
Theorem settle_returns_or_logs (cardName : string) (o : FetchOutcome)
    (st : Resolver number) :
  requests (snd (getCardPrice_settle cardName o st)) = requests st ∧
  ((fst (getCardPrice_settle cardName o st) = RNull ∧
    priceCache (snd (getCardPrice_settle cardName o st)) = priceCache st ∧
    (console (snd (getCardPrice_settle cardName o st)) = console st ∨
     ∃ e, console (snd (getCardPrice_settle cardName o st))
          = console st ++ [{| log_message := error_message cardName; log_error := e |}])) ∨
   (∃ r, fst (getCardPrice_settle cardName o st) = RResult r ∧
         priceCache (snd (getCardPrice_settle cardName o st))
         = <[cardName := r]> (priceCache st) ∧
         console (snd (getCardPrice_settle cardName o st)) = console st)).
Proof.
  destruct o as [e|ok status body];
    [|destruct ok; [destruct body as [e|[[|card cards]|]]|]].
  - rewrite (settle_failure _ _ e) by done. split; [done|]. left.
    split; [done|]. split; [done|]. right. by eexists.
  - rewrite settle_invalid_json. split; [done|]. left.
    split; [done|]. split; [done|]. right. by eexists.
  - rewrite settle_empty by eauto. split; [done|]. left.
    split; [done|]. split; [done|]. by left.
  - rewrite settle_printings. split; [done|]. right. by eexists.
  - rewrite settle_empty by eauto. split; [done|]. left.
    split; [done|]. split; [done|]. by left.
  - rewrite (settle_failure _ _ (Error ("API returned status " +:+ pretty status))) by done.
    split; [done|]. left. split; [done|]. split; [done|]. right. by eexists.
Qed.

(** X10. A response with printings of which none has a usable price gives a
    result with price and purchase URL both null, and that result is
    cached: a second call for the name returns it without a request,
    whatever the transport would answer. *)
Theorem priceless_result_is_cached (transport transport' : string → FetchOutcome)
    (cardName : string) (st : Resolver number) (status : nat)
    (card : Card) (cards : list Card) :
  cache_get (priceCache st) cardName = None →
  transport (searchUrl cardName)
  = FetchResponse true status (Parsed (Some (card :: cards))) →
  candidates (card :: cards) = [] →
  ∃ r st1,
    getCardPrice transport cardName st = (RResult r, st1) ∧
    PriceResult.price r = None ∧
    PriceResult.purchaseUrl r = None ∧
    requests st1 = requests st ++ [searchUrl cardName] ∧
    getCardPrice transport' cardName st1 = (RResult r, st1).
Proof.
  intros Hmiss Ht Hc.
  pose proof (scan_printings_holds (card :: cards)) as Hh.
  rewrite Hc in Hh. destruct Hh as [Hp Hu].
  eexists _, _. unfold getCardPrice at 1.
  rewrite (lookup_miss _ _ Hmiss), Ht, settle_printings.
  split; [done|]. split; [done|]. split; [done|]. split; [done|].
  unfold getCardPrice. cbn [priceCache with_cache].
  by rewrite (lookup_hit _ _ _ (lookup_insert_eq _ _ _)).
Qed.

(** X11. A card named like a member of [Object.prototype] (constructor,
    toString, ...) passes the cache test [priceCache[cardName]] on the empty
    cache: no request is sent, the inherited member is returned, and the
    annotator inserts nothing for it. *)
Theorem inherited_name_is_not_fetched (transport : string → FetchOutcome)
    (cardName : string) (st : Resolver number) :
  cardName ∈ Object_prototype_keys →
  priceCache st !! cardName = None →
  getCardPrice transport cardName st = (RInherited cardName, st) ∧
  ∀ el d, addPriceToCard_finish el (RInherited cardName : Resolved number) d = d.
Proof.
  intros Hk Hc. split; [|done].
  unfold getCardPrice, getCardPrice_lookup, cache_get.
  by rewrite Hc, bool_decide_true.
Qed.
End ResolverExtras.

(** ** The annotator *)

Section AnnotatorExtras.
Context {number : Type} `{!JSNumber number}.
Import Str DOM DomAux DomFacts.

Lemma append_link_lacks tok d0 d kids href cls text :
  building d0 d kids →
  bool_decide (tok ∈ tokens cls) = false →
  (∀ x nd, nextId d0 < x → node d x = Some nd → sel_class tok nd = false) →
  ∀ x nd, nextId d0 < x →
          node (append_link (nextId d0) href cls text d) x = Some nd →
          sel_class tok nd = false.
Proof.
  intros [Hold Hc Hn Hnew] Hcls Hlack x nd Hx.
  rewrite (node_append_link _ _ href cls text d x Hc Hn).
  apply bool_decide_eq_false in Hcls.
  repeat case_decide; try lia; try (by apply Hlack); intros [= <-]; try done.
  all: unfold sel_class, node_attribute; cbn.
  all: unfold link_attributes; rewrite lookup_insert_eq.
  all: by apply bool_decide_eq_false.
Qed.

Lemma container_lacks tok parent kids :
  bool_decide (tok ∈ tokens "moxfield-card-links") = false →
  sel_class tok (container_node parent kids) = false.
Proof.
  intros Htok. unfold sel_class, node_attribute, container_node. cbn [content].
  by rewrite lookup_singleton_eq.
Qed.

Lemma insert_links_lacks tok el (r : PriceResult.t number) p d :
  well_formed_at d el →
  bool_decide (tok ∈ tokens "moxfield-card-links") = false →
  bool_decide (tok ∈ tokens "moxfield-card-price") = false →
  bool_decide (tok ∈ tokens "moxfield-card-link") = false →
  ∀ x nd', node (snd (insert_links el r p d)) x = Some nd' →
           sel_class tok nd' = true →
           ∃ nd, node d x = Some nd ∧ content nd = content nd'.
Proof.
  intros Hwf Htok1 Htok2 Htok3. unfold insert_links.
  destruct (createElement "DIV" d) as [c d1] eqn:Hf.
  assert (c = nextId d) as -> by (by apply (f_equal fst) in Hf).
  assert (d1 = snd (createElement "DIV" d)) as -> by (by rewrite Hf).
  clear Hf.
  destruct (building_start d el Hwf) as [Hb2 Hn2].
  set (d2 := setAttribute _ _ "class" "moxfield-card-links") in *.
  assert (∀ x nd, nextId d < x → node d2 x = Some nd → sel_class tok nd = false) as Hl2.
  { intros x nd Hx. subst d2. unfold createElement.
    rewrite node_setAttribute, !node_fresh_node. destruct Hwf as [Hfresh _ _].
    repeat case_decide; try lia; intros Hn;
      assert (x < nextId d) by (apply Hfresh; by rewrite Hn); lia. }
  set (href := default "null"%string (PriceResult.purchaseUrl r)).
  set (d3 := append_link (nextId d) href "moxfield-card-price" (price_label p) d2).
  assert (∃ kids, building d d3 kids ∧
            ∀ x nd, nextId d < x → node d3 x = Some nd → sel_class tok nd = false)
    as (kids3 & Hb3 & Hl3).
  { eexists. split.
    - by apply (building_append_link d d2 [] href "moxfield-card-price" (price_label p) Hb2).
    - by apply (append_link_lacks tok d d2 []). }
  clearbody d3. clear Hb2 Hn2 Hl2 d2.
  set (d4 := match PriceResult.scryfallUrl r with Some u => _ | None => d3 end).
  assert (∃ kids, building d d4 kids ∧
            ∀ x nd, nextId d < x → node d4 x = Some nd → sel_class tok nd = false)
    as (kids4 & Hb4 & Hl4).
  { subst d4. destruct (PriceResult.scryfallUrl r) as [u|]; [|by eexists].
    destruct (truthy u); [|by eexists].
    eexists. split.
    - by apply (building_append_link d d3 kids3 u "moxfield-card-link" "Scryfall" Hb3).
    - by apply (append_link_lacks tok d d3 kids3). }
  clearbody d4. clear Hb3 Hl3 d3.
  set (d5 := if truthy (PriceResult.edhrecUrl r) then _ else d4).
  assert (∃ kids, building d d5 kids ∧
            ∀ x nd, nextId d < x → node d5 x = Some nd → sel_class tok nd = false)
    as (kids5 & Hb5 & Hl5).
  { subst d5. destruct (truthy _); [|by eexists].
    eexists. split.
    - by apply (building_append_link d d4 kids4 _ "moxfield-card-link" "EDHREC" Hb4).
    - by apply (append_link_lacks tok d d4 kids4). }
  clearbody d5. clear Hb4 Hl4 d4.
  pose proof (place_cluster d d5 kids5 el Hb5 Hwf) as Hplace.
  set (d' := snd _).
  assert (d' = match parentElement d5 el with
               | Some parent => insertBefore d5 parent (nextId d) (nextSibling d5 el)
               | None => appendChild d5 el (nextId d)
               end) as Hd'.
  { subst d'. by destruct (parentElement d5 el). }
  rewrite <- Hd' in Hplace. clearbody d'. clear Hd'.
  destruct Hb5 as [Hold Hc Hn Hnew]. destruct Hwf as [Hfresh [nd0 Hel] Hpar].
  assert (el < nextId d) as Hellt by (apply Hfresh; by rewrite Hel).
  intros x nd' Hx Hcls.
  assert (∀ nd'', node d5 x = Some nd'' → nextId d ≠ x →
                  sel_class tok nd'' = true →
                  ∃ nd, node d x = Some nd ∧ content nd = content nd'') as Hrest.
  { intros nd'' Hx5 Hne Hcls5.
    destruct (decide (x < nextId d)) as [Hlt|Hge].
    - rewrite Hold in Hx5 by done. by exists nd''.
    - rewrite (Hl5 x nd'') in Hcls5; [done|lia|done]. }
  unfold placed in Hplace.
  destruct (parentElement d el) as [parent|].
  - destruct Hplace as (pn & l1 & l2 & Hpn & _ & _ & Hnode).
    rewrite Hnode in Hx.
    destruct (decide (nextId d = x)) as [Hcx|Hcx].
    + injection Hx as <-. by rewrite container_lacks in Hcls.
    + destruct (decide (parent = x)) as [Hpx|Hpx].
      * injection Hx as <-. subst x. by exists pn.
      * by apply Hrest.
  - destruct Hplace as (nd1 & Hnd1 & Hnode).
    rewrite Hnode in Hx.
    destruct (decide (nextId d = x)) as [Hcx|Hcx].
    + injection Hx as <-. by rewrite container_lacks in Hcls.
    + destruct (decide (el = x)) as [Hpx|Hpx].
      * injection Hx as <-. subst x. by exists nd1.
      * by apply Hrest.
Qed.

Lemma sel_card_content nd nd' : content nd = content nd' → sel_card nd = sel_card nd'.
Proof.
  intros Hc. unfold sel_card, sel_class, sel_has_attr, node_attribute. by rewrite Hc.
Qed.

(** X17. The nodes the annotator creates are not card candidates, and it turns no
    existing node into one: every element matching the scan selector after
    the annotation matched it before, so inserted links are never price
    targets themselves. *)
Theorem annotation_creates_no_candidate (cardElement : nat) (result : Resolved number)
    (d : DomStore) (x : nat) (nd' : Node) :
  well_formed_at d cardElement →
  node (addPriceToCard_finish cardElement result d) x = Some nd' →
  sel_card nd' = true →
  ∃ nd, node d x = Some nd ∧ sel_card nd = true.
Proof.
  intros Hwf Hx Hsel.
  assert (node d x = Some nd' → ∃ nd, node d x = Some nd ∧ sel_card nd = true) as Hsame
    by (intros Hd; by exists nd').
  destruct result as [|r|key]; cbn [addPriceToCard_finish] in Hx; try by apply Hsame.
  destruct (PriceResult.price r) as [p|]; [|by apply Hsame].
  destruct (num_truthy p); [|by apply Hsame].
  assert (sel_class "img-card" nd' = true) as Hcls.
  { unfold sel_card in Hsel. by apply andb_true_iff in Hsel as [Hsel _]. }
  destruct (insert_links_lacks "img-card" cardElement r p d Hwf
              eq_refl eq_refl eq_refl x nd' Hx Hcls) as (nd & Hnd & Hc).
  exists nd. split; [done|]. by rewrite (sel_card_content nd nd').
Qed.
End AnnotatorExtras.

(** ** Scans *)

Section ScanExtras.
Context {number : Type} `{!JSNumber number}.
Import Str DOM DomAux DomFacts.

(** What [addPriceToCard] does to the DOM before it suspends. *)
Lemma begin_dom (pg : Page number) el :
  page_dom (addPriceToCard_begin el pg)
  = if truthy_opt (priceAdded (page_dom pg) el) then page_dom pg
    else setAttribute (page_dom pg) el "data-price-added" "true".
Proof.
  unfold addPriceToCard_begin.
  destruct (truthy_opt (priceAdded (page_dom pg) el)); [done|].
  destruct (getCardName _ el) as [name|]; [|done].
  destruct (truthy name); [|done].
  by destruct (getCardPrice_lookup _ name).
Qed.


(** Marking keeps the markers there are, the tag names, the classes, the
    tree and the view mode control. *)
Lemma marker_kept d el v x :
  is_Some (getAttribute d x "data-price-added") →
  is_Some (getAttribute (setAttribute d el "data-price-added" v) x "data-price-added").
Proof.
  unfold getAttribute. rewrite node_setAttribute.
  case_decide; [subst x|done].
  destruct (node d el) as [nd|]; cbn; [|done].
  unfold with_attribute, node_attribute.
  destruct (content nd) eqn:Hc; cbn; rewrite ?Hc; try done.
  intros _. rewrite lookup_insert_eq. by eexists.
Qed.

Lemma sel_card_marked_node d el v x nd' :
  node (setAttribute d el "data-price-added" v) x = Some nd' →
  is_element nd' && sel_card nd' = true →
  x ≠ el ∧ ∃ nd, node d x = Some nd ∧ is_element nd && sel_card nd = true.
Proof.
  rewrite node_setAttribute. case_decide as Hx.
  - subst x. destruct (node d el) as [nd|]; cbn; [|done].
    intros [= <-]. unfold with_attribute, sel_card, sel_has_attr, node_attribute, is_element.
    destruct (content nd) eqn:Hc; cbn; rewrite ?Hc; try done.
    rewrite lookup_insert_eq. rewrite bool_decide_true by by eexists.
    by rewrite andb_false_r.
  - intros Hn Hs. split; [done|]. by exists nd'.
Qed.

Lemma selection_after_marking d el v n x :
  x ∈ querySelectorAll sel_card (setAttribute d el "data-price-added" v) n →
  x ≠ el ∧ x ∈ querySelectorAll sel_card d n.
Proof.
  unfold querySelectorAll. rewrite !list_elem_of_In, !filter_In.
  rewrite unread_descendants. intros [Hin Hsel].
  destruct (node (setAttribute d el "data-price-added" v) x) as [nd'|] eqn:Hn; [|done].
  destruct (sel_card_marked_node d el v x nd' Hn Hsel) as (Hne & nd & Hnd & Hs).
  split; [done|]. split; [done|]. by rewrite Hnd.
Qed.

Lemma selected_is_element d n x :
  x ∈ querySelectorAll sel_card d n → is_Some (tagName d x).
Proof.
  unfold querySelectorAll. rewrite list_elem_of_In, filter_In. intros [_ Hsel].
  unfold tagName. destruct (node d x) as [nd|]; [|done]. cbn.
  unfold is_element in Hsel. by destruct (content nd).
Qed.


(** The DOM after the elements of a list have been processed is the DOM
    with the unmarked ones marked. *)
Lemma fold_begin_dom (els : list nat) (pg : Page number) :
  page_dom (fold_left (fun acc el => addPriceToCard_begin el acc) els pg)
  = fold_left (fun d el => if truthy_opt (priceAdded d el) then d
                           else setAttribute d el "data-price-added" "true")
      els (page_dom pg).
Proof.
  revert pg. induction els as [|el els IH]; intros pg; [done|].
  cbn [fold_left]. by rewrite IH, begin_dom.
Qed.

Lemma fold_mark_selection (els : list nat) d n x :
  x ∈ querySelectorAll sel_card
        (fold_left (fun d el => if truthy_opt (priceAdded d el) then d
                                else setAttribute d el "data-price-added" "true")
           els d) n →
  (x ∉ els) ∧ x ∈ querySelectorAll sel_card d n.
Proof.
  revert d. induction els as [|el els IH]; intros d Hx; cbn [fold_left] in Hx.
  - split; [|done]. apply not_elem_of_nil.
  - apply IH in Hx as [Hx1 Hx2].
    destruct (truthy_opt (priceAdded d el)) eqn:Hm.
    + split; [|done]. apply not_elem_of_cons. split; [|done].
      intros ->. revert Hx2. apply marked_not_selected.
      unfold priceAdded in Hm. by destruct (getAttribute d el "data-price-added").
    + apply selection_after_marking in Hx2 as [Hne Hx2].
      split; [|done]. by apply not_elem_of_cons.
Qed.

Lemma fold_mark_document (els : list nat) d :
  document (fold_left (fun d el => if truthy_opt (priceAdded d el) then d
                                   else setAttribute d el "data-price-added" "true")
              els d) = document d.
Proof.
  revert d. induction els as [|el els IH]; intros d; [done|].
  cbn [fold_left]. rewrite IH. destruct (truthy_opt _); [done|].
  apply document_setAttribute.
Qed.

(** X5. A scan marks every card it selects: after [processCards] in spoiler
    view no element matches [.img-card:not([data-price-added])], and an
    immediate second scan changes nothing. *)
Theorem processCards_leaves_no_candidate (pg : Page number) :
  (isSpoilerViewMode (page_dom pg) = true →
   querySelectorAll sel_card (page_dom (processCards pg))
     (document (page_dom (processCards pg))) = []) ∧
  processCards (processCards pg) = processCards pg.
Proof.
  assert (isSpoilerViewMode (page_dom pg) = true →
          querySelectorAll sel_card (page_dom (processCards pg))
            (document (page_dom (processCards pg))) = []) as Hnone.
  { intros Hgate. unfold processCards. rewrite Hgate. cbn [negb].
    rewrite fold_begin_dom, fold_mark_document.
    apply elem_of_nil_inv. intros x Hx.
    apply fold_mark_selection in Hx as [Hx1 Hx2]. done. }
  split; [done|].
  destruct (isSpoilerViewMode (page_dom pg)) eqn:Hgate.
  - unfold processCards at 1.
    destruct (isSpoilerViewMode (page_dom (processCards pg))); [|done].
    cbn [negb]. by rewrite Hnone.
  - unfold processCards. rewrite Hgate. cbn [negb]. by rewrite Hgate.
Qed.

(** X6. Two unprocessed cards with the same uncached name, started one after
    the other before any response arrives, send two requests for that
    name: the cache is written only when a response settles, so lookups
    in flight are not shared. *)
Theorem same_name_cards_each_fetch (pg : Page number) (el1 el2 : nat) (cardName : string) :
  el1 ≠ el2 →
  truthy_opt (priceAdded (page_dom pg) el1) = false →
  truthy_opt (priceAdded (page_dom pg) el2) = false →
  getCardName (page_dom pg) el1 = Some cardName →
  getCardName (page_dom pg) el2 = Some cardName →
  truthy cardName = true →
  cache_get (priceCache (resolver pg)) cardName = None →
  let pg' := addPriceToCard_begin el2 (addPriceToCard_begin el1 pg) in
  requests (resolver pg')
  = requests (resolver pg) ++ [searchUrl cardName; searchUrl cardName] ∧
  tasks pg'
  = tasks pg ++ [ {| task_element := el1; task_awaiting := AwaitFetch cardName |};
                  {| task_element := el2; task_awaiting := AwaitFetch cardName |} ].
Proof.
  intros Hne Hm1 Hm2 Hn1 Hn2 Ht Hmiss pg'. subst pg'.
  assert (addPriceToCard_begin el1 pg
          = {| page_dom := setAttribute (page_dom pg) el1 "data-price-added" "true";
               resolver := with_request (resolver pg) (searchUrl cardName);
               tasks := tasks pg ++
                 [{| task_element := el1; task_awaiting := AwaitFetch cardName |}] |}) as ->.
  { unfold addPriceToCard_begin. rewrite Hm1, getCardName_marked, Hn1, Ht.
    by rewrite (lookup_miss _ _ Hmiss). }
  unfold addPriceToCard_begin. cbn [page_dom resolver tasks priceCache with_request].
  assert (priceAdded (setAttribute (page_dom pg) el1 "data-price-added" "true") el2
          = priceAdded (page_dom pg) el2) as ->.
  { unfold priceAdded, getAttribute. rewrite node_setAttribute. by case_decide. }
  rewrite Hm2, !getCardName_marked, Hn2, Ht, (lookup_miss _ _ Hmiss).
  cbn [resolver requests tasks console with_request].
  by rewrite <- !app_assoc.
Qed.

(** X7. An unprocessed card whose name is in the cache is annotated from the
    cached result as soon as the microtasks run: no request is sent, and
    the cache and the diagnostic channel are unchanged. *)
Theorem cached_name_needs_no_request (pg : Page number) (el : nat)
    (cardName : string) (r : PriceResult.t number) :
  tasks pg = [] →
  truthy_opt (priceAdded (page_dom pg) el) = false →
  getCardName (page_dom pg) el = Some cardName →
  truthy cardName = true →
  priceCache (resolver pg) !! cardName = Some r →
  run_microtasks (addPriceToCard_begin el pg)
  = {| page_dom := addPriceToCard_finish el (RResult r)
                     (setAttribute (page_dom pg) el "data-price-added" "true");
       resolver := resolver pg;
       tasks := [] |}.
Proof.
  intros Htasks Hm Hn Ht Hr.
  unfold addPriceToCard_begin. rewrite Hm, getCardName_marked, Hn, Ht.
  rewrite (lookup_hit _ _ _ Hr), Htasks. reflexivity.
Qed.

End ScanExtras.

(** ** Runs of the coordinator *)

Section RunExtras.
Context {number : Type} `{!JSNumber number}.
Import Str DOM DomAux DomFacts.

Lemma begin_resolver_kept (pg : Page number) el :
  priceCache (resolver (addPriceToCard_begin el pg)) = priceCache (resolver pg).
Proof.
  unfold addPriceToCard_begin.
  destruct (truthy_opt (priceAdded (page_dom pg) el)); [done|].
  destruct (getCardName _ el) as [name|]; [|done].
  destruct (truthy name); [|done].
  by destruct (getCardPrice_lookup _ name).
Qed.

Lemma processCards_cache (pg : Page number) :
  priceCache (resolver (processCards pg)) = priceCache (resolver pg).
Proof.
  unfold processCards. destruct (negb _); [done|].
  generalize (querySelectorAll sel_card (page_dom pg) (document (page_dom pg))).
  intros els. revert pg. induction els as [|el els IH]; intros pg; [done|].
  cbn [fold_left]. by rewrite IH, begin_resolver_kept.
Qed.

Lemma run_microtasks_resolver (pg : Page number) :
  resolver (run_microtasks pg) = resolver pg.
Proof.
  unfold run_microtasks.
  assert (∀ ts (start : Page number),
            resolver (fold_left
              (fun acc t =>
                 match task_awaiting t with
                 | AwaitValue v =>
                     {| page_dom := addPriceToCard_finish (task_element t) v (page_dom acc);
                        resolver := resolver acc; tasks := tasks acc |}
                 | AwaitFetch _ =>
                     {| page_dom := page_dom acc; resolver := resolver acc;
                        tasks := tasks acc ++ [t] |}
                 end) ts start) = resolver start) as Hfold.
  { intros ts. induction ts as [|t ts IH]; intros start; [done|].
    cbn [fold_left]. rewrite IH. by destruct (task_awaiting t). }
  by rewrite Hfold.
Qed.

Lemma scan_cache (pg : Page number) :
  priceCache (resolver (scan pg)) = priceCache (resolver pg).
Proof. unfold scan. by rewrite run_microtasks_resolver, processCards_cache. Qed.

Lemma settle_cache_kept cardName o (st : Resolver number) k :
  is_Some (priceCache st !! k) →
  is_Some (priceCache (snd (getCardPrice_settle cardName o st)) !! k).
Proof.
  intros Hk.
  destruct o as [e|ok status body];
    [|destruct ok; [destruct body as [e|[[|card cards]|]]|]].
  - by rewrite (settle_failure _ _ e).
  - by rewrite settle_invalid_json.
  - by rewrite settle_empty by eauto.
  - rewrite settle_printings. cbn [snd priceCache with_cache].
    rewrite lookup_insert. by case_decide.
  - by rewrite settle_empty by eauto.
  - by rewrite (settle_failure _ _ (Error ("API returned status " +:+ pretty status))).
Qed.

Lemma deliver_cache_kept i o (pg : Page number) k :
  is_Some (priceCache (resolver pg) !! k) →
  is_Some (priceCache (resolver (deliver i o pg)) !! k).
Proof.
  intros Hk. unfold deliver.
  destruct (tasks pg !! i) as [[el [v|cardName]]|]; try done.
  pose proof (settle_cache_kept cardName o (resolver pg) k Hk) as Hs.
  by destruct (getCardPrice_settle cardName o (resolver pg)).
Qed.

Lemma run_callback_page cb (w : Window number) :
  page (run_callback cb w) = scan (page w).
Proof.
  destruct cb; unfold run_callback, run_processCards, finish_task;
    by rewrite (proj1 (notify_kept _ _)).
Qed.

Lemma run_due_cache_kept fuel t (w : Window number) k :
  is_Some (priceCache (resolver (page w)) !! k) →
  is_Some (priceCache (resolver (page (run_due fuel t w))) !! k).
Proof.
  revert w. induction fuel as [|fuel IH]; intros w Hk; [done|].
  cbn [run_due]. destruct (earliest (timers w)) as [tm|]; [|done].
  destruct (timer_due tm <=? t); [|done].
  apply IH. rewrite run_callback_page, scan_cache. exact Hk.
Qed.

Lemma observer_callback_page (w : Window number) : page (observer_callback w) = page w.
Proof.
  unfold observer_callback, clearTimeout, setTimeout, with_timers.
  by destruct (observer_timeout w).
Qed.

Lemma step_cache_kept (w : Window number) e k :
  is_Some (priceCache (resolver (page w)) !! k) →
  is_Some (priceCache (resolver (page (step w e))) !! k).
Proof.
  intros Hk.
  assert (∀ t, is_Some (priceCache (resolver (page (advance t w))) !! k)) as Ha.
  { intros t. unfold advance. cbn [page]. by apply run_due_cache_kept. }
  destruct e as [t|t i o|t]; cbn [step].
  - destruct (observing (advance t w)); [|apply Ha].
    rewrite observer_callback_page. apply Ha.
  - rewrite (proj1 (notify_kept _ _)). cbn [with_page page].
    apply deliver_cache_kept, Ha.
  - apply Ha.
Qed.

(** X12. The cache only grows: a name it holds is still held after any sequence
    of mutation notifications, responses and elapsed time. *)
Theorem cache_never_evicts (events : list Event) (w : Window number) (cardName : string) :
  is_Some (priceCache (resolver (page w)) !! cardName) →
  is_Some (priceCache (resolver (page (run events w))) !! cardName).
Proof.
  revert w. induction events as [|e events IH]; intros w Hk; [exact Hk|].
  change (run (e :: events) w) with (run events (step w e)).
  apply IH, step_cache_kept, Hk.
Qed.

Lemma scan_closed (pg : Page number) :
  isSpoilerViewMode (page_dom pg) = false → tasks pg = [] → scan pg = pg.
Proof.
  intros Hg Ht. unfold scan, processCards. rewrite Hg. cbn [negb].
  unfold run_microtasks. rewrite Ht. by destruct pg; cbn in *; subst.
Qed.

Lemma run_due_closed fuel t (w : Window number) :
  isSpoilerViewMode (page_dom (page w)) = false → tasks (page w) = [] →
  page (run_due fuel t w) = page w.
Proof.
  revert w. induction fuel as [|fuel IH]; intros w Hg Ht; [done|].
  cbn [run_due]. destruct (earliest (timers w)) as [tm|]; [|done].
  destruct (timer_due tm <=? t); [|done].
  assert (page (run_callback (timer_callback tm)
             {| now := now w `max` timer_due tm;
                timers := List.filter (λ x, negb (timer_id x =? timer_id tm)) (timers w);
                nextTimer := nextTimer w; observer_timeout := observer_timeout w;
                observing := observing w; page := page w; scans := scans w |}) = page w) as Hp.
  { rewrite run_callback_page. cbn [page]. by apply scan_closed. }
  rewrite IH; rewrite Hp; done.
Qed.

(** X8. While the page is not in spoiler view and no lookup is suspended,
    nothing the coordinator runs (start-up, mutation notifications, timers,
    responses) changes the page: no marker, no request, no link. *)
Theorem closed_gate_leaves_page_alone (events : list Event) (w : Window number) :
  isSpoilerViewMode (page_dom (page w)) = false →
  tasks (page w) = [] →
  page (run events w) = page w.
Proof.
  revert w. induction events as [|e events IH]; intros w Hg Ht; [done|].
  change (run (e :: events) w) with (run events (step w e)).
  assert (page (step w e) = page w) as Hp.
  { assert (∀ t, page (advance t w) = page w) as Ha.
    { intros t. unfold advance. cbn [page]. by apply run_due_closed. }
    destruct e as [t|t i o|t]; cbn [step].
    - destruct (observing (advance t w)); [|apply Ha].
      rewrite observer_callback_page. apply Ha.
    - rewrite (proj1 (notify_kept _ _)). cbn [with_page page].
      rewrite Ha. unfold deliver. by rewrite Ht.
    - apply Ha. }
  rewrite IH; rewrite Hp; done.
Qed.
End RunExtras.

Section QuietExtras.
Context {number : Type} `{!JSNumber number}.
Import Str DOM DomAux DomFacts.

(** *** Pages on which a scan inserts nothing *)

Lemma finish_not_shown el (v : Resolved number) d :
  shown v = false → addPriceToCard_finish el v d = d.
Proof.
  unfold shown, addPriceToCard_finish.
  destruct v as [|r|key]; cbn [result_price]; try done.
  destruct (PriceResult.price r); [|done]. by intros ->.
Qed.

Lemma lookup_not_shown (cache : gmap string (PriceResult.t number)) name v :
  (∀ key r, cache !! key = Some r → shown (RResult r) = false) →
  getCardPrice_lookup cache name = Hit v → shown v = false.
Proof.
  intros Hc. unfold getCardPrice_lookup, cache_get.
  destruct (cache !! name) as [r|] eqn:Hr.
  - intros [= <-]. by apply (Hc name).
  - case_bool_decide; [|done]. by intros [= <-].
Qed.

Lemma begin_nothing_to_show el (pg : Page number) :
  nothing_to_show pg → nothing_to_show (addPriceToCard_begin el pg).
Proof.
  intros [Hc Ht]. unfold addPriceToCard_begin.
  destruct (truthy_opt (priceAdded (page_dom pg) el)); [done|].
  destruct (getCardName _ el) as [name|]; [|done].
  destruct (truthy name); [|done].
  destruct (getCardPrice_lookup _ name) as [v|url] eqn:Hl.
  - split; [exact Hc|]. cbn [tasks]. intros t v' Hin Hv.
    apply elem_of_app in Hin as [Hin|Hin]; [by apply (Ht t)|].
    apply list_elem_of_singleton in Hin. subst t. cbn [task_awaiting] in Hv.
    injection Hv as <-. exact (lookup_not_shown _ name v Hc Hl).
  - split; [exact Hc|]. cbn [tasks]. intros t v' Hin Hv.
    apply elem_of_app in Hin as [Hin|Hin]; [by apply (Ht t)|].
    apply list_elem_of_singleton in Hin. by subst t.
Qed.

Lemma processCards_nothing_to_show (pg : Page number) :
  nothing_to_show pg → nothing_to_show (processCards pg).
Proof.
  unfold processCards. destruct (negb _); [done|].
  generalize (querySelectorAll sel_card (page_dom pg) (document (page_dom pg))).
  intros els. revert pg. induction els as [|el els IH]; intros pg Hn; [done|].
  cbn [fold_left]. by apply IH, begin_nothing_to_show.
Qed.

Lemma run_microtasks_nothing_to_show (pg : Page number) :
  nothing_to_show pg →
  page_dom (run_microtasks pg) = page_dom pg ∧ nothing_to_show (run_microtasks pg).
Proof.
  intros [Hc Ht]. unfold run_microtasks.
  assert (∀ ts (start : Page number),
            (∀ t v, t ∈ ts → task_awaiting t = AwaitValue v → shown v = false) →
            let out := fold_left
              (fun acc t =>
                 match task_awaiting t with
                 | AwaitValue v =>
                     {| page_dom := addPriceToCard_finish (task_element t) v (page_dom acc);
                        resolver := resolver acc; tasks := tasks acc |}
                 | AwaitFetch _ =>
                     {| page_dom := page_dom acc; resolver := resolver acc;
                        tasks := tasks acc ++ [t] |}
                 end) ts start in
            page_dom out = page_dom start ∧ resolver out = resolver start ∧
            ∀ t v, t ∈ tasks out → task_awaiting t = AwaitValue v →
                   t ∈ tasks start) as Hfold.
  { intros ts. induction ts as [|t ts IH]; intros start Hts; [done|].
    cbn [fold_left].
    destruct (task_awaiting t) as [v|name] eqn:Hv.
    - edestruct IH as (Hd & Hr & Hk); [intros; eapply Hts; [by right|done]|].
      rewrite Hd, Hr. cbn [page_dom resolver].
      split; [|split; [done|]].
      + apply finish_not_shown. by apply (Hts t); [left|].
      + intros t' v' Hin Hv'. by apply (Hk t' v').
    - edestruct IH as (Hd & Hr & Hk); [intros; eapply Hts; [by right|done]|].
      rewrite Hd, Hr. cbn [page_dom resolver].
      split; [done|split; [done|]].
      intros t' v' Hin Hv'. specialize (Hk t' v' Hin Hv'). cbn [tasks] in Hk.
      apply elem_of_app in Hk as [Hk|Hk]; [done|].
      apply list_elem_of_singleton in Hk. subst t'. congruence. }
  destruct (Hfold (tasks pg) {| page_dom := page_dom pg; resolver := resolver pg; tasks := [] |} Ht)
    as (Hd & Hr & Hk).
  split; [exact Hd|]. split.
  - rewrite Hr. exact Hc.
  - intros t v Hin Hv. specialize (Hk t v Hin Hv). cbn [tasks] in Hk.
    by apply elem_of_nil in Hk.
Qed.

Lemma childList_changed_same d : childList_changed d d = false.
Proof.
  unfold childList_changed. apply not_true_is_false. intros Hex.
  apply existsb_exists in Hex as (x & _ & Hx).
  by rewrite bool_decide_true in Hx.
Qed.

Lemma scan_nothing_to_show (pg : Page number) :
  nothing_to_show pg → nothing_to_show (scan pg) ∧ feeds pg = false.
Proof.
  intros Hn. apply processCards_nothing_to_show in Hn.
  destruct (run_microtasks_nothing_to_show _ Hn) as [Hd Hn'].
  split; [exact Hn'|]. unfold feeds, scan. rewrite Hd. apply childList_changed_same.
Qed.

(** At start-up the cache is empty, and later, as long as no response has
    brought a price, the calls that wait all wait for their request. *)
Lemma empty_cache_nothing_to_show (pg : Page number) :
  priceCache (resolver pg) = ∅ →
  forallb (fun t => match task_awaiting t with AwaitFetch _ => true | AwaitValue _ => false end)
    (tasks pg) = true →
  nothing_to_show pg.
Proof.
  intros Hc Ht. split.
  - intros name r. by rewrite Hc, lookup_empty.
  - intros t v Hin Hv. rewrite forallb_forall in Ht.
    specialize (Ht t (proj1 (list_elem_of_In _ _) Hin)). by rewrite Hv in Ht.
Qed.

End QuietExtras.

Section CoordinatorExtras.
Context {number : Type} `{!JSNumber number}.
Import Str DOM DomAux DomFacts.

Lemma mutation_after_window (w : Window number) t t' log pg :
  pending w t log pg → feeds pg = false → t + 300 < t' →
  pending (step w (Mutation t')) t' (log ++ [t + 300]) (scan pg).
Proof.
  intros Hp Hq Hlt. unfold step, advance.
  rewrite (advance_fires w t log pg t' Hp) by lia.
  rewrite Hq, run_due_idle by reflexivity.
  cbn [now timers nextTimer observer_timeout observing page scans].
  rewrite observer_callback_alone by (left; reflexivity).
  cbn [now timers nextTimer observer_timeout observing page scans].
  replace (Nat.max (t + 300) t') with t' by lia.
  split; cbn [now timers observer_timeout observing page scans]; try reflexivity.
  eexists; split; reflexivity.
Qed.

Lemma mutations_pending (w : Window number) t ts log pg :
  pending w t log pg → nothing_to_show pg → apart t ts →
  ∃ log' pg',
    pending (run (map Mutation ts) w) (List.last ts t) log' pg' ∧
    nothing_to_show pg' ∧
    ∀ T, log' ++ (if (List.last ts t + 300 <=? T) then [List.last ts t + 300] else [])
         = log ++ burst_ends t ts T.
Proof.
  revert w t log pg. induction ts as [|t' ts IH]; intros w t log pg Hp Hn Ha.
  - exists log, pg. split; [exact Hp|]. split; [exact Hn|done].
  - destruct Ha as (Hle & Hne & Ha).
    rewrite last_cons.
    change (run (map Mutation (t' :: ts)) w)
      with (run (map Mutation ts) (step w (Mutation t'))).
    cbn [burst_ends].
    destruct (Nat.ltb_spec (t + 300) t') as [Hlt|Hge].
    + destruct (scan_nothing_to_show pg Hn) as [Hn' Hq].
      destruct (IH (step w (Mutation t')) t' (log ++ [t + 300]) (scan pg)
                  (mutation_after_window w t t' log pg Hp Hq Hlt) Hn' Ha)
        as (log' & pg' & Hp' & Hn'' & Hlog).
      exists log', pg'. split; [exact Hp'|]. split; [exact Hn''|].
      intros T. rewrite Hlog. by rewrite <- app_assoc.
    + assert (t' < t + 300) as Hlt by lia.
      destruct (IH (step w (Mutation t')) t' log pg
                  (mutation_when_pending w t t' log pg Hp Hle Hlt) Hn Ha)
        as (log' & pg' & Hp' & Hn'' & Hlog).
      exists log', pg'. split; [exact Hp'|]. split; [exact Hn''|].
      intros T. by rewrite Hlog.
Qed.

(** X15. As long as nothing priced is cached, so that a scan inserts
    nothing: for any sequence of mutation notifications in time order, none
    exactly 300 ms after the one before, the scans run up to [T] are exactly
    those 300 ms after each notification that no other follows within
    300 ms. *)
Theorem scans_fire_at_burst_ends (w : Window number) (t : nat) (ts : list nat) (T : nat) :
  observing w = true →
  timers w = [] →
  now w ≤ t →
  apart t ts →
  nothing_to_show (page w) →
  scans (run (map Mutation (t :: ts) ++ [Idle T]) w) = scans w ++ burst_ends t ts T.
Proof.
  intros Hobs Htim Hnow Ha Hn.
  unfold run. rewrite fold_left_app. cbn [map fold_left].
  destruct (mutations_pending (step w (Mutation t)) t ts (scans w) (page w)
              (mutation_when_idle w t Hobs Htim Hnow) Hn Ha)
    as (log' & pg' & Hp & Hn' & Hlog).
  fold (run (map Mutation ts) (step w (Mutation t))).
  destruct (idle_when_pending _ _ _ _ T Hp) as (Hearly & Hquiet & _).
  rewrite <- Hlog.
  destruct (Nat.leb_spec (List.last ts t + 300) T) as [Hle|Hlt].
  - apply (Hquiet Hle). by apply scan_nothing_to_show.
  - rewrite app_nil_r. by apply Hearly.
Qed.

(** Marking cards leaves the body where it is. *)
Lemma processCards_body (pg : Page number) :
  body (page_dom (processCards pg)) = body (page_dom pg).
Proof.
  unfold processCards. destruct (negb _); [done|].
  rewrite fold_begin_dom.
  generalize (querySelectorAll sel_card (page_dom pg) (document (page_dom pg))).
  generalize (page_dom pg). intros d els.
  revert d. induction els as [|el els IH]; intros d; [done|].
  cbn [fold_left]. rewrite IH. destruct (truthy_opt _); [done|].
  unfold body. rewrite document_setAttribute.
  apply unread_querySelector. intros nd. apply sel_tag_unread.
Qed.

(** The window before the startup delay is over. *)
Lemma load_starting (pg : Page number) :
  timers (load pg) = [{| timer_id := 1; timer_due := 2000; timer_callback := CbInit |}] ∧
  observing (load pg) = false ∧ page (load pg) = pg ∧ scans (load pg) = [] ∧
  now (load pg) < 2000.
Proof.
  unfold load, init, setTimeout, with_timers.
  cbn [snd now timers nextTimer observer_timeout observing page scans app Nat.add].
  repeat split. apply Nat.ltb_lt. reflexivity.
Qed.

(** Before the timer of [init] runs, notifications find no observer. *)
Lemma mutation_while_starting (w : Window number) id d t :
  timers w = [{| timer_id := id; timer_due := d; timer_callback := CbInit |}] →
  observing w = false → now w < d → t < d →
  timers (step w (Mutation t)) = timers w ∧
  observing (step w (Mutation t)) = false ∧
  page (step w (Mutation t)) = page w ∧
  scans (step w (Mutation t)) = scans w ∧
  now (step w (Mutation t)) < d.
Proof.
  intros Htim Hobs Hnow Ht.
  unfold step, advance.
  rewrite (run_due_early _ t w _ Htim) by (cbn [timer_due]; exact Ht).
  cbn [observing]. rewrite Hobs.
  cbn [now timers nextTimer observer_timeout observing page scans].
  split; [reflexivity|]. do 3 (split; [reflexivity|]). lia.
Qed.

(** The timer of [init] runs: the first scan, and the observer attached. *)
Lemma init_timer_runs (w : Window number) id d pg :
  timers w = [{| timer_id := id; timer_due := d; timer_callback := CbInit |}] →
  observing w = false → now w < d → page w = pg → feeds pg = false →
  run_callback CbInit
    {| now := Nat.max (now w) d;
       timers := List.filter (fun x => negb (timer_id x =? id)%nat) (timers w);
       nextTimer := nextTimer w;
       observer_timeout := observer_timeout w; observing := observing w;
       page := page w; scans := scans w |}
  = {| now := d; timers := []; nextTimer := nextTimer w;
       observer_timeout := observer_timeout w;
       observing := bool_decide (is_Some (body (page_dom pg)));
       page := scan pg; scans := scans w ++ [d] |}.
Proof.
  intros Htim Hobs Hnow Hpage Hquiet.
  rewrite Htim. cbn [List.filter timer_id]. rewrite Nat.eqb_refl. cbn [negb].
  replace (Nat.max (now w) d) with d by lia.
  rewrite Hobs, Hpage.
  unfold run_callback, finish_task, observe, notify, with_page.
  cbn [now timers nextTimer observer_timeout observing page scans].
  fold (scan pg). fold (feeds pg).
  rewrite Hquiet, andb_false_r, processCards_body. reflexivity.
Qed.

Lemma startup (w : Window number) id d pg (ts : list nat) (T : nat) :
  timers w = [{| timer_id := id; timer_due := d; timer_callback := CbInit |}] →
  observing w = false → now w < d → page w = pg → scans w = [] →
  nothing_to_show pg →
  Forall (fun t => t < d) ts →
  d ≤ T →
  let w' := fold_left step [Idle T] (fold_left step (map Mutation ts) w) in
  scans w' = [d] ∧ page w' = scan pg ∧
  observing w' = bool_decide (is_Some (body (page_dom pg))) ∧ timers w' = [].
Proof.
  intros Htim Hobs Hnow Hpage Hscans Hn Hts HT.
  revert w Htim Hobs Hnow Hpage Hscans.
  induction Hts as [|t ts Ht Hts IH]; intros w Htim Hobs Hnow Hpage Hscans.
  - cbn [map fold_left]. unfold step, advance.
    replace (runs_until T (timers w)) with (S ((T - d) / 300)).
    2:{ rewrite Htim, runs_until_one. cbn [timer_due].
        destruct (Nat.leb_spec d T); [reflexivity|lia]. }
    cbn [run_due].
    destruct (earliest (timers w)) as [tm|] eqn:He; rewrite Htim in He; [|discriminate He].
    cbn [earliest] in He. injection He as <-. cbn [timer_due timer_id timer_callback].
    destruct (Nat.leb_spec d T) as [_|]; [|lia].
    rewrite (init_timer_runs w id d pg Htim Hobs Hnow Hpage
               (proj2 (scan_nothing_to_show pg Hn))).
    rewrite run_due_idle by reflexivity.
    cbn [now timers nextTimer observer_timeout observing page scans].
    rewrite Hscans. repeat split.
  - cbn [map fold_left].
    destruct (mutation_while_starting w id d t Htim Hobs Hnow Ht) as (H1 & H2 & H3 & H4 & H5).
    apply IH; congruence.
Qed.

(** X16. On a page that holds nothing priced, as at start-up, where the
    cache is empty: mutation notifications before the start-up delay of
    2000 ms has elapsed schedule nothing, the observer not being attached
    yet.  The first scan is the one at 2000 ms; it attaches the observer if
    the document has a body, and leaves no timer pending. *)
Theorem mutations_before_startup_are_ignored (pg : Page number) (ts : list nat) (T : nat) :
  nothing_to_show pg →
  Forall (fun t => t < 2000) ts →
  2000 ≤ T →
  let w := run (map Mutation ts ++ [Idle T]) (load pg) in
  scans w = [2000] ∧ page w = scan pg ∧
  observing w = bool_decide (is_Some (body (page_dom pg))) ∧ timers w = [].
Proof.
  intros Hn Hts HT w. subst w. unfold run. rewrite fold_left_app.
  destruct (load_starting pg) as (Htim & Hobs & Hpage & Hscans & Hnow).
  exact (startup (load pg) 1 2000 pg ts T Htim Hobs Hnow Hpage Hscans Hn Hts HT).
Qed.
End CoordinatorExtras.

(** * Examples for the further properties *)

Module FurtherCases.
Import Sample Sample2 DOM DomAux TextAux.
Local Open Scope string_scope.
Local Open Scope list_scope.

Lemma never_face_indicator_witness :
  getCardName gallery 5 = Some "Lightning Bolt" ∧
  Str.toLowerCase "Lightning Bolt" ∉ invalidNames.
Proof.
  split; [vm_compute; reflexivity|].
  apply (getCardName_never_face_indicator gallery 5). vm_compute. reflexivity.
Defined.

(** The image whose [alt] is "Front" has no name. *)
Lemma image_alt_witness :
  tagName gallery 9 = Some "IMG" ∧
  getAttribute gallery 9 "alt" = Some "Front" ∧
  bool_decide (Str.toLowerCase "Front" ∈ invalidNames) = true ∧
  getCardName gallery 9
  = if bool_decide (Str.toLowerCase "Front" ∈ invalidNames) then None else Some "Front".
Proof.
  split; [vm_compute; reflexivity|]. split; [vm_compute; reflexivity|].
  split; [vm_compute; reflexivity|].
  apply (getCardName_image_alt gallery 9 "Front"); vm_compute; reflexivity.
Defined.

Lemma nested_image_witness :
  tagName gallery 5 = Some "DIV" ∧
  querySelector (sel_tag "IMG") gallery 5 = Some 6 ∧
  bool_decide (Str.toLowerCase "Lightning Bolt" ∈ invalidNames) = false ∧
  getCardName gallery 5
  = if bool_decide (Str.toLowerCase "Lightning Bolt" ∈ invalidNames)
    then None else Some "Lightning Bolt".
Proof.
  split; [vm_compute; reflexivity|]. split; [vm_compute; reflexivity|].
  split; [vm_compute; reflexivity|].
  apply (getCardName_nested_image gallery 5 6 "Lightning Bolt").
  - vm_compute. discriminate.
  - vm_compute; reflexivity.
  - vm_compute; reflexivity.
  - vm_compute; reflexivity.
Defined.

Lemma no_candidate_witness :
  let pg := page_of gallery in
  isSpoilerViewMode (page_dom pg) = true ∧
  querySelectorAll sel_card (page_dom pg) (document (page_dom pg)) = [5; 7; 9] ∧
  querySelectorAll sel_card (page_dom (processCards pg))
    (document (page_dom (processCards pg))) = [] ∧
  processCards (processCards pg) = processCards pg.
Proof.
  intros pg. destruct (processCards_leaves_no_candidate pg) as [Hnone Hagain].
  split; [vm_compute; reflexivity|]. split; [vm_compute; reflexivity|].
  split; [apply Hnone; vm_compute; reflexivity|exact Hagain].
Defined.

(** The two cards named "Opt" of the sample store, started one after the
    other: two requests. *)
Lemma each_fetch_witness :
  let pg := page_of single in
  let pg' := addPriceToCard_begin 4 (addPriceToCard_begin 3 pg) in
  getCardName (page_dom pg) 3 = Some "Opt" ∧
  getCardName (page_dom pg) 4 = Some "Opt" ∧
  requests (resolver pg')
  = requests (resolver pg) ++ [searchUrl "Opt"; searchUrl "Opt"] ∧
  tasks pg'
  = tasks pg ++ [ {| task_element := 3; task_awaiting := AwaitFetch "Opt" |};
                  {| task_element := 4; task_awaiting := AwaitFetch "Opt" |} ].
Proof.
  intros pg pg'. split; [vm_compute; reflexivity|]. split; [vm_compute; reflexivity|].
  apply (same_name_cards_each_fetch pg 3 4 "Opt").
  - intros Heq. discriminate Heq.
  - vm_compute; reflexivity.
  - vm_compute; reflexivity.
  - vm_compute; reflexivity.
  - vm_compute; reflexivity.
  - vm_compute; reflexivity.
  - vm_compute; reflexivity.
Defined.

Lemma cached_name_witness :
  let pg := {| page_dom := single; resolver := opt_cached; tasks := [] |} in
  priceCache (resolver pg) !! "Opt" = Some opt_result ∧
  run_microtasks (addPriceToCard_begin 3 pg)
  = {| page_dom := addPriceToCard_finish 3 (RResult opt_result)
                     (setAttribute single 3 "data-price-added" "true");
       resolver := opt_cached;
       tasks := [] |}.
Proof.
  intros pg. split; [vm_compute; reflexivity|].
  apply (cached_name_needs_no_request pg 3 "Opt" opt_result).
  - reflexivity.
  - vm_compute; reflexivity.
  - vm_compute; reflexivity.
  - vm_compute; reflexivity.
  - vm_compute; reflexivity.
Defined.

(** In table view, and on a page without the view mode control, nothing
    happens to the card, whatever the page does. *)
Lemma closed_gate_witness :
  let events := [Mutation 100; Idle 2000; Mutation 2100; Idle 5000] in
  isSpoilerViewMode table_view = false ∧
  getElementById no_control "viewMode" = None ∧
  page (run events (load (page_of table_view))) = page_of table_view ∧
  page (run events (load (page_of no_control))) = page_of no_control.
Proof.
  intros events. split; [vm_compute; reflexivity|]. split; [vm_compute; reflexivity|].
  split.
  - apply (closed_gate_leaves_page_alone events (load (page_of table_view)));
      vm_compute; reflexivity.
  - apply (closed_gate_leaves_page_alone events (load (page_of no_control)));
      vm_compute; reflexivity.
Defined.

Lemma priceless_witness :
  candidates (number := Decimal.t) [unpriced] = [] ∧
  ∃ r st1,
    getCardPrice (λ _, ok_with [unpriced]) "Opt" fresh = (RResult r, st1) ∧
    PriceResult.price r = None ∧
    PriceResult.purchaseUrl r = None ∧
    requests st1 = requests fresh ++ [searchUrl "Opt"] ∧
    getCardPrice (λ _, unreachable) "Opt" st1 = (RResult r, st1).
Proof.
  split; [vm_compute; reflexivity|].
  apply (priceless_result_is_cached (λ _, ok_with [unpriced]) (λ _, unreachable)
           "Opt" fresh 200 unpriced []).
  - vm_compute; reflexivity.
  - reflexivity.
  - vm_compute; reflexivity.
Defined.

Lemma inherited_name_witness :
  getCardPrice (λ _, unreachable) "constructor" fresh = (RInherited "constructor", fresh) ∧
  ∀ el d, addPriceToCard_finish el (RInherited "constructor" : Resolved Decimal.t) d = d.
Proof.
  apply (inherited_name_is_not_fetched (λ _, unreachable) "constructor" fresh).
  - apply (bool_decide_unpack _). vm_compute. exact I.
  - vm_compute; reflexivity.
Defined.

Lemma cache_kept_witness :
  let w := load {| page_dom := gallery; resolver := opt_cached; tasks := [] |} in
  let events := [Idle 2000; Response 2050 0 (ok_with [bolt]); Mutation 2100; Idle 5000] in
  is_Some (priceCache (resolver (page (run events w))) !! "Opt").
Proof.
  intros w events. apply (cache_never_evicts events w "Opt").
  exists opt_result. vm_compute. reflexivity.
Defined.

Lemma encoding_witness :
  all_chars Uri.unreserved "Opt" = true ∧
  Uri.encodeURIComponent "Opt" = "Opt" ∧
  (searchUrl "Fire // Ice" = searchUrl "Fire // Ice" → "Fire // Ice" = "Fire // Ice").
Proof.
  destruct TextExtras.encoded_name_is_safe_and_distinct as (_ & Hsame & Hinj).
  split; [vm_compute; reflexivity|].
  split; [apply Hsame; vm_compute; reflexivity|apply Hinj].
Defined.

Lemma no_new_candidate_witness :
  (∃ nd', node (addPriceToCard_finish 3 (RResult opt_result) single) 4 = Some nd' ∧
          sel_card nd' = true) ∧
  ∃ nd, node single 4 = Some nd ∧ sel_card nd = true.
Proof.
  split; [eexists; split; vm_compute; reflexivity|].
  eapply (annotation_creates_no_candidate 3 (RResult opt_result) single 4).
  - apply Cases.single_well_formed_3.
  - vm_compute. reflexivity.
  - vm_compute. reflexivity.
Defined.

Local Open Scope nat_scope.

(** Two bursts and a notification whose delay is not over at 5000, after
    the first scan of the gallery: its request is still in flight. *)
Lemma burst_ends_witness :
  let w := run [Idle 2000] (load (page_of gallery)) in
  let ts := [2150; 2600; 2650; 4900] in
  burst_ends 2100 ts 5000 = [2450; 2950] ∧
  scans (run (map Mutation (2100 :: ts) ++ [Idle 5000]) w)
  = scans w ++ burst_ends 2100 ts 5000.
Proof.
  intros w ts. split; [vm_compute; reflexivity|].
  assert (now w = 2000) as Hnow by (vm_compute; reflexivity).
  apply (scans_fire_at_burst_ends w 2100 ts 5000).
  - vm_compute; reflexivity.
  - vm_compute; reflexivity.
  - rewrite Hnow. apply Nat.leb_le. vm_compute. reflexivity.
  - cbn [apart ts].
    repeat split;
      try (apply Nat.leb_le; vm_compute; reflexivity);
      try (apply Nat.eqb_neq; vm_compute; reflexivity).
  - apply empty_cache_nothing_to_show; vm_compute; reflexivity.
Defined.

Lemma startup_witness :
  let w := run (map Mutation [100; 500; 1999] ++ [Idle 2500]) (load (page_of gallery)) in
  body gallery = Some 2 ∧
  scans w = [2000] ∧ page w = scan (page_of gallery) ∧
  observing w = bool_decide (is_Some (body (page_dom (page_of gallery)))) ∧ timers w = [].
Proof.
  split; [vm_compute; reflexivity|].
  apply (mutations_before_startup_are_ignored (page_of gallery) [100; 500; 1999] 2500).
  - apply empty_cache_nothing_to_show; vm_compute; reflexivity.
  - repeat (apply Forall_cons; split; [apply Nat.ltb_lt; vm_compute; reflexivity|]).
    apply Forall_nil_2.
  - apply Nat.leb_le. vm_compute. reflexivity.
Defined.

(** The links a response brings are inserted under the body: the observer
    is notified and a scan follows 300 later. *)
Example response_feeds_observer :
  let w := run [Idle 2000; Response 2050 0 (ok_with [five_a]); Idle 5000]
             (load (page_of single)) in
  scans w = [2000; 2350] ∧
  (childNodes <$> node (page_dom (page w)) 1) = Some [2; 3; 5].
Proof. vm_compute. split; reflexivity. Qed.

End FurtherCases.
